(** * Space Invaders (frontend/src/game.ts, frontend/src/main.ts)

    A shallow embedding of the game rules of [SpaceInvadersGame] and of the
    leaderboard aggregation of [loadLeaderboard], with the properties of the
    specification stated and proved over it.

    Numbers.  JavaScript numbers are doubles.  Every coordinate the game
    computes is a multiple of 1/2 of small magnitude (the grid starts at
    x = 97.5), on which double arithmetic is exact, so coordinates are
    rationals [Q]; counters (score, lives, tick, animFrame) are integers [Z].
    The one product that is not exact is
    [Math.random() * activeInvaders.length] in [enemyShoot]; it is rounded
    as binary64 rounds it ([fl64]), since [Math.floor] of the rounded
    product can be one more than the floor of the exact one.

    Left out.  The starfield and the explosion particles are written by
    [update] and [createExplosion] and read by [render] only; no rule reads
    them, and they are not part of the model.  [Math.random()] in
    [enemyShoot] is an input [r] of the tick. *)

From Stdlib Require Import String ZArith QArith Qminmax Qround Qpower.
From Stdlib Require Import Lqa Lia Bool List ListSet.
Import ListNotations.

Local Open Scope string_scope.
Local Open Scope list_scope.
Local Open Scope Q_scope.

(** ** Game constants *)

Definition CANVAS_WIDTH : Q := 800.

Definition CANVAS_HEIGHT : Q := 600.

Definition SHIP_WIDTH : Q := 50.

Definition SHIP_HEIGHT : Q := 30.

Definition INVADER_WIDTH : Q := 40.

Definition INVADER_HEIGHT : Q := 30.

Definition INVADER_ROWS : nat := 5.

Definition INVADER_COLS : nat := 11.

Definition INVADER_PADDING : Q := 15.

Definition BULLET_WIDTH : Q := 6.

Definition BULLET_HEIGHT : Q := 15.

Definition ofNat (n : nat) : Q := inject_Z (Z.of_nat n).

(** ** Comparisons of numbers, as booleans *)

Definition Qleb (a b : Q) : bool := Qle_bool a b.

Definition Qltb (a b : Q) : bool := negb (Qle_bool b a).

Definition Qgeb (a b : Q) : bool := Qleb b a.

Definition Qgtb (a b : Q) : bool := Qltb b a.

(** ** binary64 *)

(** The largest [e] with [2 ^ e <= q], for [0 < q]. *)
Definition ilog2 (q : Q) : Z :=
  let e := (Z.log2 (Qnum q) - Z.log2 (Zpos (Qden q)))%Z in
  if Qle_bool (2 ^ e) q then e else (e - 1)%Z.

(** The nearest integer; of two at the same distance, the even one. *)
Definition roundHalfEven (q : Q) : Z :=
  let f := Qfloor q in
  match Qcompare (q - inject_Z f) (1 # 2) with
  | Lt => f
  | Gt => (f + 1)%Z
  | Eq => if Z.even f then f else (f + 1)%Z
  end.

(** The exponent of the last of the 53 binary digits of the binary64
    numbers of the magnitude of [q]; subnormal numbers end at 2^-1074. *)
Definition lastDigit (q : Q) : Z := (Z.max (ilog2 q) (-1022) - 52)%Z.

Definition fl64pos (q : Q) : Q :=
  let u := 2 ^ lastDigit q in inject_Z (roundHalfEven (q / u)) * u.

(** The binary64 number nearest to [q] (round to nearest, ties to even):
    the result of an arithmetic operation whose exact result is [q], for
    [q] below 2^1024 in magnitude. *)
Definition fl64 (q : Q) : Q :=
  match Qcompare q 0 with
  | Eq => 0
  | Gt => fl64pos q
  | Lt => - fl64pos (- q)
  end.

(** [q] is a binary64 number. *)
Definition isBinary64 (q : Q) : bool := Qeq_bool (fl64 q) q.

(** ** Game state interfaces *)

Inductive InvaderType : Type := squid | crab | octopus.

Module Ship.
Record t : Type := mk { x : Q; y : Q }.
End Ship.

Module Invader.
Record t : Type := mk {
  x : Q;
  y : Q;
  type : InvaderType;
  active : bool;
  animFrame : Z
}.
End Invader.

Module Bullet.
Record t : Type := mk {
  x : Q;
  y : Q;
  active : bool;
  isPlayer : bool
}.
End Bullet.

Record GameState : Type := mkState {
  ship : Ship.t;
  invaders : list Invader.t;
  bullets : list Bullet.t;
  score : Z;
  lives : Z;
  gameOver : bool;
  won : bool;
  invaderDirection : Q;
  tick : Z
}.

(** The instance of the class: the game state and the set of pressed keys. *)
Record Game : Type := mkGame {
  state : GameState;
  keys : set string
}.

(** ** createInitialState *)

Definition startX : Q :=
  (CANVAS_WIDTH - (ofNat INVADER_COLS * (INVADER_WIDTH + INVADER_PADDING))) / 2.

Definition rowType (row : nat) : InvaderType :=
  if Nat.eqb row 0 then squid else if Nat.ltb row 3 then crab else octopus.

Definition gridInvader (row col : nat) : Invader.t :=
  Invader.mk (startX + ofNat col * (INVADER_WIDTH + INVADER_PADDING))
             (60 + ofNat row * (INVADER_HEIGHT + INVADER_PADDING))
             (rowType row) true 0.

Definition gridRow (row : nat) : list Invader.t :=
  map (gridInvader row) (seq 0 INVADER_COLS).

Definition createInitialState : GameState :=
  mkState
    (Ship.mk (CANVAS_WIDTH / 2 - SHIP_WIDTH / 2)
             (CANVAS_HEIGHT - SHIP_HEIGHT - 20))
    (flat_map gridRow (seq 0 INVADER_ROWS))
    [] 0%Z 3%Z false false 1 0%Z.

(** ** processInput *)

Definition has (ks : set string) (k : string) : bool := set_mem string_dec k ks.

Definition setShipX (s : GameState) (nx : Q) : GameState :=
  mkState (Ship.mk nx (Ship.y (ship s))) (invaders s) (bullets s) (score s)
          (lives s) (gameOver s) (won s) (invaderDirection s) (tick s).

Definition processInputState (ks : set string) (s : GameState) : GameState :=
  if gameOver s then s else
  let speed := 8 in
  let s1 :=
    if has ks "ArrowLeft" || has ks "a" || has ks "A"
    then setShipX s (Qmax 0 (Ship.x (ship s) - speed)) else s in
  if has ks "ArrowRight" || has ks "d" || has ks "D"
  then setShipX s1 (Qmin (CANVAS_WIDTH - SHIP_WIDTH) (Ship.x (ship s1) + speed))
  else s1.

Definition processInput (g : Game) : Game :=
  mkGame (processInputState (keys g) (state g)) (keys g).

(** ** shoot *)

Definition setBullets (s : GameState) (bs : list Bullet.t) : GameState :=
  mkState (ship s) (invaders s) bs (score s) (lives s) (gameOver s) (won s)
          (invaderDirection s) (tick s).

Definition isActivePlayer (b : Bullet.t) : bool :=
  Bullet.isPlayer b && Bullet.active b.

Definition shoot (s : GameState) : GameState :=
  let playerBullets := filter isActivePlayer (bullets s) in
  if Nat.leb 3 (length playerBullets) then s else
  setBullets s
    (bullets s ++
     [Bullet.mk (Ship.x (ship s) + SHIP_WIDTH / 2 - BULLET_WIDTH / 2)
                (Ship.y (ship s) - BULLET_HEIGHT) true true]).

(** ** bindControls: the keydown and keyup listeners *)

Definition keydown (k : string) (g : Game) : Game :=
  let ks := set_add string_dec k (keys g) in
  if String.eqb k " "
  then mkGame (if gameOver (state g) then state g else shoot (state g)) ks
  else mkGame (state g) ks.

Definition keyup (k : string) (g : Game) : Game :=
  mkGame (state g) (set_remove string_dec k (keys g)).

(** ** update: bullets *)

Definition moveBullet (b : Bullet.t) : Bullet.t :=
  if negb (Bullet.active b) then b else
  let ny := Bullet.y b + (if Bullet.isPlayer b then -12 else 6) in
  Bullet.mk (Bullet.x b) ny
            (if Qltb ny 0 || Qgtb ny CANVAS_HEIGHT then false else true)
            (Bullet.isPlayer b).

(** ** checkHit *)

Definition checkHit (x1 y1 w1 h1 x2 y2 w2 h2 : Q) : bool :=
  Qltb x1 (x2 + w2) && Qgtb (x1 + w1) x2 && Qltb y1 (y2 + h2) && Qgtb (y1 + h1) y2.

Definition hitsInvader (b : Bullet.t) (i : Invader.t) : bool :=
  checkHit (Bullet.x b) (Bullet.y b) BULLET_WIDTH BULLET_HEIGHT
           (Invader.x i) (Invader.y i) INVADER_WIDTH INVADER_HEIGHT.

Definition hitsShip (b : Bullet.t) (sh : Ship.t) : bool :=
  checkHit (Bullet.x b) (Bullet.y b) BULLET_WIDTH BULLET_HEIGHT
           (Ship.x sh) (Ship.y sh) SHIP_WIDTH SHIP_HEIGHT.

(** ** checkCollisions *)

Definition points (ty : InvaderType) : Z :=
  match ty with squid => 30 | crab => 20 | octopus => 10 end%Z.

Definition deactivate (b : Bullet.t) : Bullet.t :=
  Bullet.mk (Bullet.x b) (Bullet.y b) false (Bullet.isPlayer b).

Definition kill (i : Invader.t) : Invader.t :=
  Invader.mk (Invader.x i) (Invader.y i) (Invader.type i) false
             (Invader.animFrame i).

(** The inner [forEach] of the first loop: one bullet against the invader
    array, in array order.  The callback tests [invader.active] and
    [checkHit] only; the bullet it has just deactivated is tested against
    the remaining invaders all the same. *)
Fixpoint hitInvaders (b : Bullet.t) (invs : list Invader.t) (sc : Z)
  : Bullet.t * list Invader.t * Z :=
  match invs with
  | [] => (b, [], sc)
  | i :: rest =>
      if negb (Invader.active i) then
        let '(b', rest', sc') := hitInvaders b rest sc in (b', i :: rest', sc')
      else if hitsInvader b i then
        let '(b', rest', sc') :=
          hitInvaders (deactivate b) rest (sc + points (Invader.type i))%Z in
        (b', kill i :: rest', sc')
      else
        let '(b', rest', sc') := hitInvaders b rest sc in (b', i :: rest', sc')
  end.

(** The outer [forEach] of the first loop: player bullets vs invaders. *)
Fixpoint playerBulletsVsInvaders (bs : list Bullet.t) (invs : list Invader.t)
  (sc : Z) : list Bullet.t * list Invader.t * Z :=
  match bs with
  | [] => ([], invs, sc)
  | b :: rest =>
      if negb (Bullet.active b) || negb (Bullet.isPlayer b) then
        let '(rest', invs', sc') := playerBulletsVsInvaders rest invs sc in
        (b :: rest', invs', sc')
      else
        let '(b1, invs1, sc1) := hitInvaders b invs sc in
        let '(rest', invs', sc') := playerBulletsVsInvaders rest invs1 sc1 in
        (b1 :: rest', invs', sc')
  end.

(** The second loop: enemy bullets vs player. *)
Fixpoint enemyBulletsVsShip (sh : Ship.t) (bs : list Bullet.t) (lv : Z)
  (over : bool) : list Bullet.t * Z * bool :=
  match bs with
  | [] => ([], lv, over)
  | b :: rest =>
      if negb (Bullet.active b) || Bullet.isPlayer b then
        let '(rest', lv', over') := enemyBulletsVsShip sh rest lv over in
        (b :: rest', lv', over')
      else if hitsShip b sh then
        let lv1 := (lv - 1)%Z in
        let over1 := if (lv1 <=? 0)%Z then true else over in
        let '(rest', lv', over') := enemyBulletsVsShip sh rest lv1 over1 in
        (deactivate b :: rest', lv', over')
      else
        let '(rest', lv', over') := enemyBulletsVsShip sh rest lv over in
        (b :: rest', lv', over')
  end.

Definition checkCollisions (s : GameState) : GameState :=
  let '(bs1, invs1, sc1) :=
    playerBulletsVsInvaders (bullets s) (invaders s) (score s) in
  let '(bs2, lv2, over2) :=
    enemyBulletsVsShip (ship s) bs1 (lives s) (gameOver s) in
  mkState (ship s) invs1 bs2 sc1 lv2 over2 (won s) (invaderDirection s)
          (tick s).

(** ** moveInvaders *)

Definition hitsWall (dir : Q) (i : Invader.t) : bool :=
  Invader.active i &&
  (let newX := Invader.x i + dir * 15 in
   Qleb newX 0 || Qgeb newX (CANVAS_WIDTH - INVADER_WIDTH)).

Definition moveInvader (shouldDescend : bool) (dir : Q) (i : Invader.t)
  : Invader.t :=
  if negb (Invader.active i) then i else
  if shouldDescend
  then Invader.mk (Invader.x i) (Invader.y i + 25) (Invader.type i)
                  (Invader.active i) (Invader.animFrame i)
  else Invader.mk (Invader.x i + dir * 15) (Invader.y i) (Invader.type i)
                  (Invader.active i) (Invader.animFrame i).

Definition reachedShip (sh : Ship.t) (i : Invader.t) : bool :=
  Invader.active i && Qgeb (Invader.y i) (Ship.y sh - 30).

Definition moveInvaders (s : GameState) : GameState :=
  let shouldDescend := existsb (hitsWall (invaderDirection s)) (invaders s) in
  let invs := map (moveInvader shouldDescend (invaderDirection s)) (invaders s) in
  mkState (ship s) invs (bullets s) (score s) (lives s)
          (if existsb (reachedShip (ship s)) invs then true else gameOver s)
          (won s)
          (if shouldDescend then invaderDirection s * -1 else invaderDirection s)
          (tick s).

(** ** enemyShoot; [r] is the value returned by [Math.random()]

    The product [Math.random() * activeInvaders.length] is a binary64
    product: the exact product rounded by [fl64]. *)

Definition enemyShoot (r : Q) (s : GameState) : GameState :=
  let activeInvaders := filter Invader.active (invaders s) in
  if Nat.eqb (length activeInvaders) 0 then s else
  match nth_error activeInvaders
          (Z.to_nat (Qfloor (fl64 (r * ofNat (length activeInvaders))))) with
  | Some shooter =>
      setBullets s
        (bullets s ++
         [Bullet.mk (Invader.x shooter + INVADER_WIDTH / 2 - BULLET_WIDTH / 2)
                    (Invader.y shooter + INVADER_HEIGHT) true false])
  | None => s (* not reached: Math.random() is a binary64 number in [0, 1),
                 see [draw_index] *)
  end.

(** ** update *)

Definition animate (i : Invader.t) : Invader.t :=
  if Invader.active i
  then Invader.mk (Invader.x i) (Invader.y i) (Invader.type i)
                  (Invader.active i) (Z.rem (Invader.animFrame i + 1) 2)
  else i.

Definition tickAndMoveBullets (s : GameState) : GameState :=
  mkState (ship s) (invaders s) (map moveBullet (bullets s)) (score s)
          (lives s) (gameOver s) (won s) (invaderDirection s) (tick s + 1)%Z.

Definition sweepStep (s : GameState) : GameState :=
  if (Z.rem (tick s) 25 =? 0)%Z then moveInvaders s else s.

Definition animStep (s : GameState) : GameState :=
  if (Z.rem (tick s) 15 =? 0)%Z
  then mkState (ship s) (map animate (invaders s)) (bullets s) (score s)
               (lives s) (gameOver s) (won s) (invaderDirection s) (tick s)
  else s.

Definition fireStep (r : Q) (s : GameState) : GameState :=
  if (Z.rem (tick s) 50 =? 0)%Z then enemyShoot r s else s.

Definition winCheck (s : GameState) : GameState :=
  let activeInvaders := filter Invader.active (invaders s) in
  if Nat.eqb (length activeInvaders) 0
  then mkState (ship s) (invaders s) (bullets s) (score s) (lives s) true true
               (invaderDirection s) (tick s)
  else s.

Definition cleanUp (s : GameState) : GameState :=
  setBullets s (filter Bullet.active (bullets s)).

Definition update (r : Q) (s : GameState) : GameState :=
  if gameOver s then s else
  cleanUp (winCheck (fireStep r (animStep (sweepStep
    (checkCollisions (tickAndMoveBullets s)))))).

(** ** gameLoop and start

    One animation frame: [processInput], then [update] when a tick is due
    ([delta >= tickInterval]), then rendering.  [start] resets the state and
    runs the first frame at once; [lastTime] has just been taken there, so
    no tick is due in that frame. *)

Definition gameLoop (due : bool) (r : Q) (g : Game) : Game :=
  let g1 := processInput g in
  if due then mkGame (update r (state g1)) (keys g1) else g1.

Definition start (g : Game) : Game :=
  gameLoop false 0 (mkGame createInitialState (keys g)).

(** The constructor. *)
Definition newGame : Game := mkGame createInitialState [].

(** ** Runs of the game: what the browser can call, in any order *)

Inductive Event : Type :=
| KeyDown (k : string)
| KeyUp (k : string)
| Frame (due : bool) (r : Q)
| Start.

Definition step (g : Game) (e : Event) : Game :=
  match e with
  | KeyDown k => keydown k g
  | KeyUp k => keyup k g
  | Frame due r => gameLoop due r g
  | Start => start g
  end.

Definition run (es : list Event) (g : Game) : Game := fold_left step es g.

(** [Math.random()] returns a binary64 number in [0, 1).  The runs below
    allow every rational draw in [0, 1): this only adds runs, so what is
    proved of all reachable games holds of the games of the code, and the
    games exhibited below use binary64 draws only.  Where a statement
    needs the draw to be binary64 it says so. *)
Definition validEvent (e : Event) : Prop :=
  match e with
  | Frame _ r => 0 <= r /\ r < 1
  | _ => True
  end.

Inductive reachable : Game -> Prop :=
| reach_new : reachable newGame
| reach_step g e : reachable g -> validEvent e -> reachable (step g e).

(** * Predicates, specification functions and sample games *)

(** ** What a tick may change, and what it scores *)

Definition bulletFade (b b' : Bullet.t) : Prop :=
  Bullet.x b' = Bullet.x b /\ Bullet.y b' = Bullet.y b /\
  Bullet.isPlayer b' = Bullet.isPlayer b /\
  (Bullet.active b' = true -> Bullet.active b = true).

Definition invaderFade (i i' : Invader.t) : Prop :=
  Invader.x i' = Invader.x i /\ Invader.y i' = Invader.y i /\
  Invader.type i' = Invader.type i /\
  Invader.animFrame i' = Invader.animFrame i /\
  (Invader.active i' = true -> Invader.active i = true).

(** Points of the invaders that are active in [before] and inactive, at the
    same index, in [after]. *)
Fixpoint killedPoints (before after : list Invader.t) : list Z :=
  match before, after with
  | i :: r, i' :: r' =>
      if Invader.active i && negb (Invader.active i')
      then points (Invader.type i) :: killedPoints r r'
      else killedPoints r r'
  | _, _ => []
  end.

Definition sumZ (l : list Z) : Z := fold_right Z.add 0%Z l.

Definition inField (s : GameState) : Prop :=
  0 <= Ship.x (ship s) /\ Ship.x (ship s) <= CANVAS_WIDTH - SHIP_WIDTH.

Definition pressedLeft (ks : set string) : bool :=
  has ks "ArrowLeft" || has ks "a" || has ks "A".

Definition pressedRight (ks : set string) : bool :=
  has ks "ArrowRight" || has ks "d" || has ks "D".

Definition playerBulletCount (s : GameState) : nat :=
  length (filter isActivePlayer (bullets s)).

(** Owner kept, and no bullet comes back to life. *)
Definition bulletDim (b b' : Bullet.t) : Prop :=
  Bullet.isPlayer b' = Bullet.isPlayer b /\
  (Bullet.active b' = true -> Bullet.active b = true).

(** The invader of the initial grid at a (row, column) pair: columns 55
    apart from x = 97.5, rows 45 apart from y = 60, squids in row 0, crabs
    in rows 1 and 2, octopuses below. *)
Definition atCell (i : Invader.t) (rc : nat * nat) : Prop :=
  Invader.x i == 97.5 + 55 * ofNat (snd rc) /\
  Invader.y i == 60 + 45 * ofNat (fst rc) /\
  Invader.type i =
    match fst rc with O => squid | 1%nat | 2%nat => crab | _ => octopus end /\
  Invader.active i = true.

Definition atCellb (i : Invader.t) (rc : nat * nat) : bool :=
  Qeq_bool (Invader.x i) (97.5 + 55 * ofNat (snd rc)) &&
  Qeq_bool (Invader.y i) (60 + 45 * ofNat (fst rc)) &&
  match Invader.type i,
        match fst rc with O => squid | 1%nat | 2%nat => crab | _ => octopus end
  with
  | squid, squid | crab, crab | octopus, octopus => true
  | _, _ => false
  end &&
  Invader.active i.

Fixpoint forall2b {A B} (f : A -> B -> bool) (l : list A) (l' : list B) : bool :=
  match l, l' with
  | [], [] => true
  | a :: r, b :: r' => f a b && forall2b f r r'
  | _, _ => false
  end.

(** A bullet fired from the middle column, one tick before it reaches the
    bottom row of the grid. *)
Definition beforeFirstKill : Game :=
  run (Start :: KeyDown " " :: repeat (Frame true 0) 22) newGame.

Definition enemyBullet (shooter : Invader.t) : Bullet.t :=
  Bullet.mk (Invader.x shooter + INVADER_WIDTH / 2 - BULLET_WIDTH / 2)
            (Invader.y shooter + INVADER_HEIGHT) true false.

(** The tick before the first enemy shot. *)
Definition beforeFirstShot : Game :=
  run (Start :: repeat (Frame true 0) 49) newGame.

(** ** The leaderboard (main.ts, contract.ts) *)

Module LeaderboardEntry.
Record t : Type := mk {
  username : string;
  player : string;
  score : Z;
  timestamp : Z
}.
End LeaderboardEntry.

(** The value type of the map [scoreByUsername] of [loadLeaderboard]. *)
Module Total.
Record t : Type := mk { username : string; totalScore : Z }.
End Total.

(** Modelled from the spec: the contract's ledger of section 4.6
    (register_player, submit_score, get_leaderboard, is_registered), whose
    source is not part of the repository files at hand.  A registry from
    address to username and the entries in append order. *)
Record Ledger : Type := mkLedger {
  players : list (string * string);
  ledgerEntries : list LeaderboardEntry.t
}.

Fixpoint lookupPlayer (address : string) (ps : list (string * string))
  : option string :=
  match ps with
  | [] => None
  | (a, name) :: r => if String.eqb a address then Some name
                      else lookupPlayer address r
  end.

(** Modelled from the spec: is_registered is a pure lookup. *)
Definition is_registered (address : string) (l : Ledger) : bool :=
  match lookupPlayer address (players l) with Some _ => true | None => false end.

(** Modelled from the spec: register_player is an upsert of the player
    record and leaves the entries alone. *)
Definition register_player (address name : string) (l : Ledger) : Ledger :=
  mkLedger ((address, name) :: players l) (ledgerEntries l).

(** Modelled from the spec: submit_score is rejected for an unregistered
    address and appends one entry otherwise. *)
Definition submit_score (address : string) (sc now : Z) (l : Ledger)
  : option Ledger :=
  match lookupPlayer address (players l) with
  | None => None
  | Some name =>
      Some (mkLedger (players l)
              (ledgerEntries l ++ [LeaderboardEntry.mk name address sc now]))
  end.

(** Modelled from the spec: get_leaderboard returns all entries in append
    order. *)
Definition get_leaderboard (l : Ledger) : list LeaderboardEntry.t :=
  ledgerEntries l.

(** [getLeaderboard] of contract.ts on a successful call: each raw entry
    with [entry.username || "Unknown"]. *)
Definition fromRaw (e : LeaderboardEntry.t) : LeaderboardEntry.t :=
  LeaderboardEntry.mk
    (if String.eqb (LeaderboardEntry.username e) "" then "Unknown"
     else LeaderboardEntry.username e)
    (LeaderboardEntry.player e) (LeaderboardEntry.score e)
    (LeaderboardEntry.timestamp e).

Definition getLeaderboard (l : Ledger) : list LeaderboardEntry.t :=
  map fromRaw (get_leaderboard l).

(** An instance of [toUpperCase] for the examples:
    [String.prototype.toUpperCase] on strings of ASCII characters.  On
    other strings the two differ, so the theorems on [loadLeaderboard] take
    [toUpperCase] as a parameter and this instance is applied to ASCII
    names only. *)
Definition upperChar (c : Ascii.ascii) : Ascii.ascii :=
  let n := Ascii.nat_of_ascii c in
  if Nat.leb 97 n && Nat.leb n 122 then Ascii.ascii_of_nat (n - 32) else c.

Fixpoint asciiUpper (s : string) : string :=
  match s with
  | EmptyString => EmptyString
  | String c r => String (upperChar c) (asciiUpper r)
  end.

Section LoadLeaderboard.

(** [String.prototype.toUpperCase]. *)
Variable toUpperCase : string -> string.

(** A JavaScript [Map] from the normalized username, in insertion order. *)
Definition ScoreMap : Type := list (string * Total.t).

Fixpoint mapGet (k : string) (m : ScoreMap) : option Total.t :=
  match m with
  | [] => None
  | (k', t) :: r => if String.eqb k' k then Some t else mapGet k r
  end.

(** [existing.totalScore += entry.score] on the value stored at [k]. *)
Fixpoint addToExisting (k : string) (sc : Z) (m : ScoreMap) : ScoreMap :=
  match m with
  | [] => []
  | (k', t) :: r =>
      if String.eqb k' k
      then (k', Total.mk (Total.username t) (Total.totalScore t + sc)%Z) :: r
      else (k', t) :: addToExisting k sc r
  end.

Definition aggregateEntry (m : ScoreMap) (entry : LeaderboardEntry.t)
  : ScoreMap :=
  let normalizedUsername := toUpperCase (LeaderboardEntry.username entry) in
  match mapGet normalizedUsername m with
  | Some _ => addToExisting normalizedUsername (LeaderboardEntry.score entry) m
  | None =>
      m ++ [(normalizedUsername,
             Total.mk (LeaderboardEntry.username entry)
                      (LeaderboardEntry.score entry))]
  end.

Definition scoreByUsername (entries : list LeaderboardEntry.t) : ScoreMap :=
  fold_left aggregateEntry entries [].

(** [sort((a, b) => b.totalScore - a.totalScore)]: the stable sort by
    descending total. *)
Fixpoint insertByTotal (a : Total.t) (l : list Total.t) : list Total.t :=
  match l with
  | [] => [a]
  | b :: r =>
      if (Total.totalScore b <=? Total.totalScore a)%Z
      then a :: b :: r else b :: insertByTotal a r
  end.

Definition sortByTotal (l : list Total.t) : list Total.t :=
  fold_right insertByTotal [] l.

Definition aggregatedEntries (entries : list LeaderboardEntry.t)
  : list Total.t :=
  firstn 10 (sortByTotal (map snd (scoreByUsername entries))).

(** The rows written to the list: the name shown and the total shown. *)
Definition leaderboardRows (entries : list LeaderboardEntry.t)
  : list (string * Z) :=
  map (fun e => (toUpperCase (Total.username e), Total.totalScore e))
      (aggregatedEntries entries).

(** The sum of the scores of the entries whose username, upper-cased, is
    [name]. *)
Definition totalFor (name : string) (entries : list LeaderboardEntry.t) : Z :=
  sumZ (map LeaderboardEntry.score
          (filter (fun e => String.eqb (toUpperCase (LeaderboardEntry.username e)) name)
                  entries)).

End LoadLeaderboard.

(** The sum of the scores of the entries whose username is exactly [name]. *)
Definition exactTotalFor (name : string) (entries : list LeaderboardEntry.t) : Z :=
  sumZ (map LeaderboardEntry.score
          (filter (fun e => String.eqb (LeaderboardEntry.username e) name)
                  entries)).

Definition bobThenBob : list LeaderboardEntry.t :=
  [LeaderboardEntry.mk "bob" "GA" 100 1; LeaderboardEntry.mk "Bob" "GB" 50 2].

(** ** The formation of the invaders *)

(** Two active invaders stand in different cells of one formation: a column
    apart (55) or a row apart (45). *)
Definition far (a b : Invader.t) : Prop :=
  Invader.active a = true -> Invader.active b = true ->
  Invader.x a + 55 <= Invader.x b \/ Invader.x b + 55 <= Invader.x a \/
  Invader.y a + 45 <= Invader.y b \/ Invader.y b + 45 <= Invader.y a.

Fixpoint separated (l : list Invader.t) : Prop :=
  match l with
  | [] => True
  | a :: r => Forall (far a) r /\ separated r
  end.

Definition farb (a b : Invader.t) : bool :=
  negb (Invader.active a) || negb (Invader.active b) ||
  Qleb (Invader.x a + 55) (Invader.x b) || Qleb (Invader.x b + 55) (Invader.x a) ||
  Qleb (Invader.y a + 45) (Invader.y b) || Qleb (Invader.y b + 45) (Invader.y a).

Fixpoint separatedb (l : list Invader.t) : bool :=
  match l with
  | [] => true
  | a :: r => forallb (farb a) r && separatedb r
  end.

(** An x coordinate on the half-pixel lattice: an integer plus 1/2. *)
Definition onHalf (i : Invader.t) : Prop :=
  exists n : Z, Invader.x i == inject_Z n + (1 # 2).

Definition onHalfb (i : Invader.t) : bool :=
  Qeq_bool (Invader.x i) (inject_Z (Qfloor (Invader.x i)) + (1 # 2)).

Definition formation (s : GameState) : Prop :=
  separated (invaders s) /\ Forall onHalf (invaders s) /\
  (invaderDirection s == 1 \/ invaderDirection s == -1).

(** The active invaders whose box the box of [b] overlaps, in array
    order. *)
Definition overlapping (b : Bullet.t) (invs : list Invader.t)
  : list Invader.t :=
  filter (fun i => Invader.active i && hitsInvader b i) invs.

Definition isType (ty ty' : InvaderType) : bool :=
  match ty, ty' with
  | squid, squid | crab, crab | octopus, octopus => true
  | _, _ => false
  end.

(** The number of invaders of type [ty] that are active in [before] and
    inactive, at the same index, in [after]. *)
Fixpoint shot (ty : InvaderType) (before after : list Invader.t) : nat :=
  match before, after with
  | i :: r, i' :: r' =>
      ((if Invader.active i && negb (Invader.active i') &&
           isType ty (Invader.type i)
        then 1 else 0) + shot ty r r')%nat
  | _, _ => 0%nat
  end.

Definition outsideField (x : Q) : Prop :=
  x < 0 \/ CANVAS_WIDTH - INVADER_WIDTH < x.

(** Some active invader's tentative x is outside the field. *)
Definition wallAhead (dir : Q) (invs : list Invader.t) : Prop :=
  Exists (fun i => Invader.active i = true /\
                   outsideField (Invader.x i + dir * 15)) invs.

Definition wallAheadb (dir : Q) (invs : list Invader.t) : bool :=
  existsb (fun i => Invader.active i &&
                    (Qltb (Invader.x i + dir * 15) 0 ||
                     Qltb (CANVAS_WIDTH - INVADER_WIDTH) (Invader.x i + dir * 15)))
          invs.

Definition unmoved (i i' : Invader.t) : Prop :=
  Invader.x i' = Invader.x i /\ Invader.y i' = Invader.y i /\
  Invader.active i' = Invader.active i.

Definition descended (i i' : Invader.t) : Prop :=
  Invader.x i' = Invader.x i /\
  Invader.y i' = (if Invader.active i then Invader.y i + 25 else Invader.y i) /\
  Invader.active i' = Invader.active i.

Definition advanced (dir : Q) (i i' : Invader.t) : Prop :=
  Invader.x i' =
    (if Invader.active i then Invader.x i + dir * 15 else Invader.x i) /\
  Invader.y i' = Invader.y i /\
  Invader.active i' = Invader.active i.

Definition animOrNot (t : Z) (i : Invader.t) : Invader.t :=
  if (Z.rem t 15 =? 0)%Z then animate i else i.

Definition beforeFirstSweep : Game :=
  run (Start :: repeat (Frame true 0) 24) newGame.

(** An unattended game one tick before its eighth sweep, the first on which
    the right-most column would pass the right wall. *)
Definition beforeEighthSweep : Game :=
  run (Start :: repeat (Frame true 0) 199) newGame.

(** ** Enemy bullets and lives *)

Definition isActiveEnemy (b : Bullet.t) : bool :=
  negb (Bullet.isPlayer b) && Bullet.active b.

(** Every active enemy bullet is at [bound] or below it on the screen. *)
Definition low (bound : Q) (bs : list Bullet.t) : Prop :=
  Forall (fun b => isActiveEnemy b = true -> bound <= Bullet.y b) bs.

(** [b] was fired after [a] and trails it by 70 or more. *)
Definition trails (a b : Bullet.t) : Prop :=
  isActiveEnemy a = true -> isActiveEnemy b = true ->
  Bullet.y b + 70 <= Bullet.y a.

Fixpoint spaced (bs : list Bullet.t) : Prop :=
  match bs with
  | [] => True
  | a :: r => Forall (trails a) r /\ spaced r
  end.

(** The active invaders are in the five rows of a formation that has come
    down by [dy]. *)
Definition rows (dy : Q) (invs : list Invader.t) : Prop :=
  Forall (fun i => Invader.active i = true ->
                   60 + dy <= Invader.y i /\ Invader.y i <= 240 + dy) invs.

Definition rowsb (invs : list Invader.t) : bool :=
  forallb (fun i => negb (Invader.active i) ||
                    (Qleb 60 (Invader.y i) && Qleb (Invader.y i) 240)) invs.

(** Ticks since the last enemy shot was due. *)
Definition phase (s : GameState) : Z := Z.rem (tick s) 50.

Definition bound (dy : Q) (k : Z) : Q :=
  90 + dy + 6 * inject_Z k - (if (k <? 25)%Z then 0 else 25).

Definition barrage (s : GameState) : Prop :=
  (0 <= tick s)%Z /\ Ship.y (ship s) == 550 /\
  exists dy, rows dy (invaders s) /\ low (bound dy (phase s)) (bullets s) /\
             spaced (bullets s).

Definition vital (s : GameState) : Prop :=
  (0 <= lives s)%Z /\ (gameOver s = false -> (1 <= lives s)%Z) /\
  (won s = true -> filter Invader.active (invaders s) = []).

Definition sound (s : GameState) : Prop := barrage s /\ vital s.

(** ** Scripts of play *)

(** What the player does between two ticks, and the ticks. *)
Inductive Act : Type :=
| L (n : nat)      (* hold the left arrow for n frames *)
| R (n : nat)      (* hold the right arrow for n frames *)
| Fire             (* press and release the space bar *)
| Wait (n : nat)   (* n due ticks, no key held *)
| Tick (r : Q).    (* one due tick on which Math.random() returns r *)

Definition expand (a : Act) : list Event :=
  match a with
  | L n => KeyDown "ArrowLeft" :: repeat (Frame false 0) n ++ [KeyUp "ArrowLeft"]
  | R n => KeyDown "ArrowRight" :: repeat (Frame false 0) n ++ [KeyUp "ArrowRight"]
  | Fire => [KeyDown " "; KeyUp " "]
  | Wait n => repeat (Frame true 0) n
  | Tick r => [Frame true r]
  end.

Definition script (acts : list Act) : list Event := flat_map expand acts.

Definition validEventb (e : Event) : bool :=
  match e with
  | Frame _ r => Qleb 0 r && Qltb r 1
  | _ => true
  end.

(** The draw of a frame is a binary64 number. *)
Definition drawIsBinary64 (e : Event) : bool :=
  match e with
  | Frame _ r => isBinary64 r
  | _ => true
  end.

(** The player shoots 54 invaders, takes two hits, and then shoots the
    last invader so that the bullet arrives on the tick on which that
    invader's last bullet reaches the ship.  No more than six frames pass
    between two ticks, and every draw is a binary64 number. *)
Definition lastStand : list Act :=
  [Fire; Wait 1; Fire; Wait 1; Fire; Wait 1; L 1; Wait 20; L 1; Fire; Wait 1;
   R 1; Wait 1; R 2; Wait 2; Fire; Wait 5; Fire; Wait 18; R 2; Wait 1; L 3;
   Fire; Wait 1; R 3; Wait 9; L 1; Fire; Wait 1; R 1; Wait 8; L 1; Fire;
   Wait 1; L 6; Wait 4; R 2; Wait 1; Fire; Wait 23; Tick (3 # 16); R 2;
   Wait 1; L 3; Fire; Wait 1; Fire; Wait 1; R 3; Wait 7; L 3; Fire; Wait 1;
   L 4; Wait 14; R 2; Wait 1; Fire; Wait 2; Fire; Wait 12; L 1; Fire; Wait 1;
   R 1; Wait 8; Tick (49 # 256); R 2; Wait 10; L 3; Fire; Wait 1; R 3; Wait 5;
   L 3; Fire; Wait 1; L 4; Wait 8; R 2; Wait 1; Fire; Wait 7; Fire; Wait 9;
   L 5; Fire; Wait 1; L 2; Wait 6; Tick (97 # 512); Wait 4; Fire; Wait 9; Fire;
   Wait 6; L 2; Fire; Wait 1; R 2; Wait 5; L 2; Wait 3; Fire; Wait 21;
   Tick (3 # 16); L 2; Wait 1; L 5; Fire; Wait 1; L 1; Fire; Wait 1; L 1;
   Wait 11; Fire; Wait 8; L 1; Fire; Wait 1; R 1; Wait 2; L 2; Wait 1; Fire;
   Wait 23; Tick (95 # 512); L 2; Wait 12; R 6; Wait 1; R 6; Wait 1; R 6;
   Wait 1; R 6; Wait 1; R 6; Wait 1; R 5; Fire; Wait 1; Fire; Wait 1; R 2;
   Fire; Wait 1; R 5; Wait 5; L 2; Wait 15; Fire; Wait 9; Tick (171 # 1024); L 2;
   Wait 1; Fire; Wait 3; R 2; Fire; Wait 1; L 2; Wait 9; R 1; Fire; Wait 1;
   L 1; Wait 10; L 2; Wait 1; R 3; Fire; Wait 1; L 3; Wait 2; R 3; Fire;
   Wait 1; R 4; Wait 19; Tick (81 # 512); L 2; Wait 1; Fire; Wait 1; R 3; Fire;
   Wait 1; L 3; Wait 4; R 3; Fire; Wait 1; L 3; Wait 17; L 2; Wait 1; R 3;
   Fire; Wait 1; L 3; Wait 1; R 3; Fire; Wait 1; L 3; Wait 4; R 3; Fire;
   Wait 1; R 4; Wait 15; Tick (79 # 512); L 2; Wait 4; R 3; Fire; Wait 1; L 3;
   Wait 5; R 3; Fire; Wait 1; L 3; Wait 8; R 1; Fire; Wait 1; R 6; Wait 5;
   L 2; Wait 1; Fire; Wait 8; Fire; Wait 15; Tick (1 # 8); L 2; Wait 1; R 3;
   Fire; Wait 1; L 3; Wait 2; R 3; Fire; Wait 1; L 3; Wait 15; R 1; Fire;
   Wait 1; R 6; Wait 4; L 2; Wait 1; Fire; Wait 24; L 2; Wait 20; R 1;
   Wait 65; L 6; Fire; Wait 36].

Definition beforeLastTick : Game :=
  run (Start :: removelast (script lastStand)) newGame.

Definition lostAndWon : Game := step beforeLastTick (Frame true 0).

(** * More of the game: what a run keeps *)

(** What one event may do to an invader: the type stays, an inactive
    invader stays inactive, the animation frame stays or flips. *)
Definition evolves (i i' : Invader.t) : Prop :=
  Invader.type i' = Invader.type i /\
  (Invader.active i' = true -> Invader.active i = true) /\
  (Invader.animFrame i' = Invader.animFrame i \/
   Invader.animFrame i' = Z.rem (Invader.animFrame i + 1) 2).

(** The points still on the board. *)
Definition activePoints (invs : list Invader.t) : Z :=
  sumZ (map (fun i => points (Invader.type i)) (filter Invader.active invs)).

Definition invaderInField (i : Invader.t) : Prop :=
  Invader.active i = true ->
  0 < Invader.x i /\ Invader.x i < CANVAS_WIDTH - INVADER_WIDTH /\
  60 <= Invader.y i /\ Invader.y i < 545.

Definition aboveShip (i : Invader.t) : Prop :=
  Invader.active i = true -> Invader.y i < 520.

Definition bulletInField (b : Bullet.t) : Prop :=
  Bullet.active b = true /\
  0 <= Bullet.y b /\ Bullet.y b <= CANVAS_HEIGHT /\
  0 <= Bullet.x b /\ Bullet.x b + BULLET_WIDTH <= CANVAS_WIDTH /\
  (Bullet.isPlayer b = false -> 90 <= Bullet.y b).

Definition inBounds (s : GameState) : Prop :=
  Ship.y (ship s) == 550 /\ inField s /\
  Forall invaderInField (invaders s) /\
  (gameOver s = false -> Forall aboveShip (invaders s)) /\
  Forall bulletInField (bullets s).

Definition invaderInFieldb (i : Invader.t) : bool :=
  negb (Invader.active i) ||
  (Qltb 0 (Invader.x i) && Qltb (Invader.x i) (CANVAS_WIDTH - INVADER_WIDTH) &&
   Qleb 60 (Invader.y i) && Qltb (Invader.y i) 520).

Definition gridKept (s : GameState) : Prop :=
  length (invaders s) = 55%nat /\
  map Invader.type (invaders s) = map Invader.type (invaders createInitialState) /\
  Forall (fun i => Invader.animFrame i = 0%Z \/ Invader.animFrame i = 1%Z)
         (invaders s).

Definition ledgerBalanced (s : GameState) : Prop :=
  (score s + activePoints (invaders s) = 990)%Z.

Definition cleared (s : GameState) : Prop :=
  filter Invader.active (invaders s) = [].

Definition endingsAgree (s : GameState) : Prop :=
  (cleared s -> won s = true) /\ (won s = true -> gameOver s = true).

Definition sweepOrNot (t : Z) (d : bool) (dir : Q) (i : Invader.t) : Invader.t :=
  if (Z.rem t 25 =? 0)%Z then moveInvader d dir i else i.

(** The two boxes share a point of their interiors. *)
Definition boxesOverlap (x1 y1 w1 h1 x2 y2 w2 h2 : Q) : Prop :=
  exists px py : Q,
    x1 < px /\ px < x1 + w1 /\ x2 < px /\ px < x2 + w2 /\
    y1 < py /\ py < y1 + h1 /\ y2 < py /\ py < y2 + h2.

(** The key [k] is held. *)
Definition held (g : Game) (k : string) : bool := has (keys g) k.

(** ** The callbacks

    [onScoreChange], [onLivesChange] and [onGameOver] are optional hooks;
    the functions below list, in order, the calls the code makes to them. *)

Inductive Call : Type :=
| OnScoreChange (score : Z)
| OnLivesChange (lives : Z)
| OnGameOver (score : Z) (won : bool).

(** The calls of the inner [forEach] of the first loop of
    [checkCollisions]. *)
Fixpoint hitInvadersCalls (b : Bullet.t) (invs : list Invader.t) (sc : Z)
  : list Call :=
  match invs with
  | [] => []
  | i :: rest =>
      if negb (Invader.active i) then hitInvadersCalls b rest sc
      else if hitsInvader b i then
        OnScoreChange (sc + points (Invader.type i))%Z ::
        hitInvadersCalls (deactivate b) rest (sc + points (Invader.type i))%Z
      else hitInvadersCalls b rest sc
  end.

Fixpoint playerCalls (bs : list Bullet.t) (invs : list Invader.t) (sc : Z)
  : list Call :=
  match bs with
  | [] => []
  | b :: rest =>
      if negb (Bullet.active b) || negb (Bullet.isPlayer b) then
        playerCalls rest invs sc
      else
        let '(_, invs1, sc1) := hitInvaders b invs sc in
        hitInvadersCalls b invs sc ++ playerCalls rest invs1 sc1
  end.

(** The calls of the second loop; [sc] is the score at that point. *)
Fixpoint enemyCalls (sh : Ship.t) (bs : list Bullet.t) (lv sc : Z)
  : list Call :=
  match bs with
  | [] => []
  | b :: rest =>
      if negb (Bullet.active b) || Bullet.isPlayer b then
        enemyCalls sh rest lv sc
      else if hitsShip b sh then
        OnLivesChange (lv - 1)%Z ::
        (if (lv - 1 <=? 0)%Z then [OnGameOver sc false] else []) ++
        enemyCalls sh rest (lv - 1)%Z sc
      else enemyCalls sh rest lv sc
  end.

Definition checkCollisionsCalls (s : GameState) : list Call :=
  let '(bs1, _, sc1) :=
    playerBulletsVsInvaders (bullets s) (invaders s) (score s) in
  playerCalls (bullets s) (invaders s) (score s) ++
  enemyCalls (ship s) bs1 (lives s) sc1.

(** [moveInvaders] calls [onGameOver] once for every active invader that
    is, after the move, at the ship's line or below it. *)
Definition moveInvadersCalls (s : GameState) : list Call :=
  flat_map (fun i => if reachedShip (ship s) i
                     then [OnGameOver (score s) false] else [])
           (invaders (moveInvaders s)).

Definition updateCalls (r : Q) (s : GameState) : list Call :=
  if gameOver s then [] else
  let mid := checkCollisions (tickAndMoveBullets s) in
  let beforeWinCheck := fireStep r (animStep (sweepStep mid)) in
  checkCollisionsCalls (tickAndMoveBullets s) ++
  (if (Z.rem (tick mid) 25 =? 0)%Z then moveInvadersCalls mid else []) ++
  (if Nat.eqb (length (filter Invader.active (invaders beforeWinCheck))) 0
   then [OnGameOver (score beforeWinCheck) true] else []).

(** [notifyStateChange], called by [start] on the fresh state. *)
Definition notifyStateChange (s : GameState) : list Call :=
  [OnScoreChange (score s); OnLivesChange (lives s)].

(** The calls made while an event is handled. *)
Definition calls (g : Game) (e : Event) : list Call :=
  match e with
  | KeyDown _ | KeyUp _ => []
  | Frame due r =>
      if due then updateCalls r (state (processInput g)) else []
  | Start => notifyStateChange createInitialState
  end.

Definition scoreCalls (cs : list Call) : list Z :=
  flat_map (fun c => match c with OnScoreChange v => [v] | _ => [] end) cs.

Definition livesCalls (cs : list Call) : list Z :=
  flat_map (fun c => match c with OnLivesChange v => [v] | _ => [] end) cs.

Definition overCalls (cs : list Call) : list (Z * bool) :=
  flat_map (fun c => match c with OnGameOver v w => [(v, w)] | _ => [] end) cs.

(** The rows of the leaderboard are ranked when no row has a larger total
    than a row above it. *)
Fixpoint ranked (rows : list (string * Z)) : Prop :=
  match rows with
  | [] => True
  | row :: rest =>
      (forall row', In row' rest -> (snd row' <= snd row)%Z) /\ ranked rest
  end.

(** Twelve players, one of them with two entries under names that differ
    in case. *)
Definition twelvePilots : list LeaderboardEntry.t :=
  map (fun p => LeaderboardEntry.mk (fst p) "G" (snd p) 0%Z)
    [("ann", 40%Z); ("ben", 10%Z); ("cat", 120%Z); ("dan", 30%Z);
     ("eve", 990%Z); ("fay", 20%Z); ("gus", 60%Z); ("hal", 50%Z);
     ("Ben", 300%Z); ("ida", 70%Z); ("jon", 80%Z); ("kim", 90%Z);
     ("lee", 100%Z)].

(** ** Rendering of the invaders *)

(** One call of [ctx.fillRect]. *)
Record Rect : Type := fillRect { rectX : Q; rectY : Q; rectW : Q; rectH : Q }.

(** The elements of an array with their indices, as [forEach] passes
    them. *)
Fixpoint indexed {A : Type} (k : nat) (l : list A) : list (nat * A) :=
  match l with
  | [] => []
  | a :: r => (k, a) :: indexed (S k) r
  end.

Definition getInvaderPattern (type : InvaderType) (frame : Z)
  : list (list Z) :=
  match type with
  | squid =>
      if (frame =? 0)%Z then
        [[0; 0; 0; 1; 1; 0; 0; 0];
         [0; 0; 1; 1; 1; 1; 0; 0];
         [0; 1; 1; 1; 1; 1; 1; 0];
         [1; 1; 0; 1; 1; 0; 1; 1];
         [1; 1; 1; 1; 1; 1; 1; 1];
         [0; 0; 1; 0; 0; 1; 0; 0];
         [0; 1; 0; 0; 0; 0; 1; 0]]%Z
      else
        [[0; 0; 0; 1; 1; 0; 0; 0];
         [0; 0; 1; 1; 1; 1; 0; 0];
         [0; 1; 1; 1; 1; 1; 1; 0];
         [1; 1; 0; 1; 1; 0; 1; 1];
         [1; 1; 1; 1; 1; 1; 1; 1];
         [0; 1; 0; 0; 0; 0; 1; 0];
         [1; 0; 0; 0; 0; 0; 0; 1]]%Z
  | _ =>
      if (frame =? 0)%Z then
        [[0; 1; 0; 0; 0; 0; 1; 0];
         [0; 0; 1; 1; 1; 1; 0; 0];
         [0; 1; 1; 1; 1; 1; 1; 0];
         [1; 1; 0; 1; 1; 0; 1; 1];
         [1; 1; 1; 1; 1; 1; 1; 1];
         [0; 0; 1; 0; 0; 1; 0; 0];
         [0; 1; 0; 1; 1; 0; 1; 0]]%Z
      else
        [[0; 1; 0; 0; 0; 0; 1; 0];
         [1; 0; 1; 1; 1; 1; 0; 1];
         [1; 1; 1; 1; 1; 1; 1; 1];
         [1; 1; 0; 1; 1; 0; 1; 1];
         [1; 1; 1; 1; 1; 1; 1; 1];
         [0; 0; 1; 0; 0; 1; 0; 0];
         [0; 1; 0; 0; 0; 0; 1; 0]]%Z
  end.

(** The [fillRect] calls of [drawInvader], in order. *)
Definition drawInvader (invader : Invader.t) : list Rect :=
  let size := 4 in
  let pattern :=
    getInvaderPattern (Invader.type invader) (Invader.animFrame invader) in
  flat_map
    (fun rowAt =>
       flat_map
         (fun cellAt =>
            if (snd cellAt =? 0)%Z then []
            else [fillRect (Invader.x invader + ofNat (fst cellAt) * size)
                           (Invader.y invader + ofNat (fst rowAt) * size)
                           size size])
         (indexed 0 (snd rowAt)))
    (indexed 0 pattern).

(** The [fillRect] calls of [render] for the invaders: the active ones are
    drawn. *)
Definition renderInvaders (s : GameState) : list Rect :=
  flat_map drawInvader (filter Invader.active (invaders s)).

(** ** The march of the invaders *)

(** Every active invader stands at its starting cell shifted by [m] steps
    of 15 sideways and [k] steps of 25 down. *)
Definition shiftedBy (m : Z) (k : nat) (i0 i : Invader.t) : Prop :=
  Invader.active i = true ->
  Invader.x i == Invader.x i0 + 15 * inject_Z m /\
  Invader.y i == Invader.y i0 + 25 * ofNat k.

Definition marching (s : GameState) : Prop :=
  exists (m : Z) (k : nat),
    Forall2 (shiftedBy m k) (invaders createInitialState) (invaders s).

(** The sweeps the march can have made when it is [k] rows down and [m]
    steps to the right, moving in direction [md]: at most 89 in each row
    above, and the steps made in the current row. *)
Definition sweepBudget (m : Z) (k : nat) (md : Z) : Z :=
  (89 * Z.of_nat k + (if (md =? 1)%Z then m + 44 else 45 - m))%Z.

(** The tick counter never runs ahead of the march. *)
Definition onSchedule (s : GameState) : Prop :=
  exists (m : Z) (k : nat) (md : Z),
    (md = 1 \/ md = -1)%Z /\ invaderDirection s == inject_Z md /\
    Forall2 (shiftedBy m k) (invaders createInitialState) (invaders s) /\
    (tick s <= 25 * sweepBudget m k md + 24)%Z.

Definition startingCellb (i : Invader.t) : bool :=
  Qleb 97 (Invader.x i) && Qleb (Invader.x i) 648 && Qleb 60 (Invader.y i).

(** * Properties *)

(** ** Comparisons *)

Lemma Qleb_le (a b : Q) : Qleb a b = true <-> a <= b.
Proof. unfold Qleb. apply Qle_bool_iff. Qed.

Lemma Qltb_lt (a b : Q) : Qltb a b = true <-> a < b.
Proof.
  unfold Qltb. rewrite negb_true_iff. split; intro H.
  - apply Qnot_le_lt. intro H1. apply Qle_bool_iff in H1. congruence.
  - destruct (Qle_bool b a) eqn:E; [|reflexivity].
    apply Qle_bool_iff in E. exfalso. apply (Qlt_not_le _ _ H E).
Qed.

Lemma Qleb_nle (a b : Q) : Qleb a b = false <-> b < a.
Proof.
  rewrite <- Qltb_lt. unfold Qltb, Qleb.
  destruct (Qle_bool a b); simpl; intuition congruence.
Qed.

Lemma Qltb_nlt (a b : Q) : Qltb a b = false <-> b <= a.
Proof.
  rewrite <- Qleb_le. unfold Qltb, Qleb.
  destruct (Qle_bool b a); simpl; intuition congruence.
Qed.

Lemma Qgeb_ge (a b : Q) : Qgeb a b = true <-> b <= a.
Proof. apply Qleb_le. Qed.

Lemma Qgtb_gt (a b : Q) : Qgtb a b = true <-> b < a.
Proof. apply Qltb_lt. Qed.

Lemma Qmax_cases (a b : Q) :
  (a <= b /\ Qmax a b = b) \/ (b <= a /\ Qmax a b = a).
Proof.
  unfold Qmax, GenericMinMax.gmax. destruct (a ?= b) eqn:E.
  - right. split; [|reflexivity]. apply Qeq_alt in E. lra.
  - left. split; [|reflexivity]. apply Qlt_alt in E. lra.
  - right. split; [|reflexivity]. apply Qgt_alt in E. lra.
Qed.

Lemma Qmin_cases (a b : Q) :
  (a <= b /\ Qmin a b = a) \/ (b <= a /\ Qmin a b = b).
Proof.
  unfold Qmin, GenericMinMax.gmin. destruct (a ?= b) eqn:E.
  - left. split; [|reflexivity]. apply Qeq_alt in E. lra.
  - left. split; [|reflexivity]. apply Qlt_alt in E. lra.
  - right. split; [|reflexivity]. apply Qgt_alt in E. lra.
Qed.

(** ** What the loops of [checkCollisions] may change

    A bullet keeps its position and owner and can only go from active to
    inactive; an invader keeps position, type and frame and can only go from
    active to inactive. *)

Lemma bulletFade_refl b : bulletFade b b.
Proof. unfold bulletFade; auto. Qed.

Lemma bulletFade_trans a b c : bulletFade a b -> bulletFade b c -> bulletFade a c.
Proof. unfold bulletFade; intuition congruence. Qed.

Lemma bulletFade_deactivate b : bulletFade b (deactivate b).
Proof. unfold bulletFade, deactivate; simpl; intuition discriminate. Qed.

Lemma invaderFade_refl i : invaderFade i i.
Proof. unfold invaderFade; auto 6. Qed.

Lemma invaderFade_trans a b c :
  invaderFade a b -> invaderFade b c -> invaderFade a c.
Proof. unfold invaderFade; intuition congruence. Qed.

Lemma invaderFade_kill i : invaderFade i (kill i).
Proof. unfold invaderFade, kill; simpl; intuition discriminate. Qed.

Create HintDb fade.
#[local] Hint Resolve bulletFade_refl bulletFade_deactivate invaderFade_refl
  invaderFade_kill : fade.

Lemma Forall2_refl {A} (R : A -> A -> Prop) (l : list A) :
  (forall a, R a a) -> Forall2 R l l.
Proof. intro H. induction l; constructor; auto. Qed.

Lemma Forall2_trans {A} (R : A -> A -> Prop) (l1 l2 l3 : list A) :
  (forall a b c, R a b -> R b c -> R a c) ->
  Forall2 R l1 l2 -> Forall2 R l2 l3 -> Forall2 R l1 l3.
Proof.
  intros HR H12. revert l3. induction H12; intros l3 H23; inversion H23; subst.
  - constructor.
  - constructor; eauto.
Qed.

Lemma killedPoints_refl l : killedPoints l l = [].
Proof.
  induction l as [|i l IH]; simpl; [reflexivity|].
  destruct (Invader.active i); simpl; assumption.
Qed.

Lemma killedPoints_trans l1 l2 l3 :
  Forall2 invaderFade l1 l2 -> Forall2 invaderFade l2 l3 ->
  sumZ (killedPoints l1 l3) =
  (sumZ (killedPoints l1 l2) + sumZ (killedPoints l2 l3))%Z.
Proof.
  intros H12. revert l3. induction H12 as [|a b l1 l2 Hab H12 IH];
    intros l3 H23; inversion H23 as [|b' c l2' l3' Hbc H23']; subst; simpl.
  - reflexivity.
  - specialize (IH _ H23').
    destruct Hab as (_ & _ & Hty & _ & Hact).
    destruct Hbc as (_ & _ & _ & _ & Hact').
    destruct (Invader.active a), (Invader.active b), (Invader.active c);
      simpl; try rewrite Hty; try lia;
      try (specialize (Hact eq_refl); discriminate);
      try (specialize (Hact' eq_refl); discriminate).
Qed.

Lemma hitInvaders_spec b invs sc :
  let '(b', invs', sc') := hitInvaders b invs sc in
  bulletFade b b' /\ Forall2 invaderFade invs invs' /\
  sc' = (sc + sumZ (killedPoints invs invs'))%Z.
Proof.
  revert b sc. induction invs as [|i rest IH]; intros b sc; simpl.
  - split; [|split]; auto with fade. lia.
  - destruct (Invader.active i) eqn:Ea; simpl.
    + destruct (hitsInvader b i).
      * specialize (IH (deactivate b) (sc + points (Invader.type i))%Z).
        destruct (hitInvaders (deactivate b) rest _) as [[b' rest'] sc'].
        destruct IH as (Hb & Hi & Hs). split; [|split].
        -- eapply bulletFade_trans; [apply bulletFade_deactivate|exact Hb].
        -- constructor; auto with fade.
        -- simpl. try rewrite Ea. simpl. lia.
      * specialize (IH b sc).
        destruct (hitInvaders b rest sc) as [[b' rest'] sc'].
        destruct IH as (Hb & Hi & Hs).
        split; [exact Hb|split; [constructor; auto with fade|]].
        simpl. try rewrite Ea. simpl. exact Hs.
    + specialize (IH b sc).
      destruct (hitInvaders b rest sc) as [[b' rest'] sc'].
      destruct IH as (Hb & Hi & Hs).
      split; [exact Hb|split; [constructor; auto with fade|]].
      simpl. try rewrite Ea. simpl. exact Hs.
Qed.

Lemma playerBulletsVsInvaders_spec bs invs sc :
  let '(bs', invs', sc') := playerBulletsVsInvaders bs invs sc in
  Forall2 bulletFade bs bs' /\ Forall2 invaderFade invs invs' /\
  sc' = (sc + sumZ (killedPoints invs invs'))%Z.
Proof.
  revert invs sc. induction bs as [|b rest IH]; intros invs sc; simpl.
  - split; [|split]; [constructor|apply Forall2_refl; auto with fade|].
    rewrite killedPoints_refl. simpl. lia.
  - destruct (negb (Bullet.active b) || negb (Bullet.isPlayer b)).
    + specialize (IH invs sc).
      destruct (playerBulletsVsInvaders rest invs sc) as [[rest' invs'] sc'].
      destruct IH as (Hb & Hi & Hs).
      split; [constructor; auto with fade|split; assumption].
    + pose proof (hitInvaders_spec b invs sc) as H1.
      destruct (hitInvaders b invs sc) as [[b1 invs1] sc1].
      destruct H1 as (Hb1 & Hi1 & Hs1).
      specialize (IH invs1 sc1).
      destruct (playerBulletsVsInvaders rest invs1 sc1) as [[rest' invs'] sc'].
      destruct IH as (Hb & Hi & Hs). split; [|split].
      * constructor; auto.
      * eapply Forall2_trans; eauto using invaderFade_trans.
      * rewrite (killedPoints_trans _ _ _ Hi1 Hi). lia.
Qed.

Lemma enemyBulletsVsShip_fade sh bs lv over :
  let '(bs', _, _) := enemyBulletsVsShip sh bs lv over in
  Forall2 bulletFade bs bs'.
Proof.
  revert lv over. induction bs as [|b rest IH]; intros lv over; simpl.
  - constructor.
  - destruct (negb (Bullet.active b) || Bullet.isPlayer b).
    + specialize (IH lv over).
      destruct (enemyBulletsVsShip sh rest lv over) as [[rest' lv'] over'].
      constructor; auto with fade.
    + destruct (hitsShip b sh).
      * match goal with |- context [enemyBulletsVsShip sh rest ?l ?o] =>
          specialize (IH l o); destruct (enemyBulletsVsShip sh rest l o)
            as [[rest' lv'] over'] end.
        constructor; auto with fade.
      * specialize (IH lv over).
        destruct (enemyBulletsVsShip sh rest lv over) as [[rest' lv'] over'].
        constructor; auto with fade.
Qed.

(** ** Which fields each stage of [update] writes *)

Lemma checkCollisions_eq s :
  let P := playerBulletsVsInvaders (bullets s) (invaders s) (score s) in
  let E := enemyBulletsVsShip (ship s) (fst (fst P)) (lives s) (gameOver s) in
  checkCollisions s =
  mkState (ship s) (snd (fst P)) (fst (fst E)) (snd P) (snd (fst E)) (snd E)
          (won s) (invaderDirection s) (tick s).
Proof.
  unfold checkCollisions.
  destruct (playerBulletsVsInvaders _ _ _) as [[bs1 invs1] sc1]. simpl.
  destruct (enemyBulletsVsShip _ _ _ _) as [[bs2 lv2] over2]. reflexivity.
Qed.

Lemma ship_checkCollisions s : ship (checkCollisions s) = ship s.
Proof. rewrite checkCollisions_eq. reflexivity. Qed.

Lemma ship_sweepStep s : ship (sweepStep s) = ship s.
Proof. unfold sweepStep. destruct (_ =? _)%Z; reflexivity. Qed.

Lemma ship_animStep s : ship (animStep s) = ship s.
Proof. unfold animStep. destruct (_ =? _)%Z; reflexivity. Qed.

Lemma ship_enemyShoot r s : ship (enemyShoot r s) = ship s.
Proof.
  unfold enemyShoot. destruct (Nat.eqb _ _); [reflexivity|].
  destruct (nth_error _ _); reflexivity.
Qed.

Lemma ship_fireStep r s : ship (fireStep r s) = ship s.
Proof. unfold fireStep. destruct (_ =? _)%Z; [apply ship_enemyShoot|reflexivity]. Qed.

Lemma ship_winCheck s : ship (winCheck s) = ship s.
Proof. unfold winCheck. destruct (Nat.eqb _ _); reflexivity. Qed.

Lemma cleanUp_fields s :
  ship (cleanUp s) = ship s /\ invaders (cleanUp s) = invaders s /\
  score (cleanUp s) = score s /\ lives (cleanUp s) = lives s /\
  gameOver (cleanUp s) = gameOver s /\ won (cleanUp s) = won s /\
  invaderDirection (cleanUp s) = invaderDirection s /\
  tick (cleanUp s) = tick s /\
  bullets (cleanUp s) = filter Bullet.active (bullets s).
Proof. unfold cleanUp, setBullets. cbn. tauto. Qed.

Lemma ship_cleanUp s : ship (cleanUp s) = ship s.
Proof. reflexivity. Qed.

Lemma invaders_cleanUp s : invaders (cleanUp s) = invaders s.
Proof. reflexivity. Qed.

Lemma score_cleanUp s : score (cleanUp s) = score s.
Proof. reflexivity. Qed.

Lemma lives_cleanUp s : lives (cleanUp s) = lives s.
Proof. reflexivity. Qed.

Lemma over_cleanUp s : gameOver (cleanUp s) = gameOver s.
Proof. reflexivity. Qed.

Lemma won_cleanUp s : won (cleanUp s) = won s.
Proof. reflexivity. Qed.

Lemma dir_cleanUp s : invaderDirection (cleanUp s) = invaderDirection s.
Proof. reflexivity. Qed.

Lemma tick_cleanUp s : tick (cleanUp s) = tick s.
Proof. reflexivity. Qed.

Lemma bullets_cleanUp s :
  bullets (cleanUp s) = filter Bullet.active (bullets s).
Proof. reflexivity. Qed.

Lemma ship_update r s : ship (update r s) = ship s.
Proof.
  unfold update. destruct (gameOver s); [reflexivity|].
  rewrite ship_cleanUp, ship_winCheck, ship_fireStep, ship_animStep, ship_sweepStep,
    ship_checkCollisions. reflexivity.
Qed.

Lemma ship_shoot s : ship (shoot s) = ship s.
Proof. unfold shoot. destruct (Nat.leb _ _); reflexivity. Qed.

(** ** The ship stays in the field *)

Lemma inField_ship s s' : ship s' = ship s -> inField s -> inField s'.
Proof. unfold inField. intros ->. auto. Qed.

Lemma inField_processInputState ks s :
  inField s -> inField (processInputState ks s).
Proof.
  unfold inField, processInputState, CANVAS_WIDTH, SHIP_WIDTH.
  intros [H0 H1]. destruct (gameOver s); [auto|].
  destruct (has ks "ArrowLeft" || has ks "a" || has ks "A");
  destruct (has ks "ArrowRight" || has ks "d" || has ks "D"); simpl; auto.
  - destruct (Qmax_cases 0 (Ship.x (ship s) - 8)) as [[Ha ->]|[Ha ->]];
    match goal with |- context [Qmin ?a ?b] =>
      destruct (Qmin_cases a b) as [[Hb ->]|[Hb ->]] end; split; lra.
  - destruct (Qmax_cases 0 (Ship.x (ship s) - 8)) as [[Ha ->]|[Ha ->]];
      split; lra.
  - match goal with |- context [Qmin ?a ?b] =>
      destruct (Qmin_cases a b) as [[Hb ->]|[Hb ->]] end; split; lra.
Qed.

Lemma inField_initial : inField createInitialState.
Proof. unfold inField. split; vm_compute; discriminate. Qed.

Lemma inField_step g e : inField (state g) -> inField (state (step g e)).
Proof.
  intro H. destruct e as [k|k|due r|]; simpl.
  - unfold keydown. destruct (String.eqb k " "); simpl; [|exact H].
    destruct (gameOver (state g)); [exact H|].
    eapply inField_ship; [apply ship_shoot|exact H].
  - exact H.
  - unfold gameLoop. destruct due; simpl.
    + eapply inField_ship; [apply ship_update|].
      apply inField_processInputState, H.
    + apply inField_processInputState, H.
  - unfold start, gameLoop. simpl.
    apply inField_processInputState, inField_initial.
Qed.

Lemma inField_run es g : inField (state g) -> inField (state (run es g)).
Proof.
  revert g. induction es as [|e es IH]; intros g H; simpl; [exact H|].
  apply IH, inField_step, H.
Qed.

(** C2.  Along every run of events from the constructor, whatever keys are
    pressed (both directions at once, or keys the game does not know), the
    ship's x stays within [0, CANVAS_WIDTH - SHIP_WIDTH]; a move that would
    pass a wall puts the ship exactly on the wall. *)
Theorem ship_x_clamped :
  (forall es : list Event,
     0 <= Ship.x (ship (state (run es newGame))) /\
     Ship.x (ship (state (run es newGame))) <= CANVAS_WIDTH - SHIP_WIDTH) /\
  (forall ks s,
     gameOver s = false ->
     pressedLeft ks = true -> pressedRight ks = false ->
     Ship.x (ship s) - 8 <= 0 ->
     Ship.x (ship (processInputState ks s)) == 0) /\
  (forall ks s,
     gameOver s = false ->
     pressedRight ks = true -> pressedLeft ks = false ->
     CANVAS_WIDTH - SHIP_WIDTH <= Ship.x (ship s) + 8 ->
     Ship.x (ship (processInputState ks s)) == CANVAS_WIDTH - SHIP_WIDTH).
Proof.
  split; [|split].
  - intro es. apply (inField_run es newGame). exact inField_initial.
  - intros ks s Hover Hl Hr Hx. unfold processInputState.
    rewrite Hover. fold (pressedLeft ks) (pressedRight ks). rewrite Hl, Hr.
    simpl. destruct (Qmax_cases 0 (Ship.x (ship s) - 8)) as [[Ha ->]|[Ha ->]];
      lra.
  - intros ks s Hover Hr Hl Hx. unfold processInputState.
    rewrite Hover. fold (pressedLeft ks) (pressedRight ks). rewrite Hl, Hr.
    simpl.
    match goal with |- context [Qmin ?a ?b] =>
      destruct (Qmin_cases a b) as [[Hb ->]|[Hb ->]] end;
      unfold CANVAS_WIDTH, SHIP_WIDTH in *; lra.
Qed.

(** The ship one step from the right wall, with the right arrow held. *)
Lemma ship_x_clamped_witness :
  Ship.x (ship (processInputState ["ArrowRight"]
                  (setShipX createInitialState 745)))
  == CANVAS_WIDTH - SHIP_WIDTH.
Proof.
  apply (proj2 (proj2 ship_x_clamped));
    vm_compute; try reflexivity; discriminate.
Defined.

(** ** Over is terminal *)

Lemma gameOver_step g e :
  gameOver (state g) = true -> e <> Start -> state (step g e) = state g.
Proof.
  intros Hover Hne. destruct e as [k|k|due r|]; simpl.
  - unfold keydown. destruct (String.eqb k " "); simpl; [|reflexivity].
    rewrite Hover. reflexivity.
  - reflexivity.
  - unfold gameLoop, processInput, processInputState. rewrite Hover.
    destruct due; simpl; [|reflexivity].
    unfold update. rewrite Hover. reflexivity.
  - congruence.
Qed.

(** C5.  Once [gameOver] is set, no call but [start] changes the game
    state: a key press shoots nothing, a frame moves nothing and a due tick
    updates nothing.  (The set of pressed keys is not game state.) *)
Theorem over_is_terminal (g : Game) (e : Event) :
  gameOver (state g) = true -> e <> Start ->
  state (step g e) = state g /\
  ship (state (step g e)) = ship (state g) /\
  bullets (state (step g e)) = bullets (state g).
Proof.
  intros Hover Hne. rewrite (gameOver_step g e Hover Hne). auto.
Qed.

(** ** The cap on player bullets *)

Lemma bulletFade_dim b b' : bulletFade b b' -> bulletDim b b'.
Proof. unfold bulletFade, bulletDim. tauto. Qed.

Lemma bulletDim_trans a b c : bulletDim a b -> bulletDim b c -> bulletDim a c.
Proof. unfold bulletDim; intuition congruence. Qed.

Lemma moveBullet_dim b : bulletDim b (moveBullet b).
Proof.
  unfold bulletDim, moveBullet.
  destruct (Bullet.active b) eqn:E; simpl; split; auto. congruence.
Qed.

Lemma Forall2_map_r {A B} (R : A -> B -> Prop) (f : A -> B) (l : list A) :
  (forall a, R a (f a)) -> Forall2 R l (map f l).
Proof. intro H. induction l; simpl; constructor; auto. Qed.

Lemma Forall2_impl {A B} (R R' : A -> B -> Prop) l l' :
  (forall a b, R a b -> R' a b) -> Forall2 R l l' -> Forall2 R' l l'.
Proof. intros H HF. induction HF; constructor; auto. Qed.

Lemma count_dim bs bs' :
  Forall2 bulletDim bs bs' ->
  (length (filter isActivePlayer bs') <= length (filter isActivePlayer bs))%nat.
Proof.
  induction 1 as [|b b' bs bs' [Hp Ha] _ IH]; simpl; [lia|].
  destruct (isActivePlayer b') eqn:E1; destruct (isActivePlayer b) eqn:E2;
    simpl; try lia.
  unfold isActivePlayer in E1, E2. apply andb_true_iff in E1 as [E1 E3].
  rewrite <- Hp, E1, (Ha E3) in E2. discriminate.
Qed.

Lemma filter_activePlayer_active bs :
  filter isActivePlayer (filter Bullet.active bs) = filter isActivePlayer bs.
Proof.
  induction bs as [|b bs IH]; simpl; [reflexivity|].
  destruct (Bullet.active b) eqn:E; simpl.
  - rewrite IH. reflexivity.
  - unfold isActivePlayer at 2. rewrite E, andb_false_r. exact IH.
Qed.

Lemma bullets_checkCollisions s :
  Forall2 bulletFade (bullets s) (bullets (checkCollisions s)).
Proof.
  rewrite checkCollisions_eq. simpl.
  pose proof (playerBulletsVsInvaders_spec (bullets s) (invaders s) (score s)) as HP.
  destruct (playerBulletsVsInvaders _ _ _) as [[bs1 invs1] sc1].
  destruct HP as (HP & _). simpl.
  pose proof (enemyBulletsVsShip_fade (ship s) bs1 (lives s) (gameOver s)) as HE.
  destruct (enemyBulletsVsShip _ _ _ _) as [[bs2 lv2] over2]. simpl.
  eapply Forall2_trans; eauto using bulletFade_trans.
Qed.

Lemma bullets_sweepStep s : bullets (sweepStep s) = bullets s.
Proof. unfold sweepStep. destruct (_ =? _)%Z; reflexivity. Qed.

Lemma bullets_animStep s : bullets (animStep s) = bullets s.
Proof. unfold animStep. destruct (_ =? _)%Z; reflexivity. Qed.

Lemma bullets_winCheck s : bullets (winCheck s) = bullets s.
Proof. unfold winCheck. destruct (Nat.eqb _ _); reflexivity. Qed.

(** What a tick's enemy fire adds to the bullet list: nothing, or one
    active enemy bullet at the end. *)
Lemma bullets_fireStep r s :
  bullets (fireStep r s) = bullets s \/
  exists b, Bullet.isPlayer b = false /\ Bullet.active b = true /\
            bullets (fireStep r s) = bullets s ++ [b].
Proof.
  unfold fireStep. destruct (_ =? _)%Z; [|left; reflexivity].
  unfold enemyShoot. destruct (Nat.eqb _ _); [left; reflexivity|].
  destruct (nth_error _ _) as [sh|]; [|left; reflexivity].
  right. eexists. simpl. split; [|split]; [| |reflexivity]; reflexivity.
Qed.

Lemma playerBulletCount_update r s :
  (playerBulletCount (update r s) <= playerBulletCount s)%nat.
Proof.
  unfold update. destruct (gameOver s); [lia|].
  unfold playerBulletCount.
  rewrite bullets_cleanUp, filter_activePlayer_active, bullets_winCheck.
  set (mid := checkCollisions (tickAndMoveBullets s)).
  assert (Hmid : (length (filter isActivePlayer (bullets mid))
                  <= length (filter isActivePlayer (bullets s)))%nat).
  { apply count_dim.
    eapply Forall2_trans; [apply bulletDim_trans| |].
    - apply (Forall2_map_r bulletDim moveBullet), moveBullet_dim.
    - eapply Forall2_impl; [apply bulletFade_dim|].
      apply (bullets_checkCollisions (tickAndMoveBullets s)). }
  destruct (bullets_fireStep r (animStep (sweepStep mid))) as [->|(b & Hp & _ & ->)];
    rewrite bullets_animStep, bullets_sweepStep.
  - exact Hmid.
  - rewrite filter_app, length_app. simpl. unfold isActivePlayer at 2.
    rewrite Hp. simpl. lia.
Qed.

Lemma playerBulletCount_shoot s :
  (playerBulletCount s <= 3 -> playerBulletCount (shoot s) <= 3)%nat.
Proof.
  unfold playerBulletCount, shoot. intro H.
  destruct (Nat.leb 3 _) eqn:E; [exact H|].
  apply Nat.leb_gt in E. simpl. rewrite filter_app, length_app. simpl. lia.
Qed.

Lemma bullets_processInputState ks s :
  bullets (processInputState ks s) = bullets s.
Proof.
  unfold processInputState. destruct (gameOver s); [reflexivity|].
  destruct (_ || _); destruct (_ || _); reflexivity.
Qed.

Lemma playerBulletCount_step g e :
  (playerBulletCount (state g) <= 3 ->
   playerBulletCount (state (step g e)) <= 3)%nat.
Proof.
  intro H.
  assert (Hp : forall ks s, playerBulletCount (processInputState ks s)
                            = playerBulletCount s).
  { intros. unfold playerBulletCount.
    rewrite bullets_processInputState. reflexivity. }
  destruct e as [k|k|due r|]; simpl.
  - unfold keydown. destruct (String.eqb k " "); simpl; [|exact H].
    destruct (gameOver (state g)); [exact H|].
    apply playerBulletCount_shoot, H.
  - exact H.
  - unfold gameLoop, processInput. destruct due; cbn [state keys].
    + pose proof (playerBulletCount_update r
                    (processInputState (keys g) (state g))).
      rewrite Hp in *. lia.
    + rewrite Hp. exact H.
  - unfold start, gameLoop, processInput. cbn [state keys].
    rewrite Hp. vm_compute. lia.
Qed.

Lemma playerBulletCount_run es g :
  (playerBulletCount (state g) <= 3 ->
   playerBulletCount (state (run es g)) <= 3)%nat.
Proof.
  revert g. induction es as [|e es IH]; intros g H; simpl; [exact H|].
  apply IH, playerBulletCount_step, H.
Qed.

(** C3.  Along every run from the constructor at most 3 player bullets are
    active at once; [shoot] at the cap changes nothing; five presses of the
    space bar in a row after [start] leave exactly 3 active player
    bullets. *)
Theorem player_bullets_capped :
  (forall es : list Event,
     (playerBulletCount (state (run es newGame)) <= 3)%nat) /\
  (forall s, (3 <= playerBulletCount s)%nat -> shoot s = s) /\
  playerBulletCount
    (state (run [Start; KeyDown " "; KeyDown " "; KeyDown " "; KeyDown " ";
                 KeyDown " "] newGame)) = 3%nat.
Proof.
  split; [|split].
  - intro es. apply playerBulletCount_run. vm_compute. lia.
  - intros s H. unfold shoot. fold (playerBulletCount s).
    apply Nat.leb_le in H. rewrite H. reflexivity.
  - vm_compute. reflexivity.
Qed.

(** Three bullets in flight, a fourth press. *)
Lemma player_bullets_capped_witness :
  let s := state (run [Start; KeyDown " "; KeyDown " "; KeyDown " "] newGame) in
  shoot s = s.
Proof.
  apply (proj1 (proj2 player_bullets_capped)). vm_compute. lia.
Defined.

(** ** start: the canonical initial state *)

Lemma processInputState_fields ks s :
  invaders (processInputState ks s) = invaders s /\
  score (processInputState ks s) = score s /\
  lives (processInputState ks s) = lives s /\
  gameOver (processInputState ks s) = gameOver s /\
  won (processInputState ks s) = won s /\
  invaderDirection (processInputState ks s) = invaderDirection s /\
  tick (processInputState ks s) = tick s /\
  Ship.y (ship (processInputState ks s)) = Ship.y (ship s).
Proof.
  unfold processInputState. destruct (gameOver s) eqn:E; [rewrite E; tauto|].
  destruct (_ || _); destruct (_ || _); simpl; rewrite ?E; tauto.
Qed.

Lemma atCellb_sound i rc : atCellb i rc = true -> atCell i rc.
Proof.
  unfold atCellb, atCell. rewrite !andb_true_iff.
  intros [[[Hx Hy] Ht] Ha]. repeat split; auto using Qeq_bool_eq.
  destruct (Invader.type i);
    destruct (match fst rc with O => squid | 1%nat | 2%nat => crab
                           | _ => octopus end);
    congruence.
Qed.

Lemma forall2b_sound {A B} (f : A -> B -> bool) (R : A -> B -> Prop) l l' :
  (forall a b, f a b = true -> R a b) ->
  forall2b f l l' = true -> Forall2 R l l'.
Proof.
  intro H. revert l'. induction l as [|a l IH]; intros [|b l']; simpl;
    try discriminate; [constructor|].
  rewrite andb_true_iff. intros [Hab Hr]. constructor; auto.
Qed.

(** C9.  [start] called twice in a row gives the same game state both
    times, whatever the game was before: 55 active invaders, one per cell
    of the 5 x 11 grid in row-major order, no bullet, score 0, 3 lives,
    tick 0, not over, not won. *)
Theorem start_is_canonical (g : Game) :
  let s1 := state (start g) in
  let s2 := state (start (start g)) in
  s2 = s1 /\
  length (invaders s1) = 55%nat /\
  Forall2 atCell (invaders s1) (list_prod (seq 0 5) (seq 0 11)) /\
  bullets s1 = [] /\ score s1 = 0%Z /\ lives s1 = 3%Z /\ tick s1 = 0%Z /\
  gameOver s1 = false /\ won s1 = false.
Proof.
  cbv zeta. split; [reflexivity|].
  unfold start, gameLoop, processInput. cbn [state keys].
  destruct (processInputState_fields (keys g) createInitialState)
    as (Hi & Hs & Hl & Ho & Hw & _ & Ht & _).
  rewrite Hi, Hs, Hl, Ho, Hw, Ht, bullets_processInputState.
  repeat split.
  apply (forall2b_sound atCellb); [apply atCellb_sound|].
  vm_compute. reflexivity.
Qed.

(** ** The score *)

Lemma killedPoints_flags before after after' :
  map Invader.active after = map Invader.active after' ->
  killedPoints before after = killedPoints before after'.
Proof.
  revert after after'. induction before as [|i r IH];
    intros [|a l] [|a' l'] H; simpl in *; try reflexivity; try discriminate.
  injection H as Ha Hl. rewrite Ha, (IH _ _ Hl). reflexivity.
Qed.

Lemma points_tier ty : points ty = 10%Z \/ points ty = 20%Z \/ points ty = 30%Z.
Proof. destruct ty; simpl; auto. Qed.

Lemma killedPoints_tiers before after :
  Forall (fun p => p = 10%Z \/ p = 20%Z \/ p = 30%Z) (killedPoints before after).
Proof.
  revert after. induction before as [|i r IH]; intros [|a l]; simpl;
    try constructor.
  destruct (_ && _); [constructor; [apply points_tier|apply IH]|apply IH].
Qed.

Lemma sumZ_nonneg l :
  Forall (fun p => p = 10%Z \/ p = 20%Z \/ p = 30%Z) l -> (0 <= sumZ l)%Z.
Proof. induction 1; simpl; lia. Qed.

Lemma invaders_checkCollisions s :
  Forall2 invaderFade (invaders s) (invaders (checkCollisions s)) /\
  score (checkCollisions s) =
  (score s + sumZ (killedPoints (invaders s) (invaders (checkCollisions s))))%Z.
Proof.
  rewrite checkCollisions_eq. simpl.
  pose proof (playerBulletsVsInvaders_spec (bullets s) (invaders s) (score s)) as HP.
  destruct (playerBulletsVsInvaders _ _ _) as [[bs1 invs1] sc1].
  destruct HP as (_ & HI & HS). simpl. auto.
Qed.

Lemma moveInvader_active d dir i :
  Invader.active (moveInvader d dir i) = Invader.active i.
Proof.
  unfold moveInvader. destruct (Invader.active i) eqn:E; simpl; [|exact E].
  destruct d; simpl; reflexivity.
Qed.

Lemma moveInvader_type d dir i :
  Invader.type (moveInvader d dir i) = Invader.type i.
Proof.
  unfold moveInvader. destruct (Invader.active i); simpl; [|reflexivity].
  destruct d; reflexivity.
Qed.

Lemma animate_active i : Invader.active (animate i) = Invader.active i.
Proof. unfold animate. destruct (Invader.active i) eqn:E; simpl; auto. Qed.

Lemma flags_sweepStep s :
  map Invader.active (invaders (sweepStep s)) = map Invader.active (invaders s).
Proof.
  unfold sweepStep. destruct (_ =? _)%Z; [|reflexivity]. simpl.
  rewrite map_map. apply map_ext, moveInvader_active.
Qed.

Lemma flags_animStep s :
  map Invader.active (invaders (animStep s)) = map Invader.active (invaders s).
Proof.
  unfold animStep. destruct (_ =? _)%Z; [|reflexivity]. simpl.
  rewrite map_map. apply map_ext, animate_active.
Qed.

Lemma invaders_fireStep r s : invaders (fireStep r s) = invaders s.
Proof.
  unfold fireStep, enemyShoot. destruct (_ =? _)%Z; [|reflexivity].
  destruct (Nat.eqb _ _); [reflexivity|].
  destruct (nth_error _ _); reflexivity.
Qed.

Lemma invaders_winCheck s : invaders (winCheck s) = invaders s.
Proof. unfold winCheck. destruct (Nat.eqb _ _); reflexivity. Qed.

Lemma score_sweepStep s : score (sweepStep s) = score s.
Proof. unfold sweepStep. destruct (_ =? _)%Z; reflexivity. Qed.

Lemma score_animStep s : score (animStep s) = score s.
Proof. unfold animStep. destruct (_ =? _)%Z; reflexivity. Qed.

Lemma score_fireStep r s : score (fireStep r s) = score s.
Proof.
  unfold fireStep, enemyShoot. destruct (_ =? _)%Z; [|reflexivity].
  destruct (Nat.eqb _ _); [reflexivity|].
  destruct (nth_error _ _); reflexivity.
Qed.

Lemma score_winCheck s : score (winCheck s) = score s.
Proof. unfold winCheck. destruct (Nat.eqb _ _); reflexivity. Qed.

Lemma score_update r s :
  score (update r s) =
  (score s + sumZ (killedPoints (invaders s) (invaders (update r s))))%Z.
Proof.
  unfold update. destruct (gameOver s).
  - rewrite killedPoints_refl. simpl. lia.
  - rewrite score_cleanUp, invaders_cleanUp.
    rewrite score_winCheck, score_fireStep, score_animStep, score_sweepStep.
    rewrite invaders_winCheck, invaders_fireStep.
    destruct (invaders_checkCollisions (tickAndMoveBullets s)) as [_ Hs].
    rewrite Hs. cbn [tickAndMoveBullets score invaders]. f_equal. f_equal.
    apply killedPoints_flags.
    rewrite flags_animStep, flags_sweepStep. reflexivity.
Qed.

Lemma score_shoot s : score (shoot s) = score s.
Proof. unfold shoot. destruct (Nat.leb _ _); reflexivity. Qed.

Lemma invaders_shoot s : invaders (shoot s) = invaders s.
Proof. unfold shoot. destruct (Nat.leb _ _); reflexivity. Qed.

(** C10.  No call but [start] lowers the score: after any other event the
    score is the score before plus one term of 10, 20 or 30 for each
    invader that was active before the event and is inactive after it. *)
Theorem score_never_decreases (g : Game) (e : Event) :
  e <> Start ->
  let before := state g in
  let after := state (step g e) in
  let gained := killedPoints (invaders before) (invaders after) in
  (score before <= score after)%Z /\
  score after = (score before + sumZ gained)%Z /\
  Forall (fun p => p = 10%Z \/ p = 20%Z \/ p = 30%Z) gained.
Proof.
  intros Hne. cbv zeta.
  assert (H : score (state (step g e)) =
              (score (state g) + sumZ (killedPoints (invaders (state g))
                                         (invaders (state (step g e)))))%Z).
  { destruct e as [k|k|due r|]; simpl.
    - unfold keydown. destruct (String.eqb k " "); simpl;
        [destruct (gameOver (state g))|];
        rewrite ?score_shoot, ?invaders_shoot, killedPoints_refl; simpl; lia.
    - rewrite killedPoints_refl. simpl. lia.
    - destruct (processInputState_fields (keys g) (state g))
        as (Hi & Hs & _).
      unfold gameLoop, processInput. destruct due; cbn [state keys].
      + rewrite score_update, Hi, Hs. reflexivity.
      + rewrite Hi, Hs, killedPoints_refl. simpl. lia.
    - congruence. }
  pose proof (killedPoints_tiers (invaders (state g))
                (invaders (state (step g e)))) as Ht.
  pose proof (sumZ_nonneg _ Ht). repeat split; auto. lia.
Qed.

Lemma score_never_decreases_witness :
  let before := state beforeFirstKill in
  let after := state (step beforeFirstKill (Frame true 0)) in
  let gained := killedPoints (invaders before) (invaders after) in
  (score before <= score after)%Z /\
  score after = (score before + sumZ gained)%Z /\
  Forall (fun p => p = 10%Z \/ p = 20%Z \/ p = 30%Z) gained.
Proof. apply (score_never_decreases beforeFirstKill (Frame true 0)). discriminate. Defined.

(** * The leaderboard (main.ts, contract.ts) *)

Section LoadLeaderboardFacts.

Variable toUpperCase : string -> string.

Abbreviation key e := (toUpperCase (LeaderboardEntry.username e)).

Lemma mapGet_None k m : mapGet k m = None -> ~ In k (map fst m).
Proof.
  induction m as [|[k' t] r IH]; simpl; [tauto|].
  destruct (String.eqb_spec k' k); [discriminate|].
  intros H [Hk|Hk]; [congruence|]. exact (IH H Hk).
Qed.

Lemma mapGet_Some k m t : mapGet k m = Some t -> In (k, t) m.
Proof.
  induction m as [|[k' t'] r IH]; simpl; [discriminate|].
  destruct (String.eqb_spec k' k).
  - intros [= ->]. left. congruence.
  - intro H. right. exact (IH H).
Qed.

Lemma addToExisting_keys k sc m :
  map fst (addToExisting k sc m) = map fst m.
Proof.
  induction m as [|[k' t] r IH]; simpl; [reflexivity|].
  destruct (String.eqb k' k); simpl; [reflexivity|]. rewrite IH. reflexivity.
Qed.

Lemma In_addToExisting k sc m k' t' :
  NoDup (map fst m) -> In (k', t') (addToExisting k sc m) ->
  (k' <> k /\ In (k', t') m) \/
  (k' = k /\ exists t, In (k, t) m /\
     Total.username t' = Total.username t /\
     Total.totalScore t' = (Total.totalScore t + sc)%Z).
Proof.
  induction m as [|[k0 t0] r IH]; simpl; [tauto|].
  intros Hnd. inversion Hnd as [|? ? Hnotin Hnd']; subst.
  destruct (String.eqb_spec k0 k) as [->|Hne]; simpl.
  - intros [[= <- <-]|Hin].
    + right. split; [reflexivity|]. exists t0. simpl. auto.
    + left. split; [|auto]. intros ->. apply Hnotin.
      apply (in_map fst) in Hin. exact Hin.
  - intros [[= <- <-]|Hin].
    + left. auto.
    + destruct (IH Hnd' Hin) as [[H1 H2]|[H1 (t & H2 & H3)]].
      * left. auto.
      * right. split; [exact H1|]. exists t. auto.
Qed.

Lemma totalFor_app name l1 l2 :
  totalFor toUpperCase name (l1 ++ l2) =
  (totalFor toUpperCase name l1 + totalFor toUpperCase name l2)%Z.
Proof.
  unfold totalFor. rewrite filter_app, map_app.
  induction (map LeaderboardEntry.score (filter _ l1)) as [|z l IH];
    simpl; [reflexivity|]. rewrite IH. unfold sumZ. lia.
Qed.

Lemma totalFor_one name e :
  totalFor toUpperCase name [e] =
  if String.eqb (key e) name then LeaderboardEntry.score e else 0%Z.
Proof.
  unfold totalFor. simpl. destruct (String.eqb _ _); simpl; lia.
Qed.

Lemma totalFor_absent name l :
  (forall e, In e l -> key e <> name) -> totalFor toUpperCase name l = 0%Z.
Proof.
  intro H. unfold totalFor. induction l as [|e l IH]; simpl; [reflexivity|].
  destruct (String.eqb_spec (key e) name) as [Heq|Hne].
  - exfalso. apply (H e); simpl; auto.
  - apply IH. intros e' He'. apply H. simpl. auto.
Qed.

(** What the map holds after the entries [seen] have been folded in. *)
Definition mapHolds (seen : list LeaderboardEntry.t) (m : ScoreMap) : Prop :=
  NoDup (map fst m) /\
  (forall k t, In (k, t) m ->
     toUpperCase (Total.username t) = k /\
     Total.totalScore t = totalFor toUpperCase k seen) /\
  (forall e, In e seen -> In (key e) (map fst m)).

Lemma mapHolds_step seen m e :
  mapHolds seen m -> mapHolds (seen ++ [e]) (aggregateEntry toUpperCase m e).
Proof.
  intros (Hnd & Hval & Hcov). unfold aggregateEntry.
  destruct (mapGet (key e) m) as [t0|] eqn:Eg.
  - apply mapGet_Some in Eg. split; [|split].
    + rewrite addToExisting_keys. exact Hnd.
    + intros k t Hin. rewrite totalFor_app, totalFor_one.
      destruct (In_addToExisting _ _ _ _ _ Hnd Hin)
        as [[Hne Hin']|[-> (t1 & Hin' & Hu & Ht)]].
      * destruct (Hval _ _ Hin') as [H1 H2].
        destruct (String.eqb_spec (key e) k); [congruence|].
        split; [exact H1|lia].
      * destruct (Hval _ _ Hin') as [H1 H2].
        rewrite String.eqb_refl. split; [congruence|lia].
    + intros e' He'. rewrite addToExisting_keys.
      apply in_app_or in He' as [He'|[<-|[]]]; [auto|].
      apply (in_map fst) in Eg. exact Eg.
  - apply mapGet_None in Eg. split; [|split].
    + rewrite map_app. simpl.
      apply NoDup_app; [exact Hnd|repeat constructor; simpl; tauto|].
      intros k Hk [<-|[]]. exact (Eg Hk).
    + intros k t Hin. rewrite totalFor_app, totalFor_one.
      apply in_app_or in Hin as [Hin|[[= <- <-]|[]]].
      * destruct (Hval _ _ Hin) as [H1 H2].
        destruct (String.eqb_spec (key e) k) as [Heq|Hne].
        -- exfalso. apply Eg. rewrite Heq.
           apply (in_map fst) in Hin. exact Hin.
        -- split; [exact H1|lia].
      * simpl. rewrite String.eqb_refl. split; [reflexivity|].
        rewrite totalFor_absent; [lia|].
        intros e' He' Heq. apply Eg. rewrite <- Heq. auto.
    + intros e' He'. rewrite map_app. apply in_or_app.
      apply in_app_or in He' as [He'|[<-|[]]]; [left; auto|].
      right. simpl. auto.
Qed.

Lemma mapHolds_fold es seen m :
  mapHolds seen m ->
  mapHolds (seen ++ es) (fold_left (aggregateEntry toUpperCase) es m).
Proof.
  revert seen m. induction es as [|e es IH]; intros seen m H; simpl.
  - rewrite app_nil_r. exact H.
  - replace (seen ++ e :: es) with ((seen ++ [e]) ++ es)
      by (rewrite <- app_assoc; reflexivity).
    apply IH, mapHolds_step, H.
Qed.

Lemma mapHolds_scoreByUsername entries :
  mapHolds entries (scoreByUsername toUpperCase entries).
Proof.
  apply (mapHolds_fold entries [] []). split; [constructor|].
  split; simpl; tauto.
Qed.

Lemma In_insertByTotal a l x : In x (insertByTotal a l) -> x = a \/ In x l.
Proof.
  induction l as [|b r IH]; simpl.
  - intuition.
  - destruct (_ <=? _)%Z; simpl; intuition.
Qed.

Lemma In_sortByTotal l x : In x (sortByTotal l) -> In x l.
Proof.
  induction l as [|a l IH]; simpl; [tauto|].
  intro H. apply In_insertByTotal in H as [->|H]; auto.
Qed.

Lemma In_firstn {A} n (l : list A) x : In x (firstn n l) -> In x l.
Proof.
  revert l. induction n as [|n IH]; intros [|a l]; simpl; try tauto.
  intros [H|H]; auto.
Qed.

Lemma rows_total entries name total :
  In (name, total) (leaderboardRows toUpperCase entries) ->
  total = totalFor toUpperCase name entries.
Proof.
  unfold leaderboardRows, aggregatedEntries. intro H.
  apply in_map_iff in H as (t & [= <- <-] & Hin).
  apply In_firstn, In_sortByTotal, in_map_iff in Hin as ([k t'] & Heq & Hin).
  simpl in Heq. subst t'.
  destruct (mapHolds_scoreByUsername entries) as (_ & Hval & _).
  destruct (Hval _ _ Hin) as [-> ->]. reflexivity.
Qed.

End LoadLeaderboardFacts.

(** * The formation of the invaders *)

Lemma farb_sound a b : farb a b = true -> far a b.
Proof.
  unfold farb, far. rewrite !orb_true_iff, !negb_true_iff, !Qleb_le.
  intros [[[[[H|H]|H]|H]|H]|H] Ha Hb; try congruence; auto.
Qed.

Lemma separatedb_sound l : separatedb l = true -> separated l.
Proof.
  induction l as [|a r IH]; simpl; [trivial|].
  rewrite andb_true_iff, forallb_forall. intros [H1 H2]. split; [|auto].
  apply Forall_forall. intros b Hb. apply farb_sound, H1, Hb.
Qed.

Lemma onHalfb_sound i : onHalfb i = true -> onHalf i.
Proof.
  unfold onHalfb, onHalf. intro H. apply Qeq_bool_eq in H. eauto.
Qed.

Lemma formation_initial : formation createInitialState.
Proof.
  split; [|split].
  - apply separatedb_sound. vm_compute. reflexivity.
  - apply Forall_forall. intros i Hi. apply onHalfb_sound.
    revert i Hi. apply forallb_forall. vm_compute. reflexivity.
  - left. reflexivity.
Qed.

Lemma far_fade a a' b b' :
  invaderFade a a' -> invaderFade b b' -> far a b -> far a' b'.
Proof.
  unfold far. intros (Hx & Hy & _ & _ & Ha) (Hx' & Hy' & _ & _ & Hb) H A B.
  rewrite Hx, Hy, Hx', Hy'. auto.
Qed.

Lemma separated_fade l l' :
  Forall2 invaderFade l l' -> separated l -> separated l'.
Proof.
  induction 1 as [|a a' l l' Ha Hl IH]; simpl; [trivial|].
  intros [Hf Hs]. split; [|auto].
  clear IH Hs. induction Hl as [|b b' l l' Hb Hl IH]; [constructor|].
  inversion Hf; subst. constructor; [eapply far_fade; eauto|auto].
Qed.

Lemma onHalf_fade l l' :
  Forall2 invaderFade l l' -> Forall onHalf l -> Forall onHalf l'.
Proof.
  induction 1 as [|a a' l l' Ha Hl IH]; intro H; [constructor|].
  inversion H; subst. constructor; [|auto].
  unfold onHalf in *. destruct Ha as (-> & _). assumption.
Qed.

Lemma far_map (f : Invader.t -> Invader.t) a l :
  (forall b, far a b -> far (f a) (f b)) ->
  Forall (far a) l -> Forall (far (f a)) (map f l).
Proof. intros Hf H. induction H; simpl; constructor; auto. Qed.

Lemma separated_map (f : Invader.t -> Invader.t) l :
  (forall a b, far a b -> far (f a) (f b)) ->
  separated l -> separated (map f l).
Proof.
  intro Hf. induction l as [|a r IH]; simpl; [trivial|].
  intros [H1 H2]. split; [apply far_map; auto|auto].
Qed.

Lemma far_moveInvader d dir a b :
  far a b -> far (moveInvader d dir a) (moveInvader d dir b).
Proof.
  unfold far. rewrite !moveInvader_active. intros H Ha Hb.
  specialize (H Ha Hb). unfold moveInvader. rewrite Ha, Hb. simpl.
  destruct d; simpl; lra.
Qed.

Lemma far_animate a b : far a b -> far (animate a) (animate b).
Proof.
  unfold far. rewrite !animate_active. intros H Ha Hb.
  specialize (H Ha Hb). unfold animate. rewrite Ha, Hb. simpl. exact H.
Qed.

Lemma onHalf_moveInvader d dir i :
  dir == 1 \/ dir == -1 -> onHalf i -> onHalf (moveInvader d dir i).
Proof.
  intros Hdir [n Hn]. unfold onHalf, moveInvader.
  destruct (Invader.active i); simpl; [|eauto].
  destruct d; simpl; [eauto|].
  destruct Hdir as [Hd|Hd].
  - exists (n + 15)%Z. rewrite inject_Z_plus.
    change (inject_Z 15) with 15. lra.
  - exists (n + -15)%Z. rewrite inject_Z_plus.
    change (inject_Z (-15)) with (-15). lra.
Qed.

Lemma onHalf_animate i : onHalf i -> onHalf (animate i).
Proof.
  unfold onHalf, animate. destruct (Invader.active i); simpl; auto.
Qed.

Lemma formation_checkCollisions s :
  formation s -> formation (checkCollisions s).
Proof.
  intros (H1 & H2 & H3).
  destruct (invaders_checkCollisions s) as [Hf _].
  split; [|split].
  - eapply separated_fade; eauto.
  - eapply onHalf_fade; eauto.
  - rewrite checkCollisions_eq. exact H3.
Qed.

Lemma formation_moveInvaders s : formation s -> formation (moveInvaders s).
Proof.
  intros (H1 & H2 & H3). unfold formation, moveInvaders. simpl.
  split; [|split].
  - apply separated_map; [|exact H1]. intros a b. apply far_moveInvader.
  - apply Forall_forall. intros i Hi. apply in_map_iff in Hi as (j & <- & Hj).
    apply onHalf_moveInvader; [exact H3|].
    rewrite Forall_forall in H2. auto.
  - destruct (existsb _ _); [|exact H3].
    destruct H3 as [-> | ->]; [right|left]; reflexivity.
Qed.

Lemma formation_sweepStep s : formation s -> formation (sweepStep s).
Proof.
  unfold sweepStep. destruct (_ =? _)%Z; [apply formation_moveInvaders|auto].
Qed.

Lemma formation_animStep s : formation s -> formation (animStep s).
Proof.
  unfold animStep. destruct (_ =? _)%Z; [|auto].
  intros (H1 & H2 & H3). unfold formation. simpl. split; [|split].
  - apply separated_map; [|exact H1]. intros a b. apply far_animate.
  - apply Forall_forall. intros i Hi. apply in_map_iff in Hi as (j & <- & Hj).
    apply onHalf_animate. rewrite Forall_forall in H2. auto.
  - exact H3.
Qed.

Lemma formation_same s s' :
  invaders s' = invaders s -> invaderDirection s' = invaderDirection s ->
  formation s -> formation s'.
Proof. unfold formation. intros -> ->. auto. Qed.

Lemma dir_fireStep r s : invaderDirection (fireStep r s) = invaderDirection s.
Proof.
  unfold fireStep, enemyShoot. destruct (_ =? _)%Z; [|reflexivity].
  destruct (Nat.eqb _ _); [reflexivity|].
  destruct (nth_error _ _); reflexivity.
Qed.

Lemma dir_winCheck s : invaderDirection (winCheck s) = invaderDirection s.
Proof. unfold winCheck. destruct (Nat.eqb _ _); reflexivity. Qed.

Lemma formation_update r s : formation s -> formation (update r s).
Proof.
  intro H. unfold update. destruct (gameOver s); [exact H|].
  apply (formation_same (winCheck (fireStep r (animStep (sweepStep
           (checkCollisions (tickAndMoveBullets s))))))); [reflexivity..|].
  eapply formation_same; [apply invaders_winCheck|apply dir_winCheck|].
  eapply formation_same; [apply invaders_fireStep|apply dir_fireStep|].
  apply formation_animStep, formation_sweepStep, formation_checkCollisions.
  exact H.
Qed.

Lemma formation_step g e : formation (state g) -> formation (state (step g e)).
Proof.
  intro H. destruct e as [k|k|due r|]; simpl.
  - unfold keydown. destruct (String.eqb k " "); simpl; [|exact H].
    destruct (gameOver (state g)); [exact H|].
    eapply formation_same; [apply invaders_shoot| |exact H].
    unfold shoot. destruct (Nat.leb _ _); reflexivity.
  - exact H.
  - destruct (processInputState_fields (keys g) (state g))
      as (Hi & _ & _ & _ & _ & Hd & _).
    pose proof (formation_same _ _ Hi Hd H) as H'.
    unfold gameLoop, processInput. destruct due; cbn [state keys]; [|exact H'].
    apply formation_update, H'.
  - destruct (processInputState_fields (keys g) createInitialState)
      as (Hi & _ & _ & _ & _ & Hd & _).
    unfold start, gameLoop, processInput. cbn [state keys].
    exact (formation_same _ _ Hi Hd formation_initial).
Qed.

Lemma reachable_formation g : reachable g -> formation (state g).
Proof.
  induction 1 as [|g e _ IH _]; [exact formation_initial|].
  apply formation_step, IH.
Qed.

(** ** One bullet, one invader *)

Lemma hit_excludes b a i :
  far a i -> Invader.active a = true -> Invader.active i = true ->
  hitsInvader b a = true -> hitsInvader b i = false.
Proof.
  intros Hfar Ha Hi Hhit. specialize (Hfar Ha Hi).
  unfold hitsInvader, checkHit, INVADER_WIDTH, INVADER_HEIGHT, BULLET_WIDTH,
    BULLET_HEIGHT in *.
  rewrite !andb_true_iff, !Qltb_lt, !Qgtb_gt in Hhit.
  destruct Hhit as [[[H1 H2] H3] H4].
  rewrite !andb_false_iff, !Qltb_nlt. unfold Qgtb. rewrite !Qltb_nlt.
  destruct Hfar as [H|[H|[H|H]]].
  - left. left. right. lra.
  - left. left. left. lra.
  - right. lra.
  - left. right. lra.
Qed.

Lemma hitInvaders_miss b invs sc :
  Forall (fun i => Invader.active i = true -> hitsInvader b i = false) invs ->
  hitInvaders b invs sc = (b, invs, sc).
Proof.
  induction 1 as [|i rest Hi _ IH]; simpl; [reflexivity|].
  destruct (Invader.active i); simpl; [rewrite Hi by reflexivity|];
    rewrite IH; reflexivity.
Qed.

Lemma head_excludes b i rest :
  Forall (far i) rest -> Invader.active i = true -> hitsInvader b i = true ->
  Forall (fun j => Invader.active j = true -> hitsInvader b j = false) rest.
Proof.
  intros Hfar Ha Hh. eapply Forall_impl; [|exact Hfar].
  intros j Hj Haj. eapply hit_excludes; eauto.
Qed.

Lemma overlapping_none b invs :
  Forall (fun j => Invader.active j = true -> hitsInvader b j = false) invs ->
  overlapping b invs = [].
Proof.
  unfold overlapping. induction 1 as [|j rest Hj _ IH]; simpl; [reflexivity|].
  destruct (Invader.active j); simpl; [rewrite Hj by reflexivity|]; exact IH.
Qed.

Lemma overlapping_at_most_one b invs :
  separated invs -> (length (overlapping b invs) <= 1)%nat.
Proof.
  induction invs as [|i rest IH]; simpl; [lia|].
  intros [Hfar Hsep]. unfold overlapping in *. simpl.
  destruct (Invader.active i) eqn:Ea; simpl; [|exact (IH Hsep)].
  destruct (hitsInvader b i) eqn:Eh; [|exact (IH Hsep)].
  pose proof (overlapping_none b rest (head_excludes b i rest Hfar Ea Eh)) as E.
  unfold overlapping in E. rewrite E. simpl. lia.
Qed.

Lemma map_untouched {A} (c : A -> bool) (f : A -> A) l :
  Forall (fun j => c j = false) l ->
  map (fun j => if c j then f j else j) l = l.
Proof.
  induction 1 as [|j rest Hj _ IH]; simpl; [reflexivity|].
  rewrite Hj, IH. reflexivity.
Qed.

(** What one bullet does to invaders that keep their distance. *)
Lemma hitInvaders_rule b invs sc :
  separated invs ->
  let '(b', invs', sc') := hitInvaders b invs sc in
  match overlapping b invs with
  | [] => b' = b /\ invs' = invs /\ sc' = sc
  | i :: _ =>
      Bullet.active b' = false /\ Bullet.x b' = Bullet.x b /\
      Bullet.y b' = Bullet.y b /\ Bullet.isPlayer b' = Bullet.isPlayer b /\
      sc' = (sc + match Invader.type i with
                  | squid => 30 | crab => 20 | octopus => 10
                  end)%Z /\
      invs' = map (fun j => if Invader.active j && hitsInvader b j
                            then Invader.mk (Invader.x j) (Invader.y j)
                                   (Invader.type j) false (Invader.animFrame j)
                            else j) invs
  end.
Proof.
  induction invs as [|i rest IH]; simpl; [auto|].
  intros [Hfar Hsep]. specialize (IH Hsep). unfold overlapping in *. simpl.
  destruct (Invader.active i) eqn:Ea; simpl.
  - destruct (hitsInvader b i) eqn:Eh.
    + pose proof (head_excludes b i rest Hfar Ea Eh) as Hex.
      rewrite hitInvaders_miss
        by (change (hitsInvader (deactivate b)) with (hitsInvader b); exact Hex).
      simpl. repeat split.
      unfold kill. f_equal. symmetry.
      apply (map_untouched (fun j => Invader.active j && hitsInvader b j)).
      eapply Forall_impl; [|exact Hex]. cbv beta. intros j Hj.
      destruct (Invader.active j); [rewrite Hj by reflexivity|]; reflexivity.
    + destruct (hitInvaders b rest sc) as [[b' rest'] sc'].
      destruct (filter _ rest) as [|k l].
      * destruct IH as (-> & -> & ->). auto.
      * destruct IH as (H1 & H2 & H3 & H4 & H5 & ->). auto 10.
  - destruct (hitInvaders b rest sc) as [[b' rest'] sc'].
    destruct (filter _ rest) as [|k l].
    + destruct IH as (-> & -> & ->). auto.
    + destruct IH as (H1 & H2 & H3 & H4 & H5 & ->). auto 10.
Qed.

Lemma shot_refl ty l : shot ty l l = 0%nat.
Proof.
  induction l as [|i l IH]; simpl; [reflexivity|].
  rewrite IH. destruct (Invader.active i); reflexivity.
Qed.

Lemma shot_trans ty l1 l2 l3 :
  Forall2 invaderFade l1 l2 -> Forall2 invaderFade l2 l3 ->
  shot ty l1 l3 = (shot ty l1 l2 + shot ty l2 l3)%nat.
Proof.
  intros H12. revert l3. induction H12 as [|a b l1 l2 Hab _ IH];
    intros l3 H23; inversion H23 as [|? c ? l3' Hbc H23']; subst; simpl;
    [reflexivity|].
  rewrite (IH _ H23').
  destruct Hab as (_ & _ & Et & _ & Ha). destruct Hbc as (_ & _ & _ & _ & Hb).
  rewrite Et.
  destruct (Invader.active a), (Invader.active b), (Invader.active c),
    (isType ty (Invader.type a)); simpl; try lia;
    try (specialize (Ha eq_refl); discriminate);
    try (specialize (Hb eq_refl); discriminate).
Qed.

Lemma shot_flags ty l l1 l2 :
  map Invader.active l1 = map Invader.active l2 -> shot ty l l1 = shot ty l l2.
Proof.
  revert l1 l2. induction l as [|i l IH]; intros [|a l1] [|b l2] H; simpl in *;
    try reflexivity; try discriminate.
  injection H as Hab H. rewrite Hab, (IH _ _ H). reflexivity.
Qed.

(** One bullet either passes, or is spent on exactly one invader and
    credited with its tier. *)
Lemma hitInvaders_account b invs sc :
  separated invs ->
  let '(b', invs', sc') := hitInvaders b invs sc in
  sc' = (sc + 30 * Z.of_nat (shot squid invs invs')
            + 20 * Z.of_nat (shot crab invs invs')
            + 10 * Z.of_nat (shot octopus invs invs'))%Z /\
  ((b' = b /\
    (shot squid invs invs' + shot crab invs invs' + shot octopus invs invs'
     = 0)%nat) \/
   (b' = deactivate b /\
    (shot squid invs invs' + shot crab invs invs' + shot octopus invs invs'
     = 1)%nat)).
Proof.
  revert sc. induction invs as [|i rest IH]; intros sc; simpl.
  - intros _. split; [lia|left; auto].
  - intros [Hfar Hsep]. destruct (Invader.active i) eqn:Ea; simpl.
    + destruct (hitsInvader b i) eqn:Eh.
      * pose proof (head_excludes b i rest Hfar Ea Eh) as Hex.
        rewrite hitInvaders_miss
          by (change (hitsInvader (deactivate b)) with (hitsInvader b);
              exact Hex).
        cbn [shot kill Invader.active Invader.type negb andb].
        rewrite ?Ea, !shot_refl. cbn [negb andb].
        split; [|right; split; [reflexivity|]];
          destruct (Invader.type i); cbn; lia.
      * specialize (IH sc Hsep).
        destruct (hitInvaders b rest sc) as [[b' rest'] sc'].
        cbn [shot]. rewrite Ea. destruct (Invader.active i); exact IH.
    + specialize (IH sc Hsep).
      destruct (hitInvaders b rest sc) as [[b' rest'] sc'].
      cbn [shot]. rewrite ?Ea. exact IH.
Qed.

Lemma playerBullets_account bs invs sc :
  separated invs ->
  let '(bs', invs', sc') := playerBulletsVsInvaders bs invs sc in
  sc' = (sc + 30 * Z.of_nat (shot squid invs invs')
            + 20 * Z.of_nat (shot crab invs invs')
            + 10 * Z.of_nat (shot octopus invs invs'))%Z /\
  (length (filter isActivePlayer bs) =
   length (filter isActivePlayer bs') +
   (shot squid invs invs' + shot crab invs invs' + shot octopus invs invs'))%nat.
Proof.
  revert invs sc. induction bs as [|b rest IH]; intros invs sc Hsep;
    cbn [playerBulletsVsInvaders].
  - rewrite !shot_refl. cbn [filter length]. split; lia.
  - destruct (negb (Bullet.active b) || negb (Bullet.isPlayer b)) eqn:Eb.
    + specialize (IH invs sc Hsep).
      destruct (playerBulletsVsInvaders rest invs sc) as [[rest' invs'] sc'].
      destruct IH as [H1 H2]. split; [exact H1|].
      cbn [filter]. destruct (isActivePlayer b); cbn [length]; lia.
    + pose proof (hitInvaders_account b invs sc Hsep) as HA.
      pose proof (hitInvaders_spec b invs sc) as HS.
      destruct (hitInvaders b invs sc) as [[b1 invs1] sc1].
      destruct HS as (_ & Hf1 & _). destruct HA as [A1 A2].
      specialize (IH invs1 sc1 (separated_fade _ _ Hf1 Hsep)).
      pose proof (playerBulletsVsInvaders_spec rest invs1 sc1) as HS2.
      destruct (playerBulletsVsInvaders rest invs1 sc1) as [[rest' invs'] sc'].
      destruct HS2 as (_ & Hf2 & _). destruct IH as [H1 H2].
      rewrite (shot_trans squid invs invs1 invs' Hf1 Hf2),
        (shot_trans crab invs invs1 invs' Hf1 Hf2),
        (shot_trans octopus invs invs1 invs' Hf1 Hf2).
      split; [lia|].
      apply orb_false_iff in Eb as [Eb1 Eb2].
      apply negb_false_iff in Eb1. apply negb_false_iff in Eb2.
      assert (Hb : isActivePlayer b = true)
        by (unfold isActivePlayer; rewrite Eb1, Eb2; reflexivity).
      assert (Hd : isActivePlayer (deactivate b) = false)
        by (unfold isActivePlayer, deactivate; cbn; apply andb_false_r).
      cbn [filter]. rewrite Hb.
      destruct A2 as [[-> A2]|[-> A2]]; rewrite ?Hb, ?Hd; cbn [length]; lia.
Qed.

Lemma enemyBullets_keep_player_count sh bs lv over :
  length (filter isActivePlayer (fst (fst (enemyBulletsVsShip sh bs lv over)))) =
  length (filter isActivePlayer bs).
Proof.
  revert lv over. induction bs as [|b rest IH]; intros lv over;
    cbn [enemyBulletsVsShip]; [reflexivity|].
  destruct (negb (Bullet.active b) || Bullet.isPlayer b) eqn:Eb.
  - specialize (IH lv over).
    destruct (enemyBulletsVsShip sh rest lv over) as [[rest' lv'] over'].
    cbn [fst filter] in *. destruct (isActivePlayer b); cbn [length];
      rewrite IH; reflexivity.
  - apply orb_false_iff in Eb as [_ Eb].
    assert (Hb : isActivePlayer b = false)
      by (unfold isActivePlayer; rewrite Eb; reflexivity).
    assert (Hd : isActivePlayer (deactivate b) = false)
      by (unfold isActivePlayer, deactivate; cbn; apply andb_false_r).
    destruct (hitsShip b sh).
    + cbv zeta.
      specialize (IH (lv - 1)%Z (if (lv - 1 <=? 0)%Z then true else over)).
      destruct (enemyBulletsVsShip sh rest _ _) as [[rest' lv'] over'].
      cbn [fst filter] in *. rewrite Hb, Hd. exact IH.
    + specialize (IH lv over).
      destruct (enemyBulletsVsShip sh rest lv over) as [[rest' lv'] over'].
      cbn [fst filter] in *. rewrite Hb. exact IH.
Qed.

Lemma overlapping_same_box b b' l :
  Bullet.x b' = Bullet.x b -> Bullet.y b' = Bullet.y b ->
  overlapping b' l = overlapping b l.
Proof.
  intros Hx Hy. unfold overlapping. apply filter_ext. intro i.
  unfold hitsInvader. rewrite Hx, Hy. reflexivity.
Qed.

Lemma overlapping_fade b l l' :
  Forall2 invaderFade l l' -> overlapping b l = [] -> overlapping b l' = [].
Proof.
  unfold overlapping. induction 1 as [|i i' l l' Hi _ IH]; cbn [filter];
    [auto|].
  destruct Hi as (Hx & Hy & _ & _ & Ha).
  assert (Hh : hitsInvader b i' = hitsInvader b i).
  { unfold hitsInvader. rewrite Hx, Hy. reflexivity. }
  rewrite Hh.
  destruct (Invader.active i && hitsInvader b i) eqn:E; [discriminate|].
  intro Hr. rewrite (IH Hr).
  destruct (Invader.active i') eqn:Ea'; [|reflexivity].
  rewrite (Ha eq_refl) in E. cbn [andb] in *. rewrite E. reflexivity.
Qed.

(** After its pass over the grid a bullet is spent, or overlaps no active
    invader. *)
Lemma hitInvaders_spent b invs sc :
  let '(b', invs', _) := hitInvaders b invs sc in
  Bullet.active b' = false \/ (b' = b /\ overlapping b invs' = []).
Proof.
  revert sc. induction invs as [|i rest IH]; intro sc; cbn [hitInvaders];
    [right; auto|].
  destruct (Invader.active i) eqn:Ea; cbn [negb].
  - destruct (hitsInvader b i) eqn:Eh.
    + pose proof (hitInvaders_spec (deactivate b) rest
                    (sc + points (Invader.type i))%Z) as HS.
      destruct (hitInvaders (deactivate b) rest _) as [[b' rest'] sc'].
      destruct HS as ((_ & _ & _ & Hb) & _).
      left. destruct (Bullet.active b'); [|reflexivity].
      specialize (Hb eq_refl). discriminate.
    + specialize (IH sc).
      destruct (hitInvaders b rest sc) as [[b' rest'] sc'].
      destruct IH as [IH|[-> IH]]; [left; exact IH|right].
      split; [reflexivity|]. unfold overlapping in *. cbn [filter].
      rewrite Ea, Eh. exact IH.
  - specialize (IH sc).
    destruct (hitInvaders b rest sc) as [[b' rest'] sc'].
    destruct IH as [IH|[-> IH]]; [left; exact IH|right].
    split; [reflexivity|]. unfold overlapping in *. cbn [filter].
    rewrite Ea. exact IH.
Qed.

Lemma playerBullets_spent bs invs sc :
  let '(bs', invs', _) := playerBulletsVsInvaders bs invs sc in
  Forall (fun b => isActivePlayer b = true -> overlapping b invs' = []) bs'.
Proof.
  revert invs sc. induction bs as [|b rest IH]; intros invs sc;
    cbn [playerBulletsVsInvaders]; [constructor|].
  destruct (negb (Bullet.active b) || negb (Bullet.isPlayer b)) eqn:Eb.
  - specialize (IH invs sc).
    destruct (playerBulletsVsInvaders rest invs sc) as [[rest' invs'] sc'].
    constructor; [|exact IH]. intro Hb. exfalso.
    unfold isActivePlayer in Hb. apply andb_true_iff in Hb as [H1 H2].
    rewrite H1, H2 in Eb. discriminate.
  - pose proof (hitInvaders_spent b invs sc) as HS.
    destruct (hitInvaders b invs sc) as [[b1 invs1] sc1].
    specialize (IH invs1 sc1).
    pose proof (playerBulletsVsInvaders_spec rest invs1 sc1) as HF.
    destruct (playerBulletsVsInvaders rest invs1 sc1) as [[rest' invs'] sc'].
    destruct HF as (_ & HF & _).
    constructor; [|exact IH]. intro Hb.
    destruct HS as [HS|[-> HS]].
    + unfold isActivePlayer in Hb. rewrite HS, andb_false_r in Hb.
      discriminate.
    + exact (overlapping_fade b _ _ HF HS).
Qed.

Lemma spent_fade invs bs bs' :
  Forall2 bulletFade bs bs' ->
  Forall (fun b => isActivePlayer b = true -> overlapping b invs = []) bs ->
  Forall (fun b => isActivePlayer b = true -> overlapping b invs = []) bs'.
Proof.
  induction 1 as [|b1 b2 bs1 bs2 (Hx & Hy & Hp & Ha) _ IH]; [constructor|].
  intro HP. inversion HP as [|? ? H1 HP']; subst.
  constructor; [|exact (IH HP')].
  intro Hb. rewrite (overlapping_same_box b1 b2 invs Hx Hy). apply H1.
  unfold isActivePlayer in *. apply andb_true_iff in Hb as [Hb1 Hb2].
  rewrite <- Hp, Hb1, (Ha Hb2). reflexivity.
Qed.

Lemma checkCollisions_spent s :
  Forall (fun b => isActivePlayer b = true ->
                   overlapping b (invaders (checkCollisions s)) = [])
         (bullets (checkCollisions s)).
Proof.
  rewrite checkCollisions_eq.
  pose proof (playerBullets_spent (bullets s) (invaders s) (score s)) as HP.
  destruct (playerBulletsVsInvaders (bullets s) (invaders s) (score s))
    as [[bs1 invs1] sc1].
  pose proof (enemyBulletsVsShip_fade (ship s) bs1 (lives s) (gameOver s)) as HE.
  cbn [fst snd invaders bullets].
  destruct (enemyBulletsVsShip (ship s) bs1 (lives s) (gameOver s))
    as [[bs2 lv2] over2].
  cbn [fst snd]. exact (spent_fade invs1 bs1 bs2 HE HP).
Qed.

(** C1.  In every state the game can reach the active invaders keep the
    spacing of the grid (columns 55 apart or rows 45 apart), and with that
    spacing the box of a bullet overlaps at most one active invader, so the
    case of two or more overlaps does not arise.  On invaders so spaced,
    one bullet against the grid either overlaps none and changes nothing,
    or is deactivated, deactivates exactly the one invader it overlaps and
    adds 30 for a squid, 20 for a crab and 10 for an octopus.  Over a whole
    [checkCollisions], and over a whole tick, the score grows by these
    tiers for the invaders deactivated; the number of invaders deactivated
    is the number of player bullets spent, and no player bullet that is
    still active overlaps an active invader. *)
Theorem one_invader_per_bullet :
  (forall g : Game, reachable g -> separated (invaders (state g))) /\
  (forall (invs : list Invader.t) (b : Bullet.t),
     separated invs -> (length (overlapping b invs) <= 1)%nat) /\
  (forall (b : Bullet.t) (invs : list Invader.t) (sc : Z),
     separated invs ->
     let '(b', invs', sc') := hitInvaders b invs sc in
     match overlapping b invs with
     | [] => b' = b /\ invs' = invs /\ sc' = sc
     | i :: _ =>
         Bullet.active b' = false /\ Bullet.x b' = Bullet.x b /\
         Bullet.y b' = Bullet.y b /\ Bullet.isPlayer b' = Bullet.isPlayer b /\
         sc' = (sc + match Invader.type i with
                     | squid => 30 | crab => 20 | octopus => 10
                     end)%Z /\
         invs' = map (fun j => if Invader.active j && hitsInvader b j
                               then Invader.mk (Invader.x j) (Invader.y j)
                                      (Invader.type j) false
                                      (Invader.animFrame j)
                               else j) invs
     end) /\
  (forall s : GameState,
     separated (invaders s) ->
     let s' := checkCollisions s in
     score s' =
     (score s + 30 * Z.of_nat (shot squid (invaders s) (invaders s'))
              + 20 * Z.of_nat (shot crab (invaders s) (invaders s'))
              + 10 * Z.of_nat (shot octopus (invaders s) (invaders s')))%Z /\
     (length (filter isActivePlayer (bullets s)) =
      length (filter isActivePlayer (bullets s')) +
      (shot squid (invaders s) (invaders s') +
       shot crab (invaders s) (invaders s') +
       shot octopus (invaders s) (invaders s')))%nat /\
     Forall (fun b => isActivePlayer b = true ->
                      overlapping b (invaders s') = [])
            (bullets s')) /\
  (forall (r : Q) (s : GameState),
     separated (invaders s) -> gameOver s = false ->
     let s' := update r s in
     score s' =
     (score s + 30 * Z.of_nat (shot squid (invaders s) (invaders s'))
              + 20 * Z.of_nat (shot crab (invaders s) (invaders s'))
              + 10 * Z.of_nat (shot octopus (invaders s) (invaders s')))%Z).
Proof.
  assert (HC : forall s : GameState,
     separated (invaders s) ->
     score (checkCollisions s) =
     (score s
      + 30 * Z.of_nat (shot squid (invaders s) (invaders (checkCollisions s)))
      + 20 * Z.of_nat (shot crab (invaders s) (invaders (checkCollisions s)))
      + 10 * Z.of_nat (shot octopus (invaders s) (invaders (checkCollisions s))))%Z /\
     (length (filter isActivePlayer (bullets s)) =
      length (filter isActivePlayer (bullets (checkCollisions s))) +
      (shot squid (invaders s) (invaders (checkCollisions s)) +
       shot crab (invaders s) (invaders (checkCollisions s)) +
       shot octopus (invaders s) (invaders (checkCollisions s))))%nat).
  { intros s Hsep. rewrite checkCollisions_eq.
    pose proof (playerBullets_account (bullets s) (invaders s) (score s) Hsep)
      as HA.
    destruct (playerBulletsVsInvaders (bullets s) (invaders s) (score s))
      as [[bs1 invs1] sc1].
    pose proof (enemyBullets_keep_player_count (ship s) bs1 (lives s)
                  (gameOver s)) as HE.
    cbn [fst snd invaders score bullets]. rewrite HE. exact HA. }
  split; [intros g Hr; apply (reachable_formation g Hr)|].
  split; [intros invs b Hsep; apply overlapping_at_most_one, Hsep|].
  split; [intros b invs sc Hsep; apply hitInvaders_rule, Hsep|].
  split.
  { intros s Hsep. cbv zeta. destruct (HC s Hsep) as [H1 H2].
    split; [exact H1|]. split; [exact H2|apply checkCollisions_spent]. }
  intros r s Hsep Hover. cbv zeta.
  assert (Hs : score (update r s) = score (checkCollisions (tickAndMoveBullets s))).
  { unfold update. rewrite Hover.
    rewrite score_cleanUp, score_winCheck, score_fireStep, score_animStep,
      score_sweepStep. reflexivity. }
  assert (Hf : map Invader.active (invaders (update r s)) =
               map Invader.active
                 (invaders (checkCollisions (tickAndMoveBullets s)))).
  { unfold update. rewrite Hover.
    rewrite invaders_cleanUp, invaders_winCheck, invaders_fireStep,
      flags_animStep, flags_sweepStep. reflexivity. }
  rewrite Hs, (shot_flags squid _ _ _ Hf), (shot_flags crab _ _ _ Hf),
    (shot_flags octopus _ _ _ Hf).
  apply (HC (tickAndMoveBullets s)). exact Hsep.
Qed.

Lemma invaders_tickAndMoveBullets s :
  invaders (tickAndMoveBullets s) = invaders s.
Proof. reflexivity. Qed.

Lemma reachable_run es g :
  Forall validEvent es -> reachable g -> reachable (run es g).
Proof.
  intro H. revert g. induction H as [|e es He _ IH]; intros g Hg; simpl;
    [exact Hg|].
  apply IH. constructor; assumption.
Qed.

Lemma reachable_beforeFirstKill : reachable beforeFirstKill.
Proof.
  apply reachable_run; [|constructor].
  repeat constructor; vm_compute; discriminate.
Qed.

(** The first kill of a game: the bullet fired from the middle of the
    field reaches the bottom row, is spent on one octopus and scores 10. *)
Lemma one_invader_per_bullet_witness :
  let s := tickAndMoveBullets (state beforeFirstKill) in
  let s' := checkCollisions s in
  separated (invaders s) /\
  (score s' =
   (score s + 30 * Z.of_nat (shot squid (invaders s) (invaders s'))
            + 20 * Z.of_nat (shot crab (invaders s) (invaders s'))
            + 10 * Z.of_nat (shot octopus (invaders s) (invaders s')))%Z /\
   (length (filter isActivePlayer (bullets s)) =
    length (filter isActivePlayer (bullets s')) +
    (shot squid (invaders s) (invaders s') +
     shot crab (invaders s) (invaders s') +
     shot octopus (invaders s) (invaders s')))%nat /\
   Forall (fun b => isActivePlayer b = true ->
                    overlapping b (invaders s') = [])
          (bullets s')) /\
  shot octopus (invaders s) (invaders s') = 1%nat /\ score s' = 10%Z.
Proof.
  cbv zeta.
  assert (Hsep : separated (invaders (tickAndMoveBullets (state beforeFirstKill)))).
  { rewrite invaders_tickAndMoveBullets.
    exact (proj1 one_invader_per_bullet beforeFirstKill
             reachable_beforeFirstKill). }
  split; [exact Hsep|]. split.
  - exact (proj1 (proj2 (proj2 (proj2 one_invader_per_bullet)))
             (tickAndMoveBullets (state beforeFirstKill)) Hsep).
  - split; vm_compute; reflexivity.
Defined.

(** ** The sweep of the invaders *)

Lemma half_not_integer (n m : Z) (x : Q) :
  x == inject_Z n + (1 # 2) ->
  (x <= inject_Z m -> x < inject_Z m) /\ (inject_Z m <= x -> inject_Z m < x).
Proof.
  intro Hx. split; intro H.
  - destruct (Z_lt_le_dec n m) as [Hlt|Hge].
    + assert (Hq : inject_Z n + 1 <= inject_Z m).
      { change 1 with (inject_Z 1). rewrite <- inject_Z_plus, <- Zle_Qle. lia. }
      lra.
    + rewrite Zle_Qle in Hge. lra.
  - destruct (Z_lt_le_dec n m) as [Hlt|Hge].
    + assert (Hq : inject_Z n + 1 <= inject_Z m).
      { change 1 with (inject_Z 1). rewrite <- inject_Z_plus, <- Zle_Qle. lia. }
      lra.
    + rewrite Zle_Qle in Hge. lra.
Qed.

Lemma hitsWall_outside dir i :
  dir == 1 \/ dir == -1 -> onHalf i ->
  (hitsWall dir i = true <->
   Invader.active i = true /\ outsideField (Invader.x i + dir * 15)).
Proof.
  intros Hdir [n Hn]. unfold hitsWall, outsideField, CANVAS_WIDTH, INVADER_WIDTH.
  rewrite andb_true_iff, orb_true_iff, Qleb_le, Qgeb_ge.
  assert (Hh : exists k, Invader.x i + dir * 15 == inject_Z k + (1 # 2)).
  { destruct Hdir as [Hd|Hd].
    - exists (n + 15)%Z. rewrite inject_Z_plus.
      change (inject_Z 15) with 15. lra.
    - exists (n + -15)%Z. rewrite inject_Z_plus.
      change (inject_Z (-15)) with (-15). lra. }
  destruct Hh as [k Hk].
  destruct (half_not_integer k 0 _ Hk) as [H0 _].
  destruct (half_not_integer k 760 _ Hk) as [_ H1].
  change (inject_Z 0) with 0 in H0. change (inject_Z 760) with 760 in H1.
  split; intros [Ha [H|H]]; (split; [exact Ha|]).
  - left. auto.
  - right. assert (760 <= Invader.x i + dir * 15) by lra.
    specialize (H1 H2). lra.
  - left. lra.
  - right. lra.
Qed.

Lemma shouldDescend_wallAhead dir invs :
  dir == 1 \/ dir == -1 -> Forall onHalf invs ->
  (existsb (hitsWall dir) invs = true <-> wallAhead dir invs).
Proof.
  intros Hdir Hh. unfold wallAhead. rewrite existsb_exists, Exists_exists.
  rewrite Forall_forall in Hh.
  split; intros (i & Hi & H); exists i; (split; [exact Hi|]);
    apply (hitsWall_outside dir i Hdir (Hh i Hi)); exact H.
Qed.

Lemma invaders_animStep s :
  invaders (animStep s) = map (animOrNot (tick s)) (invaders s).
Proof.
  unfold animStep, animOrNot. destruct (_ =? _)%Z; [reflexivity|].
  rewrite map_id. reflexivity.
Qed.

Lemma tick_checkCollisions s : tick (checkCollisions s) = tick s.
Proof. rewrite checkCollisions_eq. reflexivity. Qed.

Lemma dir_checkCollisions s :
  invaderDirection (checkCollisions s) = invaderDirection s.
Proof. rewrite checkCollisions_eq. reflexivity. Qed.

Lemma dir_animStep s : invaderDirection (animStep s) = invaderDirection s.
Proof. unfold animStep. destruct (_ =? _)%Z; reflexivity. Qed.

(** C6.  In every game the code can reach each invader's x is an integer
    plus 1/2 and the direction is 1 or -1.  On such a state, whichever way
    it was reached, a tick that is not a multiple of 25 moves no invader
    and leaves the direction.  On a multiple of 25 the wall test is
    decided over all invaders still active after the tick's collisions, on
    their tentative x, before any of them is moved: if one is outside
    [0, CANVAS_WIDTH - INVADER_WIDTH], every active invader goes down 25
    without moving sideways and the one direction is negated once; if
    none is, every active invader moves 15 in the direction and the
    direction stays. *)
Theorem invader_sweep_rule :
  (forall g : Game, reachable g ->
     Forall onHalf (invaders (state g)) /\
     (invaderDirection (state g) == 1 \/ invaderDirection (state g) == -1)) /\
  (forall (s : GameState) (r : Q),
     gameOver s = false -> Forall onHalf (invaders s) ->
     invaderDirection s == 1 \/ invaderDirection s == -1 ->
     let mid := checkCollisions (tickAndMoveBullets s) in
     let s' := update r s in
     let dir := invaderDirection s in
     Forall2 invaderFade (invaders s) (invaders mid) /\
     (Z.rem (tick s + 1) 25 <> 0%Z ->
        Forall2 unmoved (invaders mid) (invaders s') /\
        invaderDirection s' = dir) /\
     (Z.rem (tick s + 1) 25 = 0%Z -> wallAhead dir (invaders mid) ->
        Forall2 descended (invaders mid) (invaders s') /\
        invaderDirection s' = dir * -1) /\
     (Z.rem (tick s + 1) 25 = 0%Z -> ~ wallAhead dir (invaders mid) ->
        Forall2 (advanced dir) (invaders mid) (invaders s') /\
        invaderDirection s' = dir)).
Proof.
  split.
  { intros g Hr. destruct (reachable_formation g Hr) as (_ & H1 & H2). auto. }
  intros s r Hover Hhalf0 Hdir. cbv zeta.
  set (mid := checkCollisions (tickAndMoveBullets s)).
  pose proof (invaders_checkCollisions (tickAndMoveBullets s)) as [Hfade _].
  change (invaders (tickAndMoveBullets s)) with (invaders s) in Hfade.
  fold mid in Hfade.
  assert (Hhalf : Forall onHalf (invaders mid)).
  { eapply onHalf_fade; eauto. }
  assert (Hdm : invaderDirection mid = invaderDirection s).
  { unfold mid. rewrite dir_checkCollisions. reflexivity. }
  assert (Htm : tick mid = (tick s + 1)%Z).
  { unfold mid. rewrite tick_checkCollisions. reflexivity. }
  assert (Hinv : invaders (update r s) = invaders (animStep (sweepStep mid))).
  { unfold update. rewrite Hover.
    rewrite invaders_cleanUp, invaders_winCheck, invaders_fireStep.
    reflexivity. }
  assert (Hd : invaderDirection (update r s) = invaderDirection (sweepStep mid)).
  { unfold update. rewrite Hover.
    rewrite dir_cleanUp, dir_winCheck, dir_fireStep, dir_animStep.
    reflexivity. }
  rewrite Hinv, Hd, invaders_animStep.
  pose proof (shouldDescend_wallAhead (invaderDirection s) (invaders mid)
                Hdir Hhalf) as Hwall.
  split; [exact Hfade|].
  unfold sweepStep. rewrite Htm.
  split; [|split].
  - intro Hrem. destruct (Z.eqb_spec (Z.rem (tick s + 1) 25) 0);
      [contradiction|].
    split; [|exact Hdm]. apply Forall2_map_r. intro i.
    unfold unmoved, animOrNot, animate.
    destruct (_ =? _)%Z; destruct (Invader.active i) eqn:E; simpl; auto.
  - intros Hrem Hw. rewrite Hrem. simpl. rewrite Hdm.
    apply Hwall in Hw. rewrite Hw. split; [|reflexivity].
    rewrite map_map. apply Forall2_map_r. intro i.
    unfold descended, animOrNot, animate, moveInvader.
    destruct (_ =? _)%Z; destruct (Invader.active i) eqn:E; simpl;
      rewrite ?E; simpl; auto.
  - intros Hrem Hw. rewrite Hrem. simpl. rewrite Hdm.
    destruct (existsb (hitsWall (invaderDirection s)) (invaders mid)) eqn:Ew;
      [exfalso; apply Hw, Hwall; reflexivity|].
    split; [|reflexivity].
    rewrite map_map. apply Forall2_map_r. intro i.
    unfold advanced, animOrNot, animate, moveInvader.
    destruct (_ =? _)%Z; destruct (Invader.active i) eqn:E; simpl;
      rewrite ?E; simpl; auto.
Qed.

Lemma reachable_beforeFirstSweep : reachable beforeFirstSweep.
Proof.
  apply reachable_run; [|constructor].
  repeat constructor; vm_compute; discriminate.
Qed.

Lemma reachable_beforeEighthSweep : reachable beforeEighthSweep.
Proof.
  apply reachable_run; [|apply reach_new].
  repeat constructor; vm_compute; discriminate.
Qed.

Lemma wallAheadb_spec dir invs :
  wallAheadb dir invs = true <-> wallAhead dir invs.
Proof.
  unfold wallAheadb, wallAhead, outsideField.
  rewrite existsb_exists, Exists_exists.
  split; intros (i & Hin & H); exists i; (split; [exact Hin|]).
  - rewrite andb_true_iff, orb_true_iff, !Qltb_lt in H. exact H.
  - rewrite andb_true_iff, orb_true_iff, !Qltb_lt. exact H.
Qed.

(** The first sweep of an unattended game moves the grid 15 to the right;
    the eighth finds the right-most column at 752.5, which is less than
    15 from the wall at 760: the grid goes down 25 and the direction
    becomes -1. *)
Lemma invader_sweep_rule_witness :
  (let s := state beforeFirstSweep in
   let mid := checkCollisions (tickAndMoveBullets s) in
   Forall2 (advanced (invaderDirection s)) (invaders mid)
           (invaders (update 0 s)) /\
   invaderDirection (update 0 s) = invaderDirection s) /\
  (let s := state beforeEighthSweep in
   let mid := checkCollisions (tickAndMoveBullets s) in
   Forall2 descended (invaders mid) (invaders (update 0 s)) /\
   invaderDirection (update 0 s) = invaderDirection s * -1).
Proof.
  split; cbv zeta.
  - destruct (proj1 invader_sweep_rule beforeFirstSweep
                reachable_beforeFirstSweep) as [Hh Hd].
    assert (Hover : gameOver (state beforeFirstSweep) = false)
      by (vm_compute; reflexivity).
    apply (proj2 invader_sweep_rule (state beforeFirstSweep) 0 Hover Hh Hd).
    + vm_compute. reflexivity.
    + intro Hw. apply wallAheadb_spec in Hw. vm_compute in Hw.
      discriminate.
  - destruct (proj1 invader_sweep_rule beforeEighthSweep
                reachable_beforeEighthSweep) as [Hh Hd].
    assert (Hover : gameOver (state beforeEighthSweep) = false)
      by (vm_compute; reflexivity).
    apply (proj2 invader_sweep_rule (state beforeEighthSweep) 0 Hover Hh Hd).
    + vm_compute. reflexivity.
    + apply wallAheadb_spec. vm_compute. reflexivity.
Defined.

(** * Lives *)

Lemma isActiveEnemy_fade b b' :
  bulletFade b b' -> isActiveEnemy b' = true -> isActiveEnemy b = true.
Proof.
  unfold isActiveEnemy. intros (_ & _ & Hp & Ha).
  rewrite !andb_true_iff, Hp. intros [H1 H2]. auto.
Qed.

Lemma low_fade B bs bs' : Forall2 bulletFade bs bs' -> low B bs -> low B bs'.
Proof.
  unfold low. induction 1 as [|b b' bs bs' Hb _ IH]; intro H; [constructor|].
  inversion H; subst. constructor; [|auto].
  intro He. destruct Hb as (Hx & Hy & Hrest). rewrite Hy.
  match goal with H : _ -> B <= Bullet.y b |- _ => apply H end.
  eapply isActiveEnemy_fade; [|exact He]. unfold bulletFade. tauto.
Qed.

Lemma trails_fade a a' b b' :
  bulletFade a a' -> bulletFade b b' -> trails a b -> trails a' b'.
Proof.
  unfold trails. intros Ha Hb H Ea Eb.
  pose proof (isActiveEnemy_fade _ _ Ha Ea).
  pose proof (isActiveEnemy_fade _ _ Hb Eb).
  destruct Ha as (_ & -> & _). destruct Hb as (_ & -> & _). auto.
Qed.

Lemma spaced_fade bs bs' : Forall2 bulletFade bs bs' -> spaced bs -> spaced bs'.
Proof.
  induction 1 as [|a a' l l' Ha Hl IH]; simpl; [trivial|].
  intros [Hf Hs]. split; [|auto].
  clear IH Hs. induction Hl as [|b b' l l' Hb Hl IH]; [constructor|].
  inversion Hf; subst. constructor; [eapply trails_fade; eauto|auto].
Qed.

Lemma isActiveEnemy_moveBullet b :
  isActiveEnemy (moveBullet b) = true ->
  isActiveEnemy b = true /\ Bullet.y (moveBullet b) = Bullet.y b + 6.
Proof.
  unfold isActiveEnemy, moveBullet.
  destruct (Bullet.active b) eqn:Ea; destruct (Bullet.isPlayer b) eqn:Ep;
    simpl; rewrite ?Ea, ?Ep; simpl; try discriminate.
  intros _. split; reflexivity.
Qed.

Lemma low_moveBullets B bs : low B bs -> low (B + 6) (map moveBullet bs).
Proof.
  unfold low. induction 1 as [|b bs Hb _ IH]; simpl; constructor; [|exact IH].
  intro He. apply isActiveEnemy_moveBullet in He as [He ->].
  specialize (Hb He). lra.
Qed.

Lemma spaced_moveBullets bs : spaced bs -> spaced (map moveBullet bs).
Proof.
  induction bs as [|a r IH]; simpl; [trivial|].
  intros [Hf Hs]. split; [|auto].
  clear IH Hs. induction Hf as [|b r Hb _ IH]; simpl; constructor; [|exact IH].
  unfold trails in *. intros Ea Eb.
  apply isActiveEnemy_moveBullet in Ea as [Ea ->].
  apply isActiveEnemy_moveBullet in Eb as [Eb ->].
  specialize (Hb Ea Eb). lra.
Qed.

Lemma low_filter B f bs : low B bs -> low B (filter f bs).
Proof.
  unfold low. induction 1 as [|b bs Hb _ IH]; simpl; [constructor|].
  destruct (f b); [constructor|]; auto.
Qed.

Lemma spaced_filter f bs : spaced bs -> spaced (filter f bs).
Proof.
  induction bs as [|a r IH]; simpl; [trivial|].
  intros [Hf Hs]. destruct (f a); [|auto]. simpl. split; [|auto].
  clear IH Hs. induction Hf as [|b r Hb _ IH]; simpl; [constructor|].
  destruct (f b); [constructor|]; auto.
Qed.

Lemma low_weaken B B' bs : B' <= B -> low B bs -> low B' bs.
Proof.
  unfold low. intros HB H. eapply Forall_impl; [|exact H].
  simpl. intros b Hb He. specialize (Hb He). lra.
Qed.

Lemma low_app B bs b :
  low B bs -> (isActiveEnemy b = true -> B <= Bullet.y b) -> low B (bs ++ [b]).
Proof.
  unfold low. intros H Hb. apply Forall_app. split; [exact H|].
  constructor; [exact Hb|constructor].
Qed.

Lemma spaced_app bs b :
  spaced bs -> Forall (fun a => trails a b) bs -> spaced (bs ++ [b]).
Proof.
  induction bs as [|a r IH]; simpl; [auto|].
  intros [Hf Hs] Hall. inversion Hall; subst. split; [|auto].
  apply Forall_app. split; [exact Hf|]. constructor; [assumption|constructor].
Qed.

Lemma spaced_app_player bs b :
  spaced bs -> Bullet.isPlayer b = true -> spaced (bs ++ [b]).
Proof.
  intros H Hp. apply spaced_app; [exact H|].
  apply Forall_forall. intros a _ _ Eb.
  unfold isActiveEnemy in Eb. rewrite Hp in Eb. discriminate.
Qed.

Lemma rows_fade dy l l' : Forall2 invaderFade l l' -> rows dy l -> rows dy l'.
Proof.
  unfold rows. induction 1 as [|a a' l l' Ha _ IH]; intro H; [constructor|].
  inversion H; subst. constructor; [|auto].
  destruct Ha as (_ & -> & _ & _ & Hact). auto.
Qed.

(** ** At most one enemy bullet reaches the ship in a tick *)

Lemma hit_window b sh :
  Ship.y sh == 550 -> hitsShip b sh = true ->
  535 < Bullet.y b /\ Bullet.y b < 580.
Proof.
  intros Hy. unfold hitsShip, checkHit, SHIP_HEIGHT, BULLET_HEIGHT.
  rewrite !andb_true_iff, !Qltb_lt, !Qgtb_gt.
  intros [[_ H1] H2]. split; lra.
Qed.

Lemma isActiveEnemy_skip b :
  negb (Bullet.active b) || Bullet.isPlayer b = negb (isActiveEnemy b).
Proof.
  unfold isActiveEnemy. destruct (Bullet.active b), (Bullet.isPlayer b);
    reflexivity.
Qed.

Lemma enemyBullets_miss sh bs lv over :
  Forall (fun b => isActiveEnemy b = true -> hitsShip b sh = false) bs ->
  enemyBulletsVsShip sh bs lv over = (bs, lv, over).
Proof.
  induction 1 as [|b rest Hb _ IH]; simpl; [reflexivity|].
  rewrite isActiveEnemy_skip.
  destruct (isActiveEnemy b); simpl; [rewrite Hb by reflexivity|];
    rewrite IH; reflexivity.
Qed.

Lemma enemyBullets_once sh bs lv over :
  Ship.y sh == 550 -> spaced bs ->
  let '(_, lv', over') := enemyBulletsVsShip sh bs lv over in
  (lv' = lv /\ over' = over) \/
  (lv' = (lv - 1)%Z /\ over' = if (lv - 1 <=? 0)%Z then true else over).
Proof.
  intros Hy. induction bs as [|b rest IH]; simpl; intro Hsp; [auto|].
  destruct Hsp as [Htr Hsp]. rewrite isActiveEnemy_skip.
  destruct (isActiveEnemy b) eqn:Eb; simpl.
  - destruct (hitsShip b sh) eqn:Eh.
    + rewrite enemyBullets_miss; [right; auto|].
      eapply Forall_impl; [|exact Htr]. intros c Hc Ec.
      specialize (Hc Eb Ec).
      destruct (hit_window b sh Hy Eh) as [_ Hb].
      destruct (hitsShip c sh) eqn:Ech; [|reflexivity].
      destruct (hit_window c sh Hy Ech) as [Hc' _]. lra.
    + specialize (IH Hsp).
      destruct (enemyBulletsVsShip sh rest lv over) as [[rest' lv'] over'].
      exact IH.
  - specialize (IH Hsp).
    destruct (enemyBulletsVsShip sh rest lv over) as [[rest' lv'] over'].
    exact IH.
Qed.

Lemma lives_checkCollisions s :
  Ship.y (ship s) == 550 -> spaced (bullets s) ->
  (lives (checkCollisions s) = lives s /\
   gameOver (checkCollisions s) = gameOver s) \/
  (lives (checkCollisions s) = (lives s - 1)%Z /\
   gameOver (checkCollisions s) =
     if (lives s - 1 <=? 0)%Z then true else gameOver s).
Proof.
  intros Hy Hsp. rewrite checkCollisions_eq. simpl.
  pose proof (playerBulletsVsInvaders_spec (bullets s) (invaders s) (score s)) as HP.
  destruct (playerBulletsVsInvaders _ _ _) as [[bs1 invs1] sc1].
  destruct HP as (HP & _). simpl.
  pose proof (enemyBullets_once (ship s) bs1 (lives s) (gameOver s) Hy
                (spaced_fade _ _ HP Hsp)) as HE.
  destruct (enemyBulletsVsShip _ _ _ _) as [[bs2 lv2] over2]. exact HE.
Qed.

(** ** Which fields the later stages write *)

Lemma lives_sweepStep s : lives (sweepStep s) = lives s.
Proof. unfold sweepStep. destruct (_ =? _)%Z; reflexivity. Qed.

Lemma lives_animStep s : lives (animStep s) = lives s.
Proof. unfold animStep. destruct (_ =? _)%Z; reflexivity. Qed.

Lemma lives_fireStep r s : lives (fireStep r s) = lives s.
Proof.
  unfold fireStep, enemyShoot. destruct (_ =? _)%Z; [|reflexivity].
  destruct (Nat.eqb _ _); [reflexivity|].
  destruct (nth_error _ _); reflexivity.
Qed.

Lemma lives_winCheck s : lives (winCheck s) = lives s.
Proof. unfold winCheck. destruct (Nat.eqb _ _); reflexivity. Qed.

Lemma over_sweepStep s : gameOver (sweepStep s) = false -> gameOver s = false.
Proof.
  unfold sweepStep, moveInvaders. destruct (_ =? _)%Z; [|auto]. simpl.
  destruct (existsb _ _); [discriminate|auto].
Qed.

Lemma over_animStep s : gameOver (animStep s) = gameOver s.
Proof. unfold animStep. destruct (_ =? _)%Z; reflexivity. Qed.

Lemma over_fireStep r s : gameOver (fireStep r s) = gameOver s.
Proof.
  unfold fireStep, enemyShoot. destruct (_ =? _)%Z; [|reflexivity].
  destruct (Nat.eqb _ _); [reflexivity|].
  destruct (nth_error _ _); reflexivity.
Qed.

Lemma over_winCheck s : gameOver (winCheck s) = false -> gameOver s = false.
Proof. unfold winCheck. destruct (Nat.eqb _ _); [discriminate|auto]. Qed.

Lemma won_sweepStep s : won (sweepStep s) = won s.
Proof. unfold sweepStep. destruct (_ =? _)%Z; reflexivity. Qed.

Lemma won_animStep s : won (animStep s) = won s.
Proof. unfold animStep. destruct (_ =? _)%Z; reflexivity. Qed.

Lemma won_fireStep r s : won (fireStep r s) = won s.
Proof.
  unfold fireStep, enemyShoot. destruct (_ =? _)%Z; [|reflexivity].
  destruct (Nat.eqb _ _); [reflexivity|].
  destruct (nth_error _ _); reflexivity.
Qed.

Lemma won_checkCollisions s : won (checkCollisions s) = won s.
Proof. rewrite checkCollisions_eq. reflexivity. Qed.

Lemma noneActive_fade l l' :
  Forall2 invaderFade l l' ->
  filter Invader.active l = [] -> filter Invader.active l' = [].
Proof.
  induction 1 as [|a a' l l' Ha _ IH]; simpl; [auto|].
  destruct Ha as (_ & _ & _ & _ & Hact).
  destruct (Invader.active a) eqn:E; [discriminate|].
  destruct (Invader.active a') eqn:E'; [specialize (Hact eq_refl); discriminate|].
  exact IH.
Qed.

Lemma noneActive_flags l l' :
  map Invader.active l = map Invader.active l' ->
  filter Invader.active l = [] -> filter Invader.active l' = [].
Proof.
  revert l'. induction l as [|a l IH]; intros [|a' l'] H; simpl in *;
    try discriminate; [auto|].
  injection H as Ha Hl. rewrite <- Ha.
  destruct (Invader.active a); [discriminate|]. apply IH, Hl.
Qed.

Lemma flags_update r s :
  gameOver s = false ->
  map Invader.active (invaders (update r s)) =
  map Invader.active (invaders (checkCollisions (tickAndMoveBullets s))).
Proof.
  intro Hover. unfold update. rewrite Hover.
  rewrite invaders_cleanUp, invaders_winCheck, invaders_fireStep,
    flags_animStep, flags_sweepStep.
  reflexivity.
Qed.

Lemma vital_update r s :
  Ship.y (ship s) == 550 -> spaced (bullets s) -> vital s ->
  vital (update r s) /\
  (lives (update r s) = lives s \/ lives (update r s) = (lives s - 1)%Z).
Proof.
  intros Hy Hsp (H0 & H1 & Hw).
  destruct (gameOver s) eqn:Hover.
  { unfold update. rewrite Hover. repeat split; auto. congruence. }
  pose proof (flags_update r s Hover) as Hflags.
  unfold update in *. rewrite Hover in *.
  set (s1 := tickAndMoveBullets s) in *.
  set (mid := checkCollisions s1) in *.
  set (X := fireStep r (animStep (sweepStep mid))) in *.
  rewrite invaders_cleanUp, invaders_winCheck in Hflags.
  assert (Hl : lives (winCheck X) = lives mid).
  { unfold X. rewrite lives_winCheck, lives_fireStep, lives_animStep,
      lives_sweepStep. reflexivity. }
  assert (Ho : gameOver (winCheck X) = false -> gameOver mid = false).
  { intro H. apply over_winCheck in H. unfold X in H.
    rewrite over_fireStep, over_animStep in H. apply over_sweepStep, H. }
  assert (HC : (lives mid = lives s /\ gameOver mid = false) \/
               (lives mid = (lives s - 1)%Z /\
                gameOver mid = if (lives s - 1 <=? 0)%Z then true else false)).
  { destruct (lives_checkCollisions s1) as [[A B]|[A B]].
    - exact Hy.
    - apply spaced_moveBullets, Hsp.
    - left. split; [exact A|]. unfold mid. rewrite B. exact Hover.
    - right. split; [exact A|]. unfold mid. rewrite B. simpl.
      rewrite Hover. reflexivity. }
  specialize (H1 eq_refl).
  unfold vital.
  rewrite lives_cleanUp, over_cleanUp, won_cleanUp, invaders_cleanUp.
  rewrite Hl. split; [|destruct HC as [[-> _]|[-> _]]; auto].
  split; [|split].
  - destruct HC as [[-> _]|[-> _]]; lia.
  - intro Hfin. specialize (Ho Hfin).
    destruct HC as [[-> _]|[-> Hm]]; [lia|].
    rewrite Ho in Hm. destruct (Z.leb_spec (lives s - 1) 0); [discriminate|lia].
  - intro Hwon. unfold winCheck in *.
    destruct (Nat.eqb (length (filter Invader.active (invaders X))) 0) eqn:E.
    + apply Nat.eqb_eq, length_zero_iff_nil in E. exact E.
    + assert (Hws : won s = true).
      { unfold X in Hwon.
        rewrite won_fireStep, won_animStep, won_sweepStep in Hwon.
        unfold mid in Hwon. rewrite won_checkCollisions in Hwon. exact Hwon. }
      specialize (Hw Hws).
      apply (noneActive_flags (invaders mid)); [symmetry; exact Hflags|].
      eapply noneActive_fade; [apply (invaders_checkCollisions s1)|exact Hw].
Qed.

(** ** Enemy bullets keep their distance *)

Lemma phase_next (t : Z) :
  (0 <= t)%Z ->
  (0 <= Z.rem t 50 < 50)%Z /\
  Z.rem (t + 1) 50 = (if (Z.rem t 50 =? 49)%Z then 0 else Z.rem t 50 + 1)%Z /\
  (Z.rem (t + 1) 25 = 0%Z <-> Z.rem t 50 = 24%Z \/ Z.rem t 50 = 49%Z).
Proof.
  intro Ht. rewrite !Z.rem_mod_nonneg by lia.
  pose proof (Z.div_mod t 50 ltac:(lia)) as Hdm.
  pose proof (Z.mod_pos_bound t 50 ltac:(lia)) as Hb.
  set (k := (t mod 50)%Z) in *. set (q := (t / 50)%Z) in *.
  assert (H50 : ((t + 1) mod 50 = (k + 1) mod 50)%Z).
  { replace (t + 1)%Z with (k + 1 + q * 50)%Z by lia.
    apply Z_mod_plus_full. }
  assert (H25 : ((t + 1) mod 25 = (k + 1) mod 25)%Z).
  { replace (t + 1)%Z with (k + 1 + (2 * q) * 25)%Z by lia.
    apply Z_mod_plus_full. }
  rewrite H50, H25. split; [exact Hb|].
  destruct (Z.eqb_spec k 49) as [->|Hne].
  - split; [reflexivity|]. split; [lia|reflexivity].
  - split; [apply Z.mod_small; lia|].
    destruct (Z_lt_le_dec k 24) as [Hlt|Hge].
    + rewrite Z.mod_small by lia. lia.
    + replace (k + 1)%Z with (k - 24 + 1 * 25)%Z by lia.
      rewrite Z_mod_plus_full, Z.mod_small by lia. lia.
Qed.

Lemma bound_next (dy dy' : Q) (k : Z) :
  (0 <= k < 50)%Z -> dy <= dy' -> dy' <= dy + 25 ->
  (k <> 24%Z -> k <> 49%Z -> dy' == dy) ->
  bound dy' (if (k =? 49)%Z then 0 else k + 1) <= bound dy k + 6.
Proof.
  intros Hk H1 H2 H3. unfold bound.
  destruct (Z.eqb_spec k 49) as [->|H49].
  - change (0 <? 25)%Z with true. change (49 <? 25)%Z with false.
    change (inject_Z 0) with 0. change (inject_Z 49) with 49.
    cbv iota. lra.
  - destruct (Z.eq_dec k 24) as [->|H24].
    + change (24 + 1 <? 25)%Z with false. change (24 <? 25)%Z with true.
      change (inject_Z (24 + 1)) with 25. change (inject_Z 24) with 24.
      cbv iota. lra.
    + specialize (H3 H24 H49). rewrite inject_Z_plus.
      change (inject_Z 1) with 1.
      destruct (Z.ltb_spec (k + 1) 25); destruct (Z.ltb_spec k 25);
        try lia; lra.
Qed.

Lemma bound_0 dy : bound dy 0 == 90 + dy.
Proof.
  unfold bound. change (0 <? 25)%Z with true. change (inject_Z 0) with 0.
  cbv iota. lra.
Qed.

Lemma bound_49 dy : bound dy 49 + 6 == dy + 365.
Proof.
  unfold bound. change (49 <? 25)%Z with false. change (inject_Z 49) with 49.
  cbv iota. lra.
Qed.

Lemma rows_moveInvaders dy s :
  rows dy (invaders s) ->
  exists dy', rows dy' (invaders (moveInvaders s)) /\ dy <= dy' /\ dy' <= dy + 25.
Proof.
  intro H. unfold moveInvaders. simpl.
  destruct (existsb (hitsWall (invaderDirection s)) (invaders s)).
  - exists (dy + 25). split; [|split; lra].
    unfold rows in *. rewrite Forall_forall in *. intros i Hi.
    apply in_map_iff in Hi as (j & <- & Hj). specialize (H j Hj).
    rewrite moveInvader_active. intro Ha. specialize (H Ha).
    unfold moveInvader. rewrite Ha. simpl. lra.
  - exists dy. split; [|split; lra].
    unfold rows in *. rewrite Forall_forall in *. intros i Hi.
    apply in_map_iff in Hi as (j & <- & Hj). specialize (H j Hj).
    rewrite moveInvader_active. intro Ha. specialize (H Ha).
    unfold moveInvader. rewrite Ha. simpl. exact H.
Qed.

Lemma rows_sweepStep dy s :
  rows dy (invaders s) ->
  exists dy', rows dy' (invaders (sweepStep s)) /\ dy <= dy' /\ dy' <= dy + 25 /\
              (Z.rem (tick s) 25 <> 0%Z -> dy' == dy).
Proof.
  intro H. unfold sweepStep. destruct (Z.eqb_spec (Z.rem (tick s) 25) 0).
  - destruct (rows_moveInvaders dy s H) as (dy' & A & B & C).
    exists dy'. repeat split; auto. contradiction.
  - exists dy. repeat split; auto; lra.
Qed.

Lemma rows_animStep dy s : rows dy (invaders s) -> rows dy (invaders (animStep s)).
Proof.
  intro H. rewrite invaders_animStep. unfold rows in *.
  rewrite Forall_forall in *. intros i Hi.
  apply in_map_iff in Hi as (j & <- & Hj). specialize (H j Hj).
  unfold animOrNot, animate.
  destruct (_ =? _)%Z; [|exact H].
  destruct (Invader.active j) eqn:E; simpl; [|rewrite E]; auto.
Qed.

Lemma tick_sweepStep s : tick (sweepStep s) = tick s.
Proof. unfold sweepStep. destruct (_ =? _)%Z; reflexivity. Qed.

Lemma tick_animStep s : tick (animStep s) = tick s.
Proof. unfold animStep. destruct (_ =? _)%Z; reflexivity. Qed.

Lemma tick_fireStep r s : tick (fireStep r s) = tick s.
Proof.
  unfold fireStep, enemyShoot. destruct (_ =? _)%Z; [|reflexivity].
  destruct (Nat.eqb _ _); [reflexivity|].
  destruct (nth_error _ _); reflexivity.
Qed.

Lemma tick_winCheck s : tick (winCheck s) = tick s.
Proof. unfold winCheck. destruct (Nat.eqb _ _); reflexivity. Qed.

(** The enemy shot of a tick, if any, is fired on a multiple of 50 by an
    active invader. *)
Lemma fireStep_shooter r s :
  bullets (fireStep r s) = bullets s \/
  (Z.rem (tick s) 50 = 0%Z /\
   exists shooter, In shooter (invaders s) /\ Invader.active shooter = true /\
                   bullets (fireStep r s) = bullets s ++ [enemyBullet shooter]).
Proof.
  unfold fireStep. destruct (Z.eqb_spec (Z.rem (tick s) 50) 0);
    [|left; reflexivity].
  unfold enemyShoot. destruct (Nat.eqb _ _); [left; reflexivity|].
  destruct (nth_error _ _) as [sh|] eqn:E; [|left; reflexivity].
  right. split; [assumption|]. exists sh.
  apply nth_error_In, filter_In in E as [H1 H2]. auto.
Qed.

Lemma barrage_update r s : barrage s -> barrage (update r s).
Proof.
  intros (Ht & Hy & dy & Hrows & Hlow & Hsp).
  unfold update. destruct (gameOver s).
  { split; [exact Ht|]. split; [exact Hy|]. exists dy. auto. }
  set (s1 := tickAndMoveBullets s).
  set (mid := checkCollisions s1).
  set (s3 := sweepStep mid). set (s4 := animStep s3).
  set (s5 := fireStep r s4).
  assert (Htick : tick (winCheck s5) = (tick s + 1)%Z).
  { unfold s5, s4, s3, mid.
    rewrite tick_winCheck, tick_fireStep, tick_animStep, tick_sweepStep,
      tick_checkCollisions. reflexivity. }
  assert (Ht4 : tick s4 = (tick s + 1)%Z).
  { unfold s4, s3, mid.
    rewrite tick_animStep, tick_sweepStep, tick_checkCollisions. reflexivity. }
  assert (Htm : tick mid = (tick s + 1)%Z).
  { unfold mid. rewrite tick_checkCollisions. reflexivity. }
  destruct (phase_next (tick s) Ht) as (Hk & Hk' & H25).
  fold (phase s) in *. set (k := phase s) in *.
  (* the bullets after the collisions *)
  assert (Hfm : Forall2 bulletFade (map moveBullet (bullets s)) (bullets mid)).
  { apply (bullets_checkCollisions s1). }
  assert (Hlow_m : low (bound dy k + 6) (bullets mid)).
  { eapply low_fade; [exact Hfm|]. apply low_moveBullets, Hlow. }
  assert (Hsp_m : spaced (bullets mid)).
  { eapply spaced_fade; [exact Hfm|]. apply spaced_moveBullets, Hsp. }
  (* the rows after the sweep *)
  assert (Hrows_m : rows dy (invaders mid)).
  { eapply rows_fade; [|exact Hrows].
    apply (invaders_checkCollisions s1). }
  destruct (rows_sweepStep dy mid Hrows_m) as (dy' & Hrows3 & Hd1 & Hd2 & Hd3).
  fold s3 in Hrows3. rewrite Htm in Hd3.
  assert (Hrows4 : rows dy' (invaders s4)) by (apply rows_animStep, Hrows3).
  assert (Hb4 : bullets s4 = bullets mid).
  { unfold s4, s3. rewrite bullets_animStep, bullets_sweepStep. reflexivity. }
  assert (Hnext : bound dy' (if (k =? 49)%Z then 0 else k + 1) <= bound dy k + 6).
  { apply bound_next; auto. intros A B. apply Hd3. rewrite H25. lia. }
  unfold barrage, cleanUp, setBullets. cbn [tick ship invaders bullets].
  unfold phase. cbn [tick]. rewrite Htick, Hk'.
  split; [lia|]. split.
  { unfold s5, s4, s3, mid.
    rewrite ship_winCheck, ship_fireStep, ship_animStep, ship_sweepStep,
      ship_checkCollisions. exact Hy. }
  exists dy'. rewrite invaders_winCheck, bullets_winCheck.
  unfold s5 at 1. rewrite invaders_fireStep.
  split; [exact Hrows4|].
  destruct (fireStep_shooter r s4) as [Hb|(Hrem & sh & Hin & Hact & Hb)];
    fold s5 in Hb; rewrite Hb, Hb4.
  - split; [apply low_filter|apply spaced_filter, Hsp_m].
    eapply low_weaken; [exact Hnext|exact Hlow_m].
  - rewrite Ht4, Hk' in Hrem.
    destruct (Z.eqb_spec k 49) as [E49|E49]; [|lia].
    unfold rows in Hrows4. rewrite Forall_forall in Hrows4.
    destruct (Hrows4 sh Hin Hact) as [Hs1 Hs2].
    assert (Hbig : dy' + 340 <= bound dy k + 6).
    { rewrite E49, bound_49. lra. }
    split; [apply low_filter|apply spaced_filter].
    + apply low_app.
      * eapply low_weaken; [exact Hnext|exact Hlow_m].
      * intros _. rewrite bound_0.
        unfold enemyBullet, INVADER_HEIGHT. cbn [Bullet.y]. lra.
    + apply spaced_app; [exact Hsp_m|].
      unfold low in Hlow_m. eapply Forall_impl; [|exact Hlow_m].
      intros a Ha Ea _. specialize (Ha Ea).
      unfold enemyBullet, INVADER_HEIGHT. cbn [Bullet.y]. lra.
Qed.

(** ** What every reachable game satisfies *)

Lemma rowsb_sound invs : rowsb invs = true -> rows 0 invs.
Proof.
  unfold rowsb, rows. rewrite forallb_forall, Forall_forall.
  intros H i Hi Ha. specialize (H i Hi). rewrite Ha in H. simpl in H.
  apply andb_true_iff in H as [H1 H2]. apply Qleb_le in H1, H2. lra.
Qed.

Lemma sound_initial : sound createInitialState.
Proof.
  split.
  - split; [simpl; lia|]. split; [vm_compute; reflexivity|].
    exists 0. split; [|split]; [|constructor|exact I].
    apply rowsb_sound. vm_compute. reflexivity.
  - split; [simpl; lia|]. split; [simpl; lia|]. simpl. discriminate.
Qed.

Lemma sound_processInputState ks s : sound s -> sound (processInputState ks s).
Proof.
  intros [(Ht & Hy & dy & Hr & Hl & Hs) (H0 & H1 & Hw)].
  destruct (processInputState_fields ks s)
    as (Ei & _ & El & Eo & Ew & _ & Et & Ey).
  unfold sound, barrage, vital, phase.
  rewrite Ei, El, Eo, Ew, Et, Ey, bullets_processInputState.
  repeat split; auto. exists dy. auto.
Qed.

Lemma sound_shoot s : sound s -> sound (shoot s).
Proof.
  intros [(Ht & Hy & dy & Hr & Hl & Hs) HV].
  unfold shoot. destruct (Nat.leb _ _).
  { split; [|exact HV]. split; [exact Ht|]. split; [exact Hy|]. exists dy. auto. }
  split; [|exact HV]. unfold barrage, phase, setBullets.
  cbn [tick ship invaders bullets].
  split; [exact Ht|]. split; [exact Hy|]. exists dy.
  split; [exact Hr|]. split.
  - apply low_app; [exact Hl|]. unfold isActiveEnemy. simpl. discriminate.
  - apply spaced_app_player; [exact Hs|reflexivity].
Qed.

Lemma sound_update r s : sound s -> sound (update r s).
Proof.
  intros [HB HV]. split; [apply barrage_update, HB|].
  destruct HB as (_ & Hy & dy & _ & _ & Hs).
  apply (vital_update r s Hy Hs HV).
Qed.

Lemma sound_step g e : sound (state g) -> sound (state (step g e)).
Proof.
  intro H. destruct e as [k|k|due r|]; simpl.
  - unfold keydown. destruct (String.eqb k " "); simpl; [|exact H].
    destruct (gameOver (state g)); [exact H|]. apply sound_shoot, H.
  - exact H.
  - unfold gameLoop, processInput. destruct due; cbn [state keys].
    + apply sound_update, sound_processInputState, H.
    + apply sound_processInputState, H.
  - unfold start, gameLoop, processInput. cbn [state keys].
    apply sound_processInputState, sound_initial.
Qed.

Lemma reachable_sound g : reachable g -> sound (state g).
Proof.
  induction 1 as [|g e _ IH _]; [exact sound_initial|].
  apply sound_step, IH.
Qed.

Lemma lives_step g e :
  sound (state g) -> e <> Start ->
  lives (state (step g e)) = lives (state g) \/
  lives (state (step g e)) = (lives (state g) - 1)%Z.
Proof.
  intros H Hne. destruct e as [k|k|due r|]; simpl.
  - unfold keydown. destruct (String.eqb k " "); simpl; [|auto].
    destruct (gameOver (state g)); [auto|].
    unfold shoot. destruct (Nat.leb _ _); auto.
  - auto.
  - destruct (processInputState_fields (keys g) (state g))
      as (_ & _ & El & _).
    unfold gameLoop, processInput. destruct due; cbn [state keys];
      [|rewrite El; auto].
    pose proof (sound_processInputState (keys g) _ H) as [HB HV].
    destruct HB as (_ & Hy & dy & _ & _ & Hs).
    destruct (vital_update r _ Hy Hs HV) as [_ Hl]. rewrite El in Hl. exact Hl.
  - congruence.
Qed.

(** C4, as the code has it.  In every game the code can reach, lives is
    never negative, one event takes at most one life, and lives 0 means
    the game is over, with [won] unset as long as an invader is still
    active; once lives is 0 no event but [start] changes it. *)
Theorem lives_never_negative (g : Game) :
  reachable g ->
  (0 <= lives (state g))%Z /\
  (lives (state g) = 0%Z -> gameOver (state g) = true) /\
  (lives (state g) = 0%Z ->
   filter Invader.active (invaders (state g)) <> [] -> won (state g) = false) /\
  (forall e, e <> Start ->
     lives (state (step g e)) = lives (state g) \/
     lives (state (step g e)) = (lives (state g) - 1)%Z) /\
  (forall e, lives (state g) = 0%Z -> e <> Start ->
     lives (state (step g e)) = 0%Z).
Proof.
  intro Hr. pose proof (reachable_sound g Hr) as Hs.
  destruct Hs as [HB (H0 & H1 & Hw)].
  assert (Hover : lives (state g) = 0%Z -> gameOver (state g) = true).
  { intro Hz. destruct (gameOver (state g)); [reflexivity|].
    specialize (H1 eq_refl). lia. }
  split; [exact H0|]. split; [exact Hover|]. split; [|split].
  - intros _ Hact. destruct (won (state g)); [|reflexivity].
    exfalso. apply Hact, Hw. reflexivity.
  - intros e Hne. apply lives_step; [split; [exact HB|]|exact Hne].
    split; [exact H0|]. split; assumption.
  - intros e Hz Hne. rewrite (gameOver_step g e (Hover Hz) Hne). exact Hz.
Qed.

(** ** A game lost and won on the same tick *)

Lemma validEventb_sound es :
  forallb validEventb es = true -> Forall validEvent es.
Proof.
  rewrite forallb_forall, Forall_forall. intros H e He. specialize (H e He).
  destruct e; simpl in *; auto.
  apply andb_true_iff in H as [H1 H2].
  apply Qleb_le in H1. apply Qltb_lt in H2. auto.
Qed.

Lemma reachable_beforeLastTick : reachable beforeLastTick.
Proof.
  apply reachable_run; [|constructor].
  apply validEventb_sound. vm_compute. reflexivity.
Qed.

(** The draws of the scripted game are numbers [Math.random()] can
    return. *)
Lemma lastStand_draws :
  forallb drawIsBinary64 (Start :: script lastStand) = true.
Proof. vm_compute. reflexivity. Qed.

Lemma reachable_lostAndWon : reachable lostAndWon.
Proof.
  unfold lostAndWon. apply reach_step; [exact reachable_beforeLastTick|].
  split; [discriminate|reflexivity].
Qed.

(** C4, as the spec words it, fails on its last part.  From [start], by
    keys and ticks alone, the game reaches a tick that takes the last life
    and the last invader together: lives goes from 1 to 0 and the game is
    over with [won] set. *)
Lemma last_life_and_last_invader :
  reachable lostAndWon /\
  lives (state beforeLastTick) = 1%Z /\
  gameOver (state beforeLastTick) = false /\
  lives (state lostAndWon) = 0%Z /\
  gameOver (state lostAndWon) = true /\
  won (state lostAndWon) = true.
Proof.
  split; [exact reachable_lostAndWon|].
  split; [vm_compute; reflexivity|].
  split; [vm_compute; reflexivity|].
  split; [vm_compute; reflexivity|].
  split; vm_compute; reflexivity.
Qed.

Lemma lives_never_negative_witness :
  (0 <= lives (state lostAndWon))%Z /\
  (lives (state lostAndWon) = 0%Z -> gameOver (state lostAndWon) = true) /\
  (lives (state lostAndWon) = 0%Z ->
   filter Invader.active (invaders (state lostAndWon)) <> [] ->
   won (state lostAndWon) = false) /\
  (forall e, e <> Start ->
     lives (state (step lostAndWon e)) = lives (state lostAndWon) \/
     lives (state (step lostAndWon e)) = (lives (state lostAndWon) - 1)%Z) /\
  (forall e, lives (state lostAndWon) = 0%Z -> e <> Start ->
     lives (state (step lostAndWon e)) = 0%Z).
Proof. apply lives_never_negative. exact reachable_lostAndWon. Defined.

Lemma over_is_terminal_witness :
  state (step lostAndWon (KeyDown " ")) = state lostAndWon /\
  ship (state (step lostAndWon (KeyDown " "))) = ship (state lostAndWon) /\
  bullets (state (step lostAndWon (KeyDown " "))) = bullets (state lostAndWon).
Proof.
  apply (over_is_terminal lostAndWon (KeyDown " ")).
  - vm_compute. reflexivity.
  - discriminate.
Defined.

(** * Enemy fire *)

Lemma invaders_sweepStep s :
  invaders (sweepStep s) =
  map (sweepOrNot (tick s)
         (existsb (hitsWall (invaderDirection s)) (invaders s))
         (invaderDirection s))
      (invaders s).
Proof.
  unfold sweepStep, sweepOrNot. destruct (_ =? _)%Z; [reflexivity|].
  rewrite map_id. reflexivity.
Qed.

Lemma invaders_update r s :
  gameOver s = false ->
  let mid := checkCollisions (tickAndMoveBullets s) in
  invaders (update r s) =
  map (fun i => animOrNot (tick s + 1)
                  (sweepOrNot (tick s + 1)
                     (existsb (hitsWall (invaderDirection s)) (invaders mid))
                     (invaderDirection s) i))
      (invaders mid).
Proof.
  intro Hover. cbv zeta. unfold update. rewrite Hover.
  rewrite invaders_cleanUp, invaders_winCheck, invaders_fireStep,
    invaders_animStep, invaders_sweepStep, map_map.
  rewrite tick_sweepStep, tick_checkCollisions, dir_checkCollisions.
  reflexivity.
Qed.

(** ** binary64 rounding *)

Lemma two_pos (e : Z) : 0 < 2 ^ e.
Proof. apply Qpower_0_lt. reflexivity. Qed.

Lemma two_mono (n m : Z) : (n <= m)%Z -> 2 ^ n <= 2 ^ m.
Proof. intro H. apply Qpower_le_compat_l; [exact H|discriminate]. Qed.

Lemma two_plus (n m : Z) : 2 ^ (n + m) == 2 ^ n * 2 ^ m.
Proof. apply Qpower_plus. discriminate. Qed.

Lemma two_inject (n : Z) : (0 <= n)%Z -> 2 ^ n == inject_Z (2 ^ n).
Proof. intro H. rewrite Zpower_Qpower by exact H. reflexivity. Qed.

Lemma num_times_den (q : Q) : q * inject_Z (Zpos (Qden q)) == inject_Z (Qnum q).
Proof.
  destruct q as [a d]. cbn [Qnum Qden]. rewrite (Qmake_Qdiv a d).
  field. discriminate.
Qed.

Lemma ilog2_spec (q : Q) :
  0 < q -> 2 ^ ilog2 q <= q /\ q < 2 ^ (ilog2 q + 1).
Proof.
  intro Hq.
  assert (Ha : (0 < Qnum q)%Z).
  { destruct q as [a d]. unfold Qlt in Hq. simpl in *. lia. }
  set (a := Qnum q) in *. set (d := Zpos (Qden q)).
  assert (Hd : (0 < d)%Z) by (unfold d; lia).
  destruct (Z.log2_spec a Ha) as [La Ua].
  destruct (Z.log2_spec d Hd) as [Ld Ud].
  pose proof (Z.log2_nonneg a) as Na. pose proof (Z.log2_nonneg d) as Nd.
  pose proof (num_times_den q) as Hqd. fold a d in Hqd.
  assert (Hup : q < 2 ^ (Z.log2 a - Z.log2 d + 1)).
  { replace (Z.log2 a - Z.log2 d + 1)%Z with (Z.succ (Z.log2 a) + - Z.log2 d)%Z
      by lia.
    rewrite two_plus, Qpower_opp.
    apply Qlt_shift_div_l; [apply two_pos|].
    rewrite !two_inject by lia.
    apply Qle_lt_trans with (q * inject_Z d).
    - apply Qmult_le_l; [exact Hq|]. rewrite <- Zle_Qle. exact Ld.
    - rewrite Hqd, <- Zlt_Qlt. exact Ua. }
  assert (Hlo : 2 ^ (Z.log2 a - Z.log2 d - 1) <= q).
  { replace (Z.log2 a - Z.log2 d - 1)%Z with (Z.log2 a + - Z.succ (Z.log2 d))%Z
      by lia.
    rewrite two_plus, Qpower_opp.
    apply Qle_shift_div_r; [apply two_pos|].
    rewrite !two_inject by lia.
    apply Qle_trans with (q * inject_Z d).
    - rewrite Hqd, <- Zle_Qle. exact La.
    - apply Qmult_le_l; [exact Hq|]. rewrite <- Zle_Qle. lia. }
  unfold ilog2. fold a d.
  destruct (Qle_bool (2 ^ (Z.log2 a - Z.log2 d)) q) eqn:E.
  - apply Qle_bool_iff in E. split; assumption.
  - split; [exact Hlo|].
    replace (Z.log2 a - Z.log2 d - 1 + 1)%Z with (Z.log2 a - Z.log2 d)%Z by lia.
    apply Qnot_le_lt. intro H. apply Qle_bool_iff in H. congruence.
Qed.

Lemma roundHalfEven_spec (x : Q) :
  x - (1 # 2) <= inject_Z (roundHalfEven x) /\
  inject_Z (roundHalfEven x) <= x + (1 # 2).
Proof.
  pose proof (Qfloor_le x) as Hlo. pose proof (Qlt_floor x) as Hhi.
  rewrite inject_Z_plus in Hhi. change (inject_Z 1) with 1 in Hhi.
  unfold roundHalfEven.
  destruct (Qcompare (x - inject_Z (Qfloor x)) (1 # 2)) eqn:E.
  - apply Qeq_alt in E.
    destruct (Z.even (Qfloor x)); rewrite ?inject_Z_plus;
      change (inject_Z 1) with 1; split; lra.
  - apply Qlt_alt in E. split; lra.
  - apply Qgt_alt in E. rewrite inject_Z_plus. change (inject_Z 1) with 1.
    split; lra.
Qed.

Lemma fl64_positive (q : Q) :
  0 < q -> fl64 q = inject_Z (roundHalfEven (q / 2 ^ lastDigit q)) * 2 ^ lastDigit q.
Proof.
  intro H. unfold fl64. apply Qgt_alt in H. rewrite H. reflexivity.
Qed.

Lemma fl64_zero (q : Q) : q == 0 -> fl64 q = 0.
Proof. intro H. unfold fl64. apply Qeq_alt in H. rewrite H. reflexivity. Qed.

(** The largest binary64 number below 1 is 1 - 2^-53. *)
Lemma binary64_below_one (r : Q) :
  isBinary64 r = true -> r < 1 -> r <= 1 - (1 # 9007199254740992).
Proof.
  intros Hb H1. destruct (Qlt_le_dec r (1 # 2)) as [Hs|Hl]; [lra|].
  assert (H0 : 0 < r) by lra.
  apply Qeq_bool_iff in Hb. rewrite (fl64_positive r H0) in Hb.
  destruct (ilog2_spec r H0) as [L U].
  assert (E : ilog2 r = (-1)%Z).
  { destruct (Z_lt_le_dec (ilog2 r) 0) as [Hn|Hp].
    - destruct (Z_lt_le_dec (ilog2 r) (-1)) as [Hm|Hm]; [|lia].
      exfalso. assert (2 ^ (ilog2 r + 1) <= 2 ^ (-1)) by (apply two_mono; lia).
      change (2 ^ (-1)) with (1 # 2) in H. lra.
    - exfalso. assert (2 ^ 0 <= 2 ^ ilog2 r) by (apply two_mono; lia).
      change (2 ^ 0) with 1 in H. lra. }
  unfold lastDigit in Hb. rewrite E in Hb.
  change (Z.max (-1) (-1022) - 52)%Z with (-53)%Z in Hb.
  change (2 ^ (-53)) with (1 # 9007199254740992) in Hb.
  set (K := roundHalfEven (r / (1 # 9007199254740992))) in *.
  assert (HK : inject_Z K < inject_Z 9007199254740992).
  { change (inject_Z 9007199254740992) with 9007199254740992. lra. }
  rewrite <- Zlt_Qlt in HK.
  assert (HK' : inject_Z K <= inject_Z 9007199254740991).
  { rewrite <- Zle_Qle. lia. }
  change (inject_Z 9007199254740991) with 9007199254740991 in HK'.
  lra.
Qed.

(** [Math.floor(Math.random() * n)] is an index below [n]. *)
Lemma draw_index (r : Q) (n : nat) :
  isBinary64 r = true -> 0 <= r -> r < 1 ->
  (0 < n)%nat -> (Z.of_nat n <= 2 ^ 53)%Z ->
  (Z.to_nat (Qfloor (fl64 (r * ofNat n))) < n)%nat.
Proof.
  intros Hb H0 H1 Hn Hmax.
  assert (Hn1 : 1 <= ofNat n).
  { unfold ofNat. change 1 with (inject_Z 1). rewrite <- Zle_Qle. lia. }
  assert (Hn53 : ofNat n <= 9007199254740992).
  { unfold ofNat. change 9007199254740992 with (inject_Z (2 ^ 53)).
    rewrite <- Zle_Qle. exact Hmax. }
  destruct (Qlt_le_dec 0 r) as [Hr|Hr].
  2: { assert (E : r * ofNat n == 0) by (assert (r == 0) by lra; nra).
       rewrite (fl64_zero _ E). simpl. exact Hn. }
  pose proof (binary64_below_one r Hb H1) as Hr1.
  set (q := r * ofNat n).
  assert (Hq0 : 0 < q) by (unfold q; nra).
  assert (Hqn : q + ofNat n * (1 # 9007199254740992) <= ofNat n)
    by (unfold q; nra).
  destruct (ilog2_spec q Hq0) as [L _].
  rewrite (fl64_positive q Hq0). unfold lastDigit.
  set (e := Z.max (ilog2 q) (-1022)).
  assert (He : (e <= 52)%Z).
  { assert (Hlt : 2 ^ ilog2 q < 2 ^ 53).
    { change (2 ^ 53) with 9007199254740992. lra. }
    apply Qpower_lt_compat_l_inv in Hlt; [|reflexivity]. unfold e. lia. }
  assert (HP : 2 ^ e < ofNat n).
  { unfold e. destruct (Z.max_spec (ilog2 q) (-1022)) as [[_ ->]|[_ ->]].
    - change (2 ^ (-1022)) with (Qpower 2 (-1022)).
      assert (2 ^ (-1022) <= 2 ^ (-1)) by (apply two_mono; lia).
      change (2 ^ (-1)) with (1 # 2) in H. lra.
    - lra. }
  set (M := (2 ^ (52 - e))%Z).
  assert (HM : 2 ^ (e - 52) * inject_Z M == 1).
  { unfold M. rewrite <- two_inject by lia. rewrite <- two_plus.
    replace (e - 52 + (52 - e))%Z with 0%Z by lia. reflexivity. }
  assert (HMP : inject_Z M * 2 ^ e == 4503599627370496).
  { unfold M. rewrite <- two_inject by lia. rewrite <- two_plus.
    replace (52 - e + e)%Z with 52%Z by lia. reflexivity. }
  pose proof (two_pos (e - 52)) as Hu. pose proof (two_pos e) as HPpos.
  set (u := 2 ^ (e - 52)) in *. set (P := 2 ^ e) in *.
  assert (HMpos : 0 < inject_Z M) by nra.
  assert (Hdiv : q / u == q * inject_Z M).
  { unfold Qdiv. apply Qmult_comp; [reflexivity|].
    apply Qmult_inj_l with u; [lra|]. rewrite Qmult_inv_r by lra.
    symmetry. exact HM. }
  destruct (roundHalfEven_spec (q / u)) as [Klo Khi].
  set (K := roundHalfEven (q / u)) in *. rewrite Hdiv in Klo, Khi.
  assert (Hgap : (1 # 2) < (ofNat n - q) * inject_Z M).
  { apply Qmult_lt_r with P; [exact HPpos|].
    rewrite <- Qmult_assoc, HMP. nra. }
  assert (HKn : inject_Z K < inject_Z (Z.of_nat n * M)).
  { rewrite inject_Z_mult. fold (ofNat n). nra. }
  rewrite <- Zlt_Qlt in HKn.
  assert (HK0 : (0 <= K)%Z).
  { assert (inject_Z (-1) < inject_Z K).
    { change (inject_Z (-1)) with (-1). nra. }
    rewrite <- Zlt_Qlt in H. lia. }
  assert (HK1 : inject_Z (K + 1) <= inject_Z (Z.of_nat n * M)).
  { rewrite <- Zle_Qle. lia. }
  rewrite inject_Z_plus, inject_Z_mult in HK1. fold (ofNat n) in HK1.
  change (inject_Z 1) with 1 in HK1.
  assert (Hfl : inject_Z K * u < ofNat n).
  { apply Qmult_lt_r with (inject_Z M); [exact HMpos|].
    rewrite <- Qmult_assoc, HM. nra. }
  assert (Hfl0 : 0 <= inject_Z K * u).
  { apply Qmult_le_0_compat; [|lra].
    change 0 with (inject_Z 0). rewrite <- Zle_Qle. exact HK0. }
  assert (Hlo : (0 <= Qfloor (inject_Z K * u))%Z).
  { change 0%Z with (Qfloor 0). apply Qfloor_resp_le. exact Hfl0. }
  assert (Hhi : (Qfloor (inject_Z K * u) < Z.of_nat n)%Z).
  { apply Z.lt_nge. intro Hge.
    pose proof (Qfloor_le (inject_Z K * u)) as Hf.
    rewrite Zle_Qle in Hge. fold (ofNat n) in Hge. lra. }
  lia.
Qed.

(** Rounding matters: for the binary64 number nearest to 1/55 and 55
    active invaders the exact product is below 1, the binary64 product
    is 1, and the code fires from index 1. *)
Lemma draw_rounds_up :
  let r := 2620276146833743 # 144115188075855872 in
  isBinary64 r = true /\ Qfloor (r * ofNat 55) = 0%Z /\
  Qfloor (fl64 (r * ofNat 55)) = 1%Z.
Proof. vm_compute. auto. Qed.

(** C7, as the code has it.  The bullet of a shooter starts at the
    bottom centre of its box.  When [Math.random()] returns the binary64
    number [r] in [0, 1) and [n] invaders are active, [enemyShoot] appends
    the bullet of the active invader at index floor(fl64(r * n)) in grid
    order, which is an index below [n].  On a tick of a running game that
    is a multiple of 50 and leaves an invader active, exactly this bullet
    is appended to the bullets that survive the tick; on any other tick
    none is appended, and on a tick that is not a multiple of 50 the draw
    has no effect at all. *)
Theorem enemy_fire_follows_draw :
  (forall shooter : Invader.t,
     Bullet.x (enemyBullet shooter) == Invader.x shooter + 17 /\
     Bullet.y (enemyBullet shooter) == Invader.y shooter + 30 /\
     Bullet.active (enemyBullet shooter) = true /\
     Bullet.isPlayer (enemyBullet shooter) = false) /\
  (forall (r : Q) (s : GameState),
     isBinary64 r = true -> 0 <= r -> r < 1 ->
     (Z.of_nat (length (invaders s)) < 2 ^ 32)%Z ->
     let activeInvaders := filter Invader.active (invaders s) in
     activeInvaders <> [] ->
     exists shooter,
       nth_error activeInvaders
         (Z.to_nat (Qfloor (fl64 (r * ofNat (length activeInvaders)))))
       = Some shooter /\
       enemyShoot r s = setBullets s (bullets s ++ [enemyBullet shooter])) /\
  (forall (r : Q) (s : GameState),
     isBinary64 r = true -> 0 <= r -> r < 1 ->
     (Z.of_nat (length (invaders s)) < 2 ^ 32)%Z ->
     gameOver s = false ->
     let mid := checkCollisions (tickAndMoveBullets s) in
     let s' := update r s in
     let activeInvaders := filter Invader.active (invaders s') in
     (Z.rem (tick s + 1) 50 = 0%Z -> activeInvaders <> [] ->
      exists shooter,
        nth_error activeInvaders
          (Z.to_nat (Qfloor (fl64 (r * ofNat (length activeInvaders)))))
        = Some shooter /\
        bullets s' =
        filter Bullet.active (bullets mid) ++ [enemyBullet shooter]) /\
     (Z.rem (tick s + 1) 50 <> 0%Z \/ activeInvaders = [] ->
      bullets s' = filter Bullet.active (bullets mid))) /\
  (forall (r1 r2 : Q) (s : GameState),
     Z.rem (tick s + 1) 50 <> 0%Z -> update r1 s = update r2 s).
Proof.
  assert (Hshoot : forall (r : Q) (s : GameState),
     isBinary64 r = true -> 0 <= r -> r < 1 ->
     (Z.of_nat (length (invaders s)) < 2 ^ 32)%Z ->
     filter Invader.active (invaders s) <> [] ->
     exists shooter,
       nth_error (filter Invader.active (invaders s))
         (Z.to_nat (Qfloor (fl64 (r * ofNat (length
            (filter Invader.active (invaders s)))))))
       = Some shooter /\
       enemyShoot r s = setBullets s (bullets s ++ [enemyBullet shooter])).
  { intros r s Hb H0 H1 Hlen Hne.
    set (act := filter Invader.active (invaders s)) in *.
    assert (Hpos : (0 < length act)%nat).
    { destruct act; [congruence|simpl; lia]. }
    assert (Hmax : (Z.of_nat (length act) <= 2 ^ 53)%Z).
    { pose proof (filter_length_le Invader.active (invaders s)) as Hle.
      fold act in Hle.
      assert ((2 ^ 32 <= 2 ^ 53)%Z) by (apply Z.pow_le_mono_r; lia).
      lia. }
    pose proof (draw_index r (length act) Hb H0 H1 Hpos Hmax) as Hk.
    destruct (nth_error act
                (Z.to_nat (Qfloor (fl64 (r * ofNat (length act))))))
      as [shooter|] eqn:E.
    - exists shooter. split; [reflexivity|].
      unfold enemyShoot. fold act.
      destruct (Nat.eqb (length act) 0) eqn:E0.
      + apply Nat.eqb_eq in E0. lia.
      + rewrite E. reflexivity.
    - apply nth_error_None in E. lia. }
  split.
  { intro shooter. unfold enemyBullet, INVADER_WIDTH, INVADER_HEIGHT,
      BULLET_WIDTH. cbn [Bullet.x Bullet.y Bullet.active Bullet.isPlayer].
    split; [field|]. split; [reflexivity|]. split; reflexivity. }
  split; [intros r s Hb H0 H1 Hlen; cbv zeta; apply Hshoot; assumption|].
  split.
  - intros r s Hb H0 H1 Hlen Hover. cbv zeta.
    set (mid := checkCollisions (tickAndMoveBullets s)).
    set (s4 := animStep (sweepStep mid)).
    assert (Hinv : invaders (update r s) = invaders s4).
    { unfold update. rewrite Hover.
      rewrite invaders_cleanUp, invaders_winCheck, invaders_fireStep.
      reflexivity. }
    assert (Hbul : bullets (update r s) =
                   filter Bullet.active (bullets (fireStep r s4))).
    { unfold update. rewrite Hover.
      rewrite bullets_cleanUp, bullets_winCheck. reflexivity. }
    assert (Hb4 : bullets s4 = bullets mid).
    { unfold s4. rewrite bullets_animStep, bullets_sweepStep. reflexivity. }
    assert (Ht4 : tick s4 = (tick s + 1)%Z).
    { unfold s4, mid. rewrite tick_animStep, tick_sweepStep,
        tick_checkCollisions. reflexivity. }
    assert (Hl4 : length (invaders s4) = length (invaders s)).
    { rewrite <- Hinv, (invaders_update r s Hover). cbv zeta.
      rewrite length_map. symmetry.
      apply (Forall2_length
               (proj1 (invaders_checkCollisions (tickAndMoveBullets s)))). }
    rewrite Hinv, Hbul. unfold fireStep. rewrite Ht4. split.
    + intros Hrem Hne. rewrite Hrem. cbn [Z.eqb].
      destruct (Hshoot r s4 Hb H0 H1) as (shooter & Hn & Hs);
        [rewrite Hl4; exact Hlen|exact Hne|].
      exists shooter. split; [exact Hn|].
      rewrite Hs. cbn [bullets setBullets]. rewrite Hb4, filter_app.
      reflexivity.
    + intros [Hrem|Hnone].
      * destruct (Z.eqb_spec (Z.rem (tick s + 1) 50) 0); [contradiction|].
        rewrite Hb4. reflexivity.
      * destruct (Z.rem (tick s + 1) 50 =? 0)%Z; [|rewrite Hb4; reflexivity].
        unfold enemyShoot. rewrite Hnone. cbn [length Nat.eqb].
        rewrite Hb4. reflexivity.
  - intros r1 r2 s Hrem. unfold update. destruct (gameOver s); [reflexivity|].
    assert (Hf : forall t, tick t = (tick s + 1)%Z ->
                           fireStep r1 t = fireStep r2 t).
    { intros t Ht. unfold fireStep. rewrite Ht.
      destruct (Z.eqb_spec (Z.rem (tick s + 1) 50) 0); [contradiction|].
      reflexivity. }
    rewrite Hf; [reflexivity|].
    rewrite tick_animStep, tick_sweepStep, tick_checkCollisions. reflexivity.
Qed.

(** The 50th tick of an unattended game with the draw 1/2: 55 invaders are
    active, floor(fl64(27.5)) is 27, and the bullet of that invader is
    appended. *)
Lemma enemy_fire_follows_draw_witness :
  let s := state beforeFirstShot in
  let mid := checkCollisions (tickAndMoveBullets s) in
  let s' := update (1 # 2) s in
  let activeInvaders := filter Invader.active (invaders s') in
  exists shooter,
    nth_error activeInvaders
      (Z.to_nat (Qfloor (fl64 ((1 # 2) * ofNat (length activeInvaders)))))
    = Some shooter /\
    bullets s' = filter Bullet.active (bullets mid) ++ [enemyBullet shooter].
Proof.
  cbv zeta.
  apply (proj1 (proj1 (proj2 (proj2 enemy_fire_follows_draw))
                  (1 # 2) (state beforeFirstShot)
                  ltac:(vm_compute; reflexivity)
                  ltac:(discriminate) ltac:(reflexivity)
                  ltac:(vm_compute; reflexivity)
                  ltac:(vm_compute; reflexivity))).
  - vm_compute. reflexivity.
  - vm_compute. discriminate.
Defined.

(** C7, as the spec words it, fails: from one and the same game, on the
    50th tick, the draws 0 and 1/2 fire from different invaders and leave
    different bullet lists. *)
Lemma enemy_fire_not_from_state_alone :
  isBinary64 0 = true /\ isBinary64 (1 # 2) = true /\
  (Z.rem (tick (state beforeFirstShot) + 1) 50 = 0)%Z /\
  validEvent (Frame true 0) /\ validEvent (Frame true (1 # 2)) /\
  bullets (state (step beforeFirstShot (Frame true 0))) <>
  bullets (state (step beforeFirstShot (Frame true (1 # 2)))).
Proof.
  split; [vm_compute; reflexivity|].
  split; [vm_compute; reflexivity|].
  split; [vm_compute; reflexivity|].
  split; [vm_compute; split; [discriminate|reflexivity]|].
  split; [vm_compute; split; [discriminate|reflexivity]|].
  vm_compute. discriminate.
Qed.

(** * More of the game *)

(** ** Induction over the states a run goes through *)

Lemma reachable_state_ind (P : GameState -> Prop) :
  P createInitialState ->
  (forall ks s, P s -> P (processInputState ks s)) ->
  (forall s, P s -> gameOver s = false -> P (shoot s)) ->
  (forall r s, P s -> gameOver s = false -> P (update r s)) ->
  forall g, reachable g -> P (state g).
Proof.
  intros Hinit Hin Hshoot Hup g Hr.
  induction Hr as [|g e _ IH _]; [exact Hinit|].
  destruct e as [k|k|due r|]; simpl.
  - unfold keydown. destruct (String.eqb k " "); simpl; [|exact IH].
    destruct (gameOver (state g)) eqn:E; [exact IH|]. apply Hshoot; assumption.
  - exact IH.
  - unfold gameLoop, processInput. destruct due; cbn [state keys].
    + destruct (gameOver (processInputState (keys g) (state g))) eqn:E.
      * unfold update. rewrite E. apply Hin, IH.
      * apply Hup; [apply Hin, IH|exact E].
    + apply Hin, IH.
  - unfold start, gameLoop, processInput. cbn [state keys].
    apply Hin, Hinit.
Qed.

Lemma evolves_tick t d dir i : evolves i (animOrNot t (sweepOrNot t d dir i)).
Proof.
  unfold evolves, animOrNot, sweepOrNot, animate, moveInvader.
  destruct (Z.rem t 15 =? 0)%Z; destruct (Z.rem t 25 =? 0)%Z;
    destruct (Invader.active i) eqn:E; destruct d; simpl; rewrite ?E; simpl;
    auto.
Qed.

Lemma evolves_after_fade l l1 (f : Invader.t -> Invader.t) :
  Forall2 invaderFade l l1 -> (forall i, evolves i (f i)) ->
  Forall2 evolves l (map f l1).
Proof.
  intros H Hf. induction H as [|a b l l1 Hab _ IH]; simpl; constructor;
    [|exact IH].
  destruct Hab as (_ & _ & Ht & Hfr & Ha).
  destruct (Hf b) as (Ht' & Ha' & Hfr').
  unfold evolves. rewrite Ht', Ht, <- Hfr. auto.
Qed.

Lemma evolves_refl i : evolves i i.
Proof. unfold evolves. auto. Qed.

Lemma evolves_update r s : Forall2 evolves (invaders s) (invaders (update r s)).
Proof.
  destruct (gameOver s) eqn:Hover.
  - unfold update. rewrite Hover. apply Forall2_refl, evolves_refl.
  - rewrite (invaders_update r s Hover).
    apply evolves_after_fade.
    + apply (invaders_checkCollisions (tickAndMoveBullets s)).
    + intro i. apply evolves_tick.
Qed.

Lemma evolves_step g e :
  e <> Start -> Forall2 evolves (invaders (state g)) (invaders (state (step g e))).
Proof.
  intro Hne. destruct e as [k|k|due r|]; simpl.
  - unfold keydown. destruct (String.eqb k " "); simpl;
      [destruct (gameOver (state g))|]; rewrite ?invaders_shoot;
      apply Forall2_refl, evolves_refl.
  - apply Forall2_refl, evolves_refl.
  - destruct (processInputState_fields (keys g) (state g)) as (Hi & _).
    unfold gameLoop, processInput. destruct due; cbn [state keys].
    + rewrite <- Hi at 1. apply evolves_update.
    + rewrite Hi. apply Forall2_refl, evolves_refl.
  - congruence.
Qed.

(** ** The grid is never resized *)

Lemma gridKept_evolves s s' :
  Forall2 evolves (invaders s) (invaders s') -> gridKept s -> gridKept s'.
Proof.
  intros H (Hlen & Hty & Hfr). unfold gridKept.
  rewrite <- Hlen, <- Hty. clear Hlen Hty.
  induction H as [|a b l l' (Ht & _ & Hf) _ IH]; simpl.
  - repeat split. constructor.
  - inversion Hfr as [|? ? Ha Hl]; subst.
    destruct (IH Hl) as (H1 & H2 & H3).
    split; [congruence|]. split; [congruence|].
    constructor; [|exact H3].
    destruct Hf as [->| ->]; [exact Ha|].
    destruct Ha as [-> | ->]; simpl; auto.
Qed.

Lemma gridKept_initial : gridKept createInitialState.
Proof.
  split; [reflexivity|]. split; [reflexivity|].
  apply Forall_forall. intros i Hi.
  assert (H : forallb (fun i => (Invader.animFrame i =? 0)%Z)
                (invaders createInitialState) = true) by (vm_compute; reflexivity).
  rewrite forallb_forall in H. left. apply Z.eqb_eq, H, Hi.
Qed.

Lemma reachable_gridKept g : reachable g -> gridKept (state g).
Proof.
  apply reachable_state_ind.
  - exact gridKept_initial.
  - intros ks s H. destruct (processInputState_fields ks s) as (Hi & _).
    unfold gridKept. rewrite Hi. exact H.
  - intros s H _. unfold gridKept. rewrite invaders_shoot. exact H.
  - intros r s H _. eapply gridKept_evolves; [apply evolves_update|exact H].
Qed.

(** X1.  The grid is allocated once: in every reachable game there are 55
    invaders and each keeps the type of its cell; no event but [start]
    changes an invader's type or brings an inactive invader back. *)
Theorem grid_is_fixed :
  (forall g, reachable g ->
     length (invaders (state g)) = 55%nat /\
     map Invader.type (invaders (state g)) =
     map Invader.type (invaders createInitialState)) /\
  (forall g e, e <> Start ->
     Forall2 (fun i i' => Invader.type i' = Invader.type i /\
                          (Invader.active i' = true -> Invader.active i = true))
             (invaders (state g)) (invaders (state (step g e)))).
Proof.
  split.
  - intros g Hr. destruct (reachable_gridKept g Hr) as (H1 & H2 & _). auto.
  - intros g e Hne. eapply Forall2_impl; [|apply (evolves_step g e Hne)].
    intros a b (H1 & H2 & _). auto.
Qed.

Lemma grid_is_fixed_witness :
  length (invaders (state beforeFirstKill)) = 55%nat /\
  map Invader.type (invaders (state beforeFirstKill)) =
  map Invader.type (invaders createInitialState).
Proof. apply (proj1 grid_is_fixed). exact reachable_beforeFirstKill. Defined.

(** X2.  The animation frame of every invader is 0 or 1 and the sweep
    direction is 1 or -1, in every reachable game. *)
Theorem frames_and_direction_in_range (g : Game) :
  reachable g ->
  Forall (fun i => Invader.animFrame i = 0%Z \/ Invader.animFrame i = 1%Z)
         (invaders (state g)) /\
  (invaderDirection (state g) == 1 \/ invaderDirection (state g) == -1).
Proof.
  intro Hr. split.
  - apply (reachable_gridKept g Hr).
  - apply (reachable_formation g Hr).
Qed.

Lemma frames_and_direction_in_range_witness :
  Forall (fun i => Invader.animFrame i = 0%Z \/ Invader.animFrame i = 1%Z)
         (invaders (state beforeFirstSweep)) /\
  (invaderDirection (state beforeFirstSweep) == 1 \/
   invaderDirection (state beforeFirstSweep) == -1).
Proof.
  apply frames_and_direction_in_range. exact reachable_beforeFirstSweep.
Defined.

(** ** The score and the points still on the board *)

Lemma activePoints_evolves l l' :
  Forall2 evolves l l' ->
  activePoints l = (activePoints l' + sumZ (killedPoints l l'))%Z.
Proof.
  unfold activePoints.
  induction 1 as [|a b l l' (Ht & Ha & _) _ IH]; simpl; [reflexivity|].
  destruct (Invader.active a) eqn:Ea; destruct (Invader.active b) eqn:Eb;
    simpl; rewrite ?Ht;
    try (specialize (Ha eq_refl); discriminate); lia.
Qed.

Lemma activePoints_nonneg l : (0 <= activePoints l)%Z.
Proof.
  unfold activePoints. induction l as [|i l IH]; simpl; [lia|].
  destruct (Invader.active i); simpl; [|exact IH].
  destruct (points_tier (Invader.type i)) as [H|[H|H]]; lia.
Qed.

Lemma reachable_ledgerBalanced g : reachable g -> ledgerBalanced (state g).
Proof.
  apply reachable_state_ind; unfold ledgerBalanced.
  - vm_compute. reflexivity.
  - intros ks s H. destruct (processInputState_fields ks s) as (Hi & Hs & _).
    rewrite Hi, Hs. exact H.
  - intros s H _. rewrite invaders_shoot, score_shoot. exact H.
  - intros r s H _. rewrite score_update.
    rewrite (activePoints_evolves _ _ (evolves_update r s)) in H. lia.
Qed.

(** X3.  In every reachable game the score and the points of the invaders
    still active add up to 990, the value of the full grid: the score is
    exactly the value of the invaders shot, never above 990, and a game
    that is won has score 990. *)
Theorem score_accounts_for_kills (g : Game) :
  reachable g ->
  (score (state g) + activePoints (invaders (state g)) = 990)%Z /\
  (0 <= score (state g) <= 990)%Z /\
  (won (state g) = true -> score (state g) = 990%Z).
Proof.
  intro Hr. pose proof (reachable_ledgerBalanced g Hr) as H.
  unfold ledgerBalanced in H.
  pose proof (activePoints_nonneg (invaders (state g))) as Hn.
  split; [exact H|]. split.
  - split; [|lia].
    assert (Hle : (activePoints (invaders (state g)) <= 990)%Z).
    { destruct (reachable_gridKept g Hr) as (_ & Hty & _). clear H Hn.
      unfold activePoints.
      assert (Hgen : forall l l0 : list Invader.t,
                 map Invader.type l = map Invader.type l0 ->
                 (sumZ (map (fun i => points (Invader.type i))
                          (filter Invader.active l))
                  <= sumZ (map (fun i => points (Invader.type i)) l0))%Z).
      { induction l as [|a l IH]; intros [|b l0] Hm; simpl in *;
          try discriminate; try lia.
        injection Hm as Hab Hm. specialize (IH _ Hm).
        destruct (Invader.active a); simpl; rewrite <- ?Hab;
          destruct (points_tier (Invader.type a)) as [E|[E|E]]; lia. }
      specialize (Hgen _ _ Hty).
      assert (Htot : sumZ (map (fun i => points (Invader.type i))
                        (invaders createInitialState)) = 990%Z)
        by (vm_compute; reflexivity).
      lia. }
    lia.
  - intro Hw. destruct (reachable_sound g Hr) as [_ (_ & _ & Hc)].
    specialize (Hc Hw). unfold activePoints in H. rewrite Hc in H.
    simpl in H. lia.
Qed.

Lemma score_accounts_for_kills_witness :
  (score (state lostAndWon) + activePoints (invaders (state lostAndWon)) = 990)%Z /\
  (0 <= score (state lostAndWon) <= 990)%Z /\
  (won (state lostAndWon) = true -> score (state lostAndWon) = 990%Z).
Proof. apply score_accounts_for_kills. exact reachable_lostAndWon. Defined.

(** ** Won means cleared *)

Lemma cleared_evolves l l' :
  Forall2 evolves l l' ->
  filter Invader.active l = [] -> filter Invader.active l' = [].
Proof.
  induction 1 as [|a b l l' (_ & Ha & _) _ IH]; simpl; [auto|].
  destruct (Invader.active a) eqn:Ea; [discriminate|].
  destruct (Invader.active b) eqn:Eb; [specialize (Ha eq_refl); discriminate|].
  exact IH.
Qed.

Lemma over_update r s : gameOver s = true -> update r s = s.
Proof. intro H. unfold update. rewrite H. reflexivity. Qed.

Lemma endings_update r s :
  gameOver s = false -> won s = false ->
  (cleared (update r s) -> won (update r s) = true) /\
  (won (update r s) = true -> gameOver (update r s) = true /\ cleared (update r s)).
Proof.
  intros Hover Hwon. unfold update, cleared. rewrite Hover.
  rewrite won_cleanUp, over_cleanUp, invaders_cleanUp.
  set (X := fireStep r (animStep (sweepStep
              (checkCollisions (tickAndMoveBullets s))))).
  assert (HwX : won X = false).
  { unfold X. rewrite won_fireStep, won_animStep, won_sweepStep,
      won_checkCollisions. exact Hwon. }
  unfold winCheck.
  destruct (Nat.eqb (length (filter Invader.active (invaders X))) 0) eqn:E.
  - apply Nat.eqb_eq, length_zero_iff_nil in E. simpl. auto.
  - apply Nat.eqb_neq in E. split.
    + intro Hc. rewrite Hc in E. simpl in E. congruence.
    + rewrite HwX. discriminate.
Qed.

Lemma reachable_endingsAgree g : reachable g -> endingsAgree (state g).
Proof.
  apply reachable_state_ind; unfold endingsAgree, cleared.
  - split; [vm_compute; discriminate|simpl; discriminate].
  - intros ks s H.
    destruct (processInputState_fields ks s) as (Hi & _ & _ & Ho & Hw & _).
    rewrite Hi, Ho, Hw. exact H.
  - intros s H _. rewrite invaders_shoot.
    unfold shoot. destruct (Nat.leb _ _); exact H.
  - intros r s [H1 H2] Hover.
    assert (Hwon : won s = false).
    { destruct (won s); [|reflexivity]. specialize (H2 eq_refl). congruence. }
    destruct (endings_update r s Hover Hwon) as [A B].
    split; [exact A|]. intro Hw. apply B, Hw.
Qed.

(** X4.  In every reachable game [won] is set exactly when no invader is
    active, and a won game is over. *)
Theorem won_iff_cleared (g : Game) :
  reachable g ->
  (won (state g) = true <-> filter Invader.active (invaders (state g)) = []) /\
  (won (state g) = true -> gameOver (state g) = true).
Proof.
  intro Hr. destruct (reachable_endingsAgree g Hr) as [H1 H2].
  destruct (reachable_sound g Hr) as [_ (_ & _ & Hc)].
  split; [split; [exact Hc|exact H1]|exact H2].
Qed.

Lemma won_iff_cleared_witness :
  (won (state lostAndWon) = true <->
   filter Invader.active (invaders (state lostAndWon)) = []) /\
  (won (state lostAndWon) = true -> gameOver (state lostAndWon) = true).
Proof. apply won_iff_cleared. exact reachable_lostAndWon. Defined.

(** ** Everything stays on the canvas *)

Lemma half_widths :
  SHIP_WIDTH / 2 - BULLET_WIDTH / 2 == 22 /\
  INVADER_WIDTH / 2 - BULLET_WIDTH / 2 == 17.
Proof. split; vm_compute; reflexivity. Qed.

Lemma shoot_x (x : Q) : x + SHIP_WIDTH / 2 - BULLET_WIDTH / 2 == x + 22.
Proof. destruct half_widths as [H _]. lra. Qed.

Lemma enemyBullet_x (x : Q) : x + INVADER_WIDTH / 2 - BULLET_WIDTH / 2 == x + 17.
Proof. destruct half_widths as [_ H]. lra. Qed.

Lemma invaderInFieldb_sound i :
  invaderInFieldb i = true -> invaderInField i /\ aboveShip i.
Proof.
  unfold invaderInFieldb, invaderInField, aboveShip.
  destruct (Invader.active i); simpl; [|split; discriminate].
  rewrite !andb_true_iff, !Qltb_lt, !Qleb_le.
  intros [[[H1 H2] H3] H4]. split; intros _; [repeat split|]; lra.
Qed.

Lemma inBounds_initial : inBounds createInitialState.
Proof.
  assert (H : Forall (fun i => invaderInField i /\ aboveShip i)
                (invaders createInitialState)).
  { apply Forall_forall. intros i Hi. apply invaderInFieldb_sound.
    revert i Hi. apply forallb_forall. vm_compute. reflexivity. }
  split; [vm_compute; reflexivity|]. split; [exact inField_initial|].
  split; [|split]; [| |constructor].
  - eapply Forall_impl; [|exact H]. simpl. tauto.
  - intros _. eapply Forall_impl; [|exact H]. simpl. tauto.
Qed.

Lemma moveBullet_inField b :
  bulletInField b -> Bullet.active (moveBullet b) = true ->
  bulletInField (moveBullet b).
Proof.
  unfold bulletInField, moveBullet, CANVAS_HEIGHT, CANVAS_WIDTH, BULLET_WIDTH.
  intros (Ha & Hy0 & Hy1 & Hx0 & Hx1 & He). rewrite Ha. simpl.
  destruct (Qltb _ 0 || Qgtb _ 600) eqn:E; [discriminate|]. intros _.
  apply orb_false_iff in E as [E1 E2].
  apply Qltb_nlt in E1. unfold Qgtb in E2. apply Qltb_nlt in E2.
  repeat split; auto.
  intro Hp. rewrite Hp in *. specialize (He eq_refl). lra.
Qed.

Lemma inField_after_fade l l' :
  Forall2 bulletFade l l' ->
  Forall (fun b => Bullet.active b = true -> bulletInField b) l ->
  Forall bulletInField (filter Bullet.active l').
Proof.
  induction 1 as [|a b l l' (Hx & Hy & Hp & Ha) _ IH]; simpl; intro H;
    [constructor|].
  inversion H as [|? ? Hh Ht]; subst. specialize (IH Ht).
  destruct (Bullet.active b) eqn:Eb; [|exact IH].
  constructor; [|exact IH].
  specialize (Hh (Ha eq_refl)). unfold bulletInField in *.
  rewrite Hx, Hy, Hp, Eb. tauto.
Qed.

Lemma invaderInField_fade l l' :
  Forall2 invaderFade l l' ->
  Forall (fun i => invaderInField i /\ aboveShip i) l ->
  Forall (fun i => invaderInField i /\ aboveShip i) l'.
Proof.
  induction 1 as [|a b l l' (Hx & Hy & _ & _ & Ha) _ IH]; intro H;
    [constructor|].
  inversion H as [|? ? [H1 H2] Ht]; subst. constructor; [|auto].
  unfold invaderInField, aboveShip in *. rewrite Hx, Hy.
  split; intro Hb; auto.
Qed.

Lemma sweep_keeps_in_field s :
  Ship.y (ship s) == 550 ->
  Forall (fun i => invaderInField i /\ aboveShip i) (invaders s) ->
  Forall invaderInField (invaders (sweepStep s)) /\
  (gameOver (sweepStep s) = false -> Forall aboveShip (invaders (sweepStep s))).
Proof.
  intros Hy H. unfold sweepStep.
  destruct (Z.rem (tick s) 25 =? 0)%Z.
  2:{ split; [|intros _]; (eapply Forall_impl; [|exact H]); simpl; tauto. }
  unfold moveInvaders. cbn [invaders gameOver].
  set (d := existsb (hitsWall (invaderDirection s)) (invaders s)).
  set (moved := map (moveInvader d (invaderDirection s)) (invaders s)).
  split.
  - apply Forall_forall. intros j Hj. apply in_map_iff in Hj as (i & <- & Hi).
    rewrite Forall_forall in H. destruct (H i Hi) as [H1 H2].
    unfold invaderInField, aboveShip in *. rewrite moveInvader_active.
    intro Ha. specialize (H1 Ha). specialize (H2 Ha).
    unfold moveInvader. rewrite Ha. simpl. destruct d eqn:Ed; simpl.
    + repeat split; lra.
    + assert (Hw : hitsWall (invaderDirection s) i = false).
      { destruct (hitsWall (invaderDirection s) i) eqn:Ew; [|reflexivity].
        assert (existsb (hitsWall (invaderDirection s)) (invaders s) = true)
          by (apply existsb_exists; eauto).
        unfold d in Ed. congruence. }
      unfold hitsWall in Hw. rewrite Ha in Hw. simpl in Hw.
      apply orb_false_iff in Hw as [Hw1 Hw2].
      apply Qleb_nle in Hw1. unfold Qgeb in Hw2. apply Qleb_nle in Hw2.
      repeat split; lra.
  - destruct (existsb (reachedShip (ship s)) moved) eqn:Er; [discriminate|].
    intros _. apply Forall_forall. intros j Hj Ha.
    destruct (reachedShip (ship s) j) eqn:Ej.
    + assert (existsb (reachedShip (ship s)) moved = true)
        by (apply existsb_exists; eauto). congruence.
    + unfold reachedShip in Ej. rewrite Ha in Ej. simpl in Ej.
      unfold Qgeb in Ej. apply Qleb_nle in Ej. lra.
Qed.

Lemma animStep_keeps_in_field (P : Invader.t -> Prop) s :
  (forall i, P i -> P (animate i)) ->
  Forall P (invaders s) -> Forall P (invaders (animStep s)).
Proof.
  intros HP H. rewrite invaders_animStep. apply Forall_forall.
  intros j Hj. apply in_map_iff in Hj as (i & <- & Hi).
  rewrite Forall_forall in H. unfold animOrNot.
  destruct (_ =? _)%Z; auto.
Qed.

Lemma invaderInField_animate i : invaderInField i -> invaderInField (animate i).
Proof.
  unfold invaderInField, animate.
  destruct (Invader.active i) eqn:E; simpl; rewrite ?E; auto.
Qed.

Lemma aboveShip_animate i : aboveShip i -> aboveShip (animate i).
Proof.
  unfold aboveShip, animate.
  destruct (Invader.active i) eqn:E; simpl; rewrite ?E; auto.
Qed.

Lemma enemyBullet_inField sh :
  Invader.active sh = true -> invaderInField sh -> bulletInField (enemyBullet sh).
Proof.
  intros Ha H. specialize (H Ha). unfold bulletInField, enemyBullet.
  cbn [Bullet.x Bullet.y Bullet.active Bullet.isPlayer].
  rewrite enemyBullet_x.
  unfold CANVAS_WIDTH, CANVAS_HEIGHT, INVADER_WIDTH, INVADER_HEIGHT,
    BULLET_WIDTH in *.
  repeat split; intros; lra.
Qed.

Lemma inBounds_update r s : inBounds s -> gameOver s = false -> inBounds (update r s).
Proof.
  intros (Hy & Hf & Hi & Ha & Hb) Hover. specialize (Ha Hover).
  assert (Hship : ship (update r s) = ship s) by apply ship_update.
  unfold update in *. rewrite Hover in *.
  set (s1 := tickAndMoveBullets s) in *.
  set (mid := checkCollisions s1) in *.
  set (s3 := sweepStep mid) in *. set (s4 := animStep s3) in *.
  set (s5 := fireStep r s4) in *.
  assert (Hmid : Forall (fun i => invaderInField i /\ aboveShip i) (invaders mid)).
  { eapply invaderInField_fade; [apply (invaders_checkCollisions s1)|].
    apply Forall_forall. intros i Hin. rewrite Forall_forall in Hi, Ha. auto. }
  assert (Hymid : Ship.y (ship mid) == 550).
  { unfold mid. rewrite ship_checkCollisions. exact Hy. }
  destruct (sweep_keeps_in_field mid Hymid Hmid) as [H3 H3'].
  fold s3 in H3, H3'.
  assert (H4 : Forall invaderInField (invaders s4)).
  { apply animStep_keeps_in_field; [apply invaderInField_animate|exact H3]. }
  unfold inBounds, inField. rewrite Hship.
  rewrite invaders_cleanUp, over_cleanUp, bullets_cleanUp.
  rewrite invaders_winCheck, bullets_winCheck.
  assert (Hi5 : invaders s5 = invaders s4) by apply invaders_fireStep.
  rewrite !Hi5.
  split; [exact Hy|]. split; [exact Hf|]. split; [exact H4|]. split.
  - intro Hfin. apply over_winCheck in Hfin. unfold s5 in Hfin.
    rewrite over_fireStep in Hfin. unfold s4 in Hfin.
    rewrite over_animStep in Hfin.
    apply animStep_keeps_in_field; [apply aboveShip_animate|auto].
  - assert (Hbm : Forall bulletInField (filter Bullet.active (bullets mid))).
    { apply (inField_after_fade (map moveBullet (bullets s))).
      - apply (bullets_checkCollisions s1).
      - apply Forall_forall. intros b Hin.
        apply in_map_iff in Hin as (b0 & <- & Hin0).
        rewrite Forall_forall in Hb. apply moveBullet_inField, Hb, Hin0. }
    assert (Hb4 : bullets s4 = bullets mid).
    { unfold s4, s3. rewrite bullets_animStep, bullets_sweepStep. reflexivity. }
    destruct (fireStep_shooter r s4) as [E|(_ & sh & Hin & Hact & E)];
      fold s5 in E; rewrite E, Hb4; [exact Hbm|].
    rewrite filter_app. apply Forall_app. split; [exact Hbm|].
    simpl. constructor; [|constructor].
    apply enemyBullet_inField; [exact Hact|].
    rewrite Forall_forall in H4. apply H4, Hin.
Qed.

Lemma reachable_inBounds g : reachable g -> inBounds (state g).
Proof.
  apply reachable_state_ind.
  - exact inBounds_initial.
  - intros ks s (Hy & Hf & Hi & Ha & Hb).
    destruct (processInputState_fields ks s)
      as (Ei & _ & _ & Eo & _ & _ & _ & Ey).
    unfold inBounds. rewrite Ei, Eo, Ey, bullets_processInputState.
    split; [exact Hy|]. split; [apply inField_processInputState, Hf|]. auto.
  - intros s (Hy & Hf & Hi & Ha & Hb) _. unfold shoot.
    destruct (Nat.leb _ _); [unfold inBounds; auto|].
    unfold inBounds, inField, setBullets.
    cbn [ship invaders bullets gameOver].
    split; [exact Hy|]. split; [exact Hf|]. split; [exact Hi|].
    split; [exact Ha|]. apply Forall_app. split; [exact Hb|].
    constructor; [|constructor].
    unfold bulletInField. cbn [Bullet.x Bullet.y Bullet.active Bullet.isPlayer].
    rewrite shoot_x. destruct Hf as [Hf0 Hf1].
    unfold CANVAS_WIDTH, CANVAS_HEIGHT, SHIP_WIDTH, BULLET_WIDTH, BULLET_HEIGHT in *.
    repeat split; intros; try discriminate; lra.
  - intros r s H Hover. apply inBounds_update; assumption.
Qed.

(** X5.  In every reachable game each active invader is inside the canvas
    sideways (0 < x and x + INVADER_WIDTH < CANVAS_WIDTH) and at or below
    the first row; while the game is not over none has come down to the
    line 30 above the ship (y < 520). *)
Theorem invaders_stay_in_field (g : Game) :
  reachable g ->
  Forall (fun i => Invader.active i = true ->
            0 < Invader.x i /\ Invader.x i + INVADER_WIDTH < CANVAS_WIDTH /\
            60 <= Invader.y i)
         (invaders (state g)) /\
  (gameOver (state g) = false ->
   Forall (fun i => Invader.active i = true ->
             Invader.y i < Ship.y (ship (state g)) - 30)
          (invaders (state g))).
Proof.
  intro Hr. destruct (reachable_inBounds g Hr) as (Hy & _ & Hi & Ha & _).
  split.
  - eapply Forall_impl; [|exact Hi]. intros i H Hact. specialize (H Hact).
    unfold CANVAS_WIDTH, INVADER_WIDTH in *. repeat split; lra.
  - intro Hover. eapply Forall_impl; [|exact (Ha Hover)].
    intros i H Hact. specialize (H Hact). lra.
Qed.

Lemma invaders_stay_in_field_witness :
  Forall (fun i => Invader.active i = true ->
            0 < Invader.x i /\ Invader.x i + INVADER_WIDTH < CANVAS_WIDTH /\
            60 <= Invader.y i)
         (invaders (state beforeFirstSweep)) /\
  (gameOver (state beforeFirstSweep) = false ->
   Forall (fun i => Invader.active i = true ->
             Invader.y i < Ship.y (ship (state beforeFirstSweep)) - 30)
          (invaders (state beforeFirstSweep))).
Proof. apply invaders_stay_in_field. exact reachable_beforeFirstSweep. Defined.

(** X6.  In every reachable game the bullet list holds active bullets
    only, each inside the canvas: 0 <= y <= CANVAS_HEIGHT, 0 <= x and
    x + BULLET_WIDTH <= CANVAS_WIDTH. *)
Theorem bullets_stay_in_field (g : Game) :
  reachable g ->
  Forall (fun b => Bullet.active b = true /\
                   0 <= Bullet.y b /\ Bullet.y b <= CANVAS_HEIGHT /\
                   0 <= Bullet.x b /\ Bullet.x b + BULLET_WIDTH <= CANVAS_WIDTH)
         (bullets (state g)).
Proof.
  intro Hr. destruct (reachable_inBounds g Hr) as (_ & _ & _ & _ & Hb).
  eapply Forall_impl; [|exact Hb]. unfold bulletInField. tauto.
Qed.

Lemma bullets_stay_in_field_witness :
  Forall (fun b => Bullet.active b = true /\
                   0 <= Bullet.y b /\ Bullet.y b <= CANVAS_HEIGHT /\
                   0 <= Bullet.x b /\ Bullet.x b + BULLET_WIDTH <= CANVAS_WIDTH)
         (bullets (state beforeFirstKill)).
Proof. apply bullets_stay_in_field. exact reachable_beforeFirstKill. Defined.

(** ** The bullet list is short *)

Lemma reachable_playerBulletCount g :
  reachable g -> (playerBulletCount (state g) <= 3)%nat.
Proof.
  induction 1 as [|g e _ IH _]; [vm_compute; lia|].
  apply playerBulletCount_step, IH.
Qed.

Lemma spaced_count (L U : Q) bs :
  spaced bs -> low L bs ->
  Forall (fun b => isActiveEnemy b = true -> Bullet.y b <= U) bs ->
  length (filter isActiveEnemy bs) = 0%nat \/
  L + 70 * ofNat (length (filter isActiveEnemy bs)) - 70 <= U.
Proof.
  revert U. induction bs as [|a r IH]; intros U Hsp Hlow Hup; simpl;
    [left; reflexivity|].
  destruct Hsp as [Htr Hsp].
  inversion Hlow as [|? ? Hla Hlr]; subst.
  inversion Hup as [|? ? Hua Hur]; subst.
  destruct (isActiveEnemy a) eqn:Ea.
  - right. specialize (Hla eq_refl). specialize (Hua eq_refl).
    assert (Hup' : Forall (fun b => isActiveEnemy b = true ->
                                    Bullet.y b <= U - 70) r).
    { eapply Forall_impl; [|exact Htr]. intros b Hb Eb.
      specialize (Hb Ea Eb). lra. }
    destruct (IH (U - 70) Hsp Hlr Hup') as [H0|H1].
    + cbn [length]. rewrite H0. change (ofNat 1) with 1. lra.
    + cbn [length]. unfold ofNat in *. rewrite Nat2Z.inj_succ.
      unfold Z.succ. rewrite inject_Z_plus. change (inject_Z 1) with 1. lra.
  - apply IH; assumption.
Qed.

Lemma length_by_owner bs :
  Forall (fun b => Bullet.active b = true) bs ->
  length bs = (length (filter isActivePlayer bs) +
               length (filter isActiveEnemy bs))%nat.
Proof.
  induction 1 as [|b bs Hb _ IH]; simpl; [reflexivity|].
  unfold isActivePlayer at 1, isActiveEnemy at 1. rewrite Hb.
  destruct (Bullet.isPlayer b); simpl; lia.
Qed.

(** X7.  In every reachable game the bullet list holds at most 11
    bullets: at most 3 of the player's and, because enemy bullets in
    flight are 70 apart between y = 90 and the bottom of the canvas, at
    most 8 of the invaders'. *)
Theorem bullet_list_is_bounded (g : Game) :
  reachable g ->
  (length (filter isActivePlayer (bullets (state g))) <= 3)%nat /\
  (length (filter isActiveEnemy (bullets (state g))) <= 8)%nat /\
  (length (bullets (state g)) <= 11)%nat.
Proof.
  intro Hr.
  pose proof (reachable_playerBulletCount g Hr) as Hp.
  unfold playerBulletCount in Hp.
  destruct (reachable_inBounds g Hr) as (_ & _ & _ & _ & Hb).
  destruct (reachable_sound g Hr) as [(_ & _ & dy & _ & _ & Hsp) _].
  assert (He : (length (filter isActiveEnemy (bullets (state g))) <= 8)%nat).
  { destruct (spaced_count 90 CANVAS_HEIGHT (bullets (state g)) Hsp) as [H0|H1].
    - eapply Forall_impl; [|exact Hb]. intros b (_ & _ & _ & _ & _ & H) E.
      apply H. unfold isActiveEnemy in E.
      destruct (Bullet.isPlayer b); [discriminate|reflexivity].
    - eapply Forall_impl; [|exact Hb]. intros b (_ & _ & H & _) _. exact H.
    - lia.
    - destruct (le_lt_dec (length (filter isActiveEnemy (bullets (state g)))) 8)
        as [Hle|Hgt]; [exact Hle|].
      exfalso. unfold ofNat, CANVAS_HEIGHT in H1.
      assert (H9 : inject_Z 9 <=
                   inject_Z (Z.of_nat (length (filter isActiveEnemy
                                                 (bullets (state g)))))).
      { rewrite <- Zle_Qle. lia. }
      change (inject_Z 9) with 9 in H9. lra. }
  split; [exact Hp|]. split; [exact He|].
  rewrite (length_by_owner (bullets (state g))).
  - lia.
  - eapply Forall_impl; [|exact Hb]. unfold bulletInField. tauto.
Qed.

Lemma bullet_list_is_bounded_witness :
  (length (filter isActivePlayer (bullets (state beforeFirstKill))) <= 3)%nat /\
  (length (filter isActiveEnemy (bullets (state beforeFirstKill))) <= 8)%nat /\
  (length (bullets (state beforeFirstKill)) <= 11)%nat.
Proof. apply bullet_list_is_bounded. exact reachable_beforeFirstKill. Defined.

(** ** checkHit *)

(** X8.  [checkHit] does not depend on the order of the two boxes. *)
Theorem checkHit_symmetric (x1 y1 w1 h1 x2 y2 w2 h2 : Q) :
  checkHit x1 y1 w1 h1 x2 y2 w2 h2 = checkHit x2 y2 w2 h2 x1 y1 w1 h1.
Proof.
  unfold checkHit, Qgtb.
  destruct (Qltb x1 (x2 + w2)), (Qltb x2 (x1 + w1)),
    (Qltb y1 (y2 + h2)), (Qltb y2 (y1 + h1)); reflexivity.
Qed.

(** X9.  For boxes of positive size [checkHit] answers true exactly when
    the two boxes share an interior point: boxes that only touch along an
    edge or at a corner do not hit. *)
Theorem checkHit_iff_overlap (x1 y1 w1 h1 x2 y2 w2 h2 : Q) :
  0 < w1 -> 0 < h1 -> 0 < w2 -> 0 < h2 ->
  (checkHit x1 y1 w1 h1 x2 y2 w2 h2 = true <->
   boxesOverlap x1 y1 w1 h1 x2 y2 w2 h2).
Proof.
  intros Hw1 Hh1 Hw2 Hh2. unfold checkHit, boxesOverlap.
  rewrite !andb_true_iff, !Qltb_lt, !Qgtb_gt. split.
  - intros [[[A B] C] D].
    assert (Hx : exists px, x1 < px /\ px < x1 + w1 /\ x2 < px /\ px < x2 + w2).
    { destruct (Qlt_le_dec x1 x2) as [L|L];
        destruct (Qlt_le_dec (x1 + w1) (x2 + w2)) as [U|U].
      - exists ((x2 + (x1 + w1)) * (1 # 2)). repeat split; lra.
      - exists ((x2 + (x2 + w2)) * (1 # 2)). repeat split; lra.
      - exists ((x1 + (x1 + w1)) * (1 # 2)). repeat split; lra.
      - exists ((x1 + (x2 + w2)) * (1 # 2)). repeat split; lra. }
    assert (Hy : exists py, y1 < py /\ py < y1 + h1 /\ y2 < py /\ py < y2 + h2).
    { destruct (Qlt_le_dec y1 y2) as [L|L];
        destruct (Qlt_le_dec (y1 + h1) (y2 + h2)) as [U|U].
      - exists ((y2 + (y1 + h1)) * (1 # 2)). repeat split; lra.
      - exists ((y2 + (y2 + h2)) * (1 # 2)). repeat split; lra.
      - exists ((y1 + (y1 + h1)) * (1 # 2)). repeat split; lra.
      - exists ((y1 + (y2 + h2)) * (1 # 2)). repeat split; lra. }
    destruct Hx as (px & X1 & X2 & X3 & X4).
    destruct Hy as (py & Y1 & Y2 & Y3 & Y4).
    exists px, py. repeat split; assumption.
  - intros (px & py & X1 & X2 & X3 & X4 & Y1 & Y2 & Y3 & Y4).
    repeat split; lra.
Qed.

(** A bullet whose right edge is on an invader's left edge. *)
Lemma checkHit_iff_overlap_witness :
  checkHit 94 100 BULLET_WIDTH BULLET_HEIGHT
           100 100 INVADER_WIDTH INVADER_HEIGHT = true <->
  boxesOverlap 94 100 BULLET_WIDTH BULLET_HEIGHT
               100 100 INVADER_WIDTH INVADER_HEIGHT.
Proof. apply checkHit_iff_overlap; vm_compute; reflexivity. Defined.

(** ** Holding a direction *)

Lemma run_cons e es g : run (e :: es) g = run es (step g e).
Proof. reflexivity. Qed.

Lemma run_frames_state n g :
  gameOver (state g) = false ->
  gameOver (state (run (repeat (Frame false 0) n) g)) = false /\
  keys (run (repeat (Frame false 0) n) g) = keys g.
Proof.
  revert g. induction n as [|n IH]; intros g Hover; [auto|].
  cbn [repeat]. rewrite run_cons. cbn [step].
  destruct (processInputState_fields (keys g) (state g))
    as (_ & _ & _ & Ho & _).
  destruct (IH (gameLoop false 0 g)) as [H1 H2].
  - unfold gameLoop, processInput. cbn [state]. rewrite Ho. exact Hover.
  - split; [exact H1|]. rewrite H2. reflexivity.
Qed.

(** X10.  With only the right key held, n frames put the ship at
    min(CANVAS_WIDTH - SHIP_WIDTH, x + 8 n); with only the left key held,
    at max(0, x - 8 n): the ship runs at 8 per frame and stops on the
    wall. *)
Theorem holding_a_direction (n : nat) (g : Game) :
  gameOver (state g) = false -> inField (state g) ->
  (pressedRight (keys g) = true -> pressedLeft (keys g) = false ->
   Ship.x (ship (state (run (repeat (Frame false 0) n) g))) ==
   Qmin (CANVAS_WIDTH - SHIP_WIDTH) (Ship.x (ship (state g)) + 8 * ofNat n)) /\
  (pressedLeft (keys g) = true -> pressedRight (keys g) = false ->
   Ship.x (ship (state (run (repeat (Frame false 0) n) g))) ==
   Qmax 0 (Ship.x (ship (state g)) - 8 * ofNat n)).
Proof.
  revert g. induction n as [|n IH]; intros g Hover [Hf0 Hf1].
  - unfold CANVAS_WIDTH, SHIP_WIDTH in *. change (ofNat 0) with 0.
    cbn [repeat]. change (run [] g) with g.
    split; intros _ _.
    + match goal with |- context [Qmin ?a ?b] =>
        destruct (Qmin_cases a b) as [[H ->]|[H ->]] end; lra.
    + match goal with |- context [Qmax ?a ?b] =>
        destruct (Qmax_cases a b) as [[H ->]|[H ->]] end; lra.
  - assert (Hn : ofNat (S n) == ofNat n + 1).
    { unfold ofNat. rewrite Nat2Z.inj_succ. unfold Z.succ.
      rewrite inject_Z_plus. reflexivity. }
    assert (Hnn : 0 <= ofNat n).
    { unfold ofNat. change 0 with (inject_Z 0). rewrite <- Zle_Qle. lia. }
    cbn [repeat]. rewrite run_cons. cbn [step].
    set (g1 := gameLoop false 0 g).
    destruct (processInputState_fields (keys g) (state g))
      as (_ & _ & _ & Ho & _).
    assert (Hover1 : gameOver (state g1) = false).
    { unfold g1, gameLoop, processInput. cbn [state]. rewrite Ho. exact Hover. }
    assert (Hf1' : inField (state g1)).
    { unfold g1, gameLoop, processInput. cbn [state].
      apply inField_processInputState. split; assumption. }
    assert (Hk : keys g1 = keys g) by reflexivity.
    destruct (IH g1 Hover1 Hf1') as [IHr IHl]. rewrite Hk in IHr, IHl.
    unfold CANVAS_WIDTH, SHIP_WIDTH in *.
    split; intros Ha Hb.
    + rewrite (IHr Ha Hb).
      assert (Hx : Ship.x (ship (state g1)) ==
                   Qmin (800 - 50) (Ship.x (ship (state g)) + 8)).
      { unfold g1, gameLoop, processInput, processInputState. cbn [state].
        rewrite Hover. fold (pressedLeft (keys g)) (pressedRight (keys g)).
        rewrite Ha, Hb. reflexivity. }
      revert Hx.
      repeat match goal with |- context [Qmin ?a ?b] =>
        destruct (Qmin_cases a b) as [[? ->]|[? ->]] end; intro Hx; lra.
    + rewrite (IHl Ha Hb).
      assert (Hx : Ship.x (ship (state g1)) ==
                   Qmax 0 (Ship.x (ship (state g)) - 8)).
      { unfold g1, gameLoop, processInput, processInputState. cbn [state].
        rewrite Hover. fold (pressedLeft (keys g)) (pressedRight (keys g)).
        rewrite Ha, Hb. reflexivity. }
      revert Hx.
      repeat match goal with |- context [Qmax ?a ?b] =>
        destruct (Qmax_cases a b) as [[? ->]|[? ->]] end; intro Hx; lra.
Qed.

(** A hundred frames with the right arrow held, from the start of a game:
    the ship is on the right wall. *)
Lemma holding_a_direction_witness :
  Ship.x (ship (state (run (repeat (Frame false 0) 100)
                         (keydown "ArrowRight" (start newGame))))) ==
  Qmin (CANVAS_WIDTH - SHIP_WIDTH)
       (Ship.x (ship (state (keydown "ArrowRight" (start newGame)))) + 8 * ofNat 100).
Proof.
  apply (proj1 (holding_a_direction 100 (keydown "ArrowRight" (start newGame))
                  ltac:(vm_compute; reflexivity)
                  ltac:(split; vm_compute; discriminate)));
    vm_compute; reflexivity.
Defined.

(** ** Whose bullets do what *)

Lemma playerBullets_idle bs invs sc :
  Forall (fun b => isActivePlayer b = false) bs ->
  playerBulletsVsInvaders bs invs sc = (bs, invs, sc).
Proof.
  induction 1 as [|b rest Hb _ IH]; simpl; [reflexivity|].
  assert (E : negb (Bullet.active b) || negb (Bullet.isPlayer b) = true).
  { unfold isActivePlayer in Hb.
    destruct (Bullet.active b), (Bullet.isPlayer b); simpl in *; congruence. }
  rewrite E, IH. reflexivity.
Qed.

Lemma isActivePlayer_moveBullet b :
  isActivePlayer b = false -> isActivePlayer (moveBullet b) = false.
Proof.
  unfold isActivePlayer, moveBullet.
  destruct (Bullet.active b) eqn:Ea; destruct (Bullet.isPlayer b) eqn:Ep;
    simpl; rewrite ?Ea, ?Ep; simpl; auto; discriminate.
Qed.

Lemma isActiveEnemy_false_moveBullet b :
  isActiveEnemy b = false -> isActiveEnemy (moveBullet b) = false.
Proof.
  intro H. destruct (isActiveEnemy (moveBullet b)) eqn:E; [|reflexivity].
  apply isActiveEnemy_moveBullet in E as [E _]. congruence.
Qed.

Lemma lives_update_mid r s :
  gameOver s = false ->
  lives (update r s) = lives (checkCollisions (tickAndMoveBullets s)).
Proof.
  intro Hover. unfold update. rewrite Hover.
  rewrite lives_cleanUp, lives_winCheck, lives_fireStep, lives_animStep,
    lives_sweepStep. reflexivity.
Qed.

(** X11.  Lives are taken by enemy bullets only and invaders are shot by
    player bullets only: a tick on a state without an active enemy bullet
    leaves lives as they are (the shot fired on that tick cannot hit
    before the next), and a tick on a state without an active player
    bullet deactivates no invader and leaves the score as it is. *)
Theorem no_friendly_fire (r : Q) (s : GameState) :
  (Forall (fun b => isActiveEnemy b = false) (bullets s) ->
   lives (update r s) = lives s) /\
  (Forall (fun b => isActivePlayer b = false) (bullets s) ->
   score (update r s) = score s /\
   map Invader.active (invaders (update r s)) = map Invader.active (invaders s)).
Proof.
  destruct (gameOver s) eqn:Hover.
  { rewrite (over_update r s Hover). auto. }
  split; intro H.
  - rewrite (lives_update_mid r s Hover), checkCollisions_eq. cbn [lives].
    set (P := playerBulletsVsInvaders _ _ _).
    pose proof (playerBulletsVsInvaders_spec
                  (bullets (tickAndMoveBullets s))
                  (invaders (tickAndMoveBullets s))
                  (score (tickAndMoveBullets s))) as HP.
    fold P in HP. destruct P as [[bs1 invs1] sc1]. destruct HP as (HP & _).
    cbn [fst snd]. rewrite enemyBullets_miss; [reflexivity|].
    assert (Hm : Forall (fun b => isActiveEnemy b = false)
                   (bullets (tickAndMoveBullets s))).
    { cbn [tickAndMoveBullets bullets]. apply Forall_forall.
      intros b Hb. apply in_map_iff in Hb as (b0 & <- & Hb0).
      rewrite Forall_forall in H. apply isActiveEnemy_false_moveBullet, H, Hb0. }
    clear - HP Hm. induction HP as [|a b l l' Hab _ IH]; [constructor|].
    inversion Hm; subst. constructor; [|auto].
    intro E. apply (isActiveEnemy_fade _ _ Hab) in E. congruence.
  - assert (Hm : Forall (fun b => isActivePlayer b = false)
                   (bullets (tickAndMoveBullets s))).
    { cbn [tickAndMoveBullets bullets]. apply Forall_forall.
      intros b Hb. apply in_map_iff in Hb as (b0 & <- & Hb0).
      rewrite Forall_forall in H. apply isActivePlayer_moveBullet, H, Hb0. }
    assert (Hmid : invaders (checkCollisions (tickAndMoveBullets s)) = invaders s /\
                   score (checkCollisions (tickAndMoveBullets s)) = score s).
    { rewrite checkCollisions_eq. cbn [invaders score].
      rewrite (playerBullets_idle _ _ _ Hm). auto. }
    destruct Hmid as [Hi Hs]. split.
    + unfold update. rewrite Hover.
      rewrite score_cleanUp, score_winCheck, score_fireStep, score_animStep,
        score_sweepStep. exact Hs.
    + rewrite (flags_update r s Hover), Hi. reflexivity.
Qed.

Lemma no_friendly_fire_witness :
  lives (update 0 createInitialState) = lives createInitialState.
Proof. apply (proj1 (no_friendly_fire 0 createInitialState)). constructor. Defined.

(** ** The pressed keys *)

Lemma reachable_keys_nodup g : reachable g -> NoDup (keys g).
Proof.
  induction 1 as [|g e _ IH _]; [constructor|].
  destruct e as [k|k|due r|]; simpl.
  - unfold keydown. destruct (String.eqb k " "); simpl;
      apply set_add_nodup, IH.
  - apply set_remove_nodup, IH.
  - unfold gameLoop, processInput. destruct due; exact IH.
  - exact IH.
Qed.

Lemma has_true ks k : has ks k = true <-> In k ks.
Proof.
  unfold has. split.
  - apply set_mem_correct1.
  - apply set_mem_correct2.
Qed.

Lemma has_false ks k : has ks k = false <-> ~ In k ks.
Proof.
  rewrite <- has_true. destruct (has ks k); split; congruence.
Qed.

Lemma has_ext ks ks' k :
  (In k ks <-> In k ks') -> has ks k = has ks' k.
Proof.
  intro H. destruct (has ks' k) eqn:E.
  - apply has_true, H, has_true, E.
  - apply has_false. intro Hin. apply has_false in E. apply E, H, Hin.
Qed.

(** X12.  The set of pressed keys follows the keyboard: in every reachable
    game a key is held right after its keydown and not held right after
    its keyup, and neither event changes whether another key is held;
    frames and [start] do not touch the keys. *)
Theorem keys_follow_the_keyboard (g : Game) (k : string) :
  reachable g ->
  held (step g (KeyDown k)) k = true /\
  held (step g (KeyUp k)) k = false /\
  (forall k', k' <> k ->
     held (step g (KeyDown k)) k' = held g k' /\
     held (step g (KeyUp k)) k' = held g k') /\
  (forall due r, keys (step g (Frame due r)) = keys g) /\
  keys (step g Start) = keys g.
Proof.
  intro Hr. pose proof (reachable_keys_nodup g Hr) as Hnd.
  assert (Hd : keys (step g (KeyDown k)) = set_add string_dec k (keys g)).
  { simpl. unfold keydown. destruct (String.eqb k " "); reflexivity. }
  unfold held. rewrite Hd. cbn [step keyup keys].
  split; [apply has_true, set_add_iff; auto|].
  split; [apply has_false; intro H; apply set_remove_iff in H; tauto|].
  split; [|split].
  - intros k' Hne. split; apply has_ext.
    + rewrite set_add_iff. tauto.
    + rewrite set_remove_iff by exact Hnd. tauto.
  - intros due r. unfold gameLoop, processInput. destruct due; reflexivity.
  - reflexivity.
Qed.

Lemma keys_follow_the_keyboard_witness :
  held (step (step newGame (KeyDown "a")) (KeyDown "d")) "d" = true /\
  held (step (step newGame (KeyDown "a")) (KeyUp "d")) "d" = false /\
  (forall k', k' <> "d" ->
     held (step (step newGame (KeyDown "a")) (KeyDown "d")) k' =
     held (step newGame (KeyDown "a")) k' /\
     held (step (step newGame (KeyDown "a")) (KeyUp "d")) k' =
     held (step newGame (KeyDown "a")) k') /\
  (forall due r, keys (step (step newGame (KeyDown "a")) (Frame due r)) =
                 keys (step newGame (KeyDown "a"))) /\
  keys (step (step newGame (KeyDown "a")) Start) =
  keys (step newGame (KeyDown "a")).
Proof.
  apply keys_follow_the_keyboard.
  apply reach_step; [apply reach_new|exact I].
Defined.

(** ** The callbacks *)

Lemma last_cons {A} (a d : A) l : last (a :: l) d = last l a.
Proof.
  revert a d. induction l as [|b l IH]; intros a d; [reflexivity|].
  change (last (a :: b :: l) d) with (last (b :: l) d).
  rewrite !IH. reflexivity.
Qed.

Lemma last_app2 {A} (l1 l2 : list A) d :
  last (l1 ++ l2) d = last l2 (last l1 d).
Proof.
  revert d. induction l1 as [|a l1 IH]; intro d; [reflexivity|].
  rewrite <- app_comm_cons, !last_cons. apply IH.
Qed.

Lemma scoreCalls_app a b : scoreCalls (a ++ b) = scoreCalls a ++ scoreCalls b.
Proof. apply flat_map_app. Qed.

Lemma livesCalls_app a b : livesCalls (a ++ b) = livesCalls a ++ livesCalls b.
Proof. apply flat_map_app. Qed.

Lemma overCalls_app a b : overCalls (a ++ b) = overCalls a ++ overCalls b.
Proof. apply flat_map_app. Qed.

Lemma hitInvadersCalls_spec b invs sc :
  last (scoreCalls (hitInvadersCalls b invs sc)) sc =
    snd (hitInvaders b invs sc) /\
  livesCalls (hitInvadersCalls b invs sc) = [] /\
  overCalls (hitInvadersCalls b invs sc) = [].
Proof.
  revert b sc. induction invs as [|i rest IH]; intros b sc; simpl; [auto|].
  destruct (Invader.active i); simpl.
  - destruct (hitsInvader b i).
    + destruct (IH (deactivate b) (sc + points (Invader.type i))%Z)
        as (H1 & H2 & H3).
      destruct (hitInvaders (deactivate b) rest _) as [[b' rest'] sc'].
      cbn [scoreCalls livesCalls overCalls flat_map app].
      fold (scoreCalls (hitInvadersCalls (deactivate b) rest
                          (sc + points (Invader.type i))%Z)).
      rewrite last_cons. auto.
    + destruct (IH b sc) as (H1 & H2 & H3).
      destruct (hitInvaders b rest sc) as [[b' rest'] sc']. auto.
  - destruct (IH b sc) as (H1 & H2 & H3).
    destruct (hitInvaders b rest sc) as [[b' rest'] sc']. auto.
Qed.

Lemma playerCalls_spec bs invs sc :
  last (scoreCalls (playerCalls bs invs sc)) sc =
    snd (playerBulletsVsInvaders bs invs sc) /\
  livesCalls (playerCalls bs invs sc) = [] /\
  overCalls (playerCalls bs invs sc) = [].
Proof.
  revert invs sc. induction bs as [|b rest IH]; intros invs sc; simpl; [auto|].
  destruct (negb (Bullet.active b) || negb (Bullet.isPlayer b)).
  - destruct (IH invs sc) as (H1 & H2 & H3).
    destruct (playerBulletsVsInvaders rest invs sc) as [[rest' invs'] sc'].
    auto.
  - destruct (hitInvadersCalls_spec b invs sc) as (A1 & A2 & A3).
    destruct (hitInvaders b invs sc) as [[b1 invs1] sc1].
    destruct (IH invs1 sc1) as (H1 & H2 & H3).
    destruct (playerBulletsVsInvaders rest invs1 sc1) as [[rest' invs'] sc'].
    rewrite scoreCalls_app, livesCalls_app, overCalls_app, last_app2.
    rewrite A1, A2, A3, H2, H3. simpl in *. auto.
Qed.

Lemma enemyCalls_spec sh bs lv over sc :
  let '(_, lv', over') := enemyBulletsVsShip sh bs lv over in
  scoreCalls (enemyCalls sh bs lv sc) = [] /\
  last (livesCalls (enemyCalls sh bs lv sc)) lv = lv' /\
  Forall (fun p => p = (sc, false)) (overCalls (enemyCalls sh bs lv sc)) /\
  (over' = true <-> over = true \/ overCalls (enemyCalls sh bs lv sc) <> []).
Proof.
  revert lv over. induction bs as [|b rest IH]; intros lv over; simpl.
  - repeat split; auto. intros [H|H]; congruence.
  - destruct (negb (Bullet.active b) || Bullet.isPlayer b).
    + specialize (IH lv over).
      destruct (enemyBulletsVsShip sh rest lv over) as [[rest' lv'] over'].
      exact IH.
    + destruct (hitsShip b sh).
      * specialize (IH (lv - 1)%Z (if (lv - 1 <=? 0)%Z then true else over)).
        destruct (enemyBulletsVsShip sh rest _ _) as [[rest' lv'] over'].
        destruct IH as (H1 & H2 & H3 & H4).
        set (T := enemyCalls sh rest (lv - 1) sc) in *.
        set (G := if (lv - 1 <=? 0)%Z then [OnGameOver sc false] else []).
        change (OnLivesChange (lv - 1) :: G ++ T)
          with ([OnLivesChange (lv - 1)%Z] ++ G ++ T).
        rewrite !scoreCalls_app, !livesCalls_app, !overCalls_app, !last_app2.
        remember (scoreCalls T) as ST. remember (livesCalls T) as LT.
        remember (overCalls T) as OT. unfold G.
        destruct (lv - 1 <=? 0)%Z; cbn; subst ST.
        -- split; [exact H1|]. split; [exact H2|].
           split; [constructor; [reflexivity|exact H3]|].
           split; [intros _; right; discriminate|intros _; tauto].
        -- split; [exact H1|]. split; [exact H2|].
           split; [exact H3|exact H4].
      * specialize (IH lv over).
        destruct (enemyBulletsVsShip sh rest lv over) as [[rest' lv'] over'].
        exact IH.
Qed.

Lemma checkCollisionsCalls_eq s :
  let P := playerBulletsVsInvaders (bullets s) (invaders s) (score s) in
  checkCollisionsCalls s =
  playerCalls (bullets s) (invaders s) (score s) ++
  enemyCalls (ship s) (fst (fst P)) (lives s) (snd P).
Proof.
  unfold checkCollisionsCalls.
  destruct (playerBulletsVsInvaders _ _ _) as [[bs1 invs1] sc1]. reflexivity.
Qed.

Lemma moveInvadersCalls_spec s :
  scoreCalls (moveInvadersCalls s) = [] /\
  livesCalls (moveInvadersCalls s) = [] /\
  Forall (fun p => p = (score s, false)) (overCalls (moveInvadersCalls s)) /\
  (overCalls (moveInvadersCalls s) <> [] <->
   existsb (reachedShip (ship s)) (invaders (moveInvaders s)) = true).
Proof.
  unfold moveInvadersCalls.
  induction (invaders (moveInvaders s)) as [|i l (H1 & H2 & H3 & H4)]; simpl.
  - repeat split; auto; try constructor; intro H; congruence.
  - destruct (reachedShip (ship s) i); simpl.
    + repeat split; auto; try (constructor; auto); discriminate.
    + repeat split; auto; apply H4.
Qed.

Lemma score_update_mid r s :
  gameOver s = false ->
  score (update r s) = score (checkCollisions (tickAndMoveBullets s)).
Proof.
  intro Hover. unfold update. rewrite Hover.
  rewrite score_cleanUp, score_winCheck, score_fireStep, score_animStep,
    score_sweepStep. reflexivity.
Qed.

Lemma updateCalls_parts r s :
  gameOver s = false ->
  let s1 := tickAndMoveBullets s in
  let mid := checkCollisions s1 in
  let P := playerBulletsVsInvaders (bullets s1) (invaders s1) (score s1) in
  let X := fireStep r (animStep (sweepStep mid)) in
  updateCalls r s =
  (playerCalls (bullets s1) (invaders s1) (score s1) ++
   enemyCalls (ship s1) (fst (fst P)) (lives s1) (snd P)) ++
  (if (Z.rem (tick mid) 25 =? 0)%Z then moveInvadersCalls mid else []) ++
  (if Nat.eqb (length (filter Invader.active (invaders X))) 0
   then [OnGameOver (score X) true] else []).
Proof.
  intro Hover. cbv zeta. unfold updateCalls. rewrite Hover.
  rewrite checkCollisionsCalls_eq. reflexivity.
Qed.

(** X13.  The score and lives last passed to [onScoreChange] and
    [onLivesChange] are the ones of the state: whatever the event, if the
    callbacks showed the score and lives before it, the last values they
    receive while it is handled (or the old ones, when they are not
    called) are the score and lives after it. *)
Theorem callbacks_report_the_state (g : Game) (e : Event) :
  last (scoreCalls (calls g e)) (score (state g)) = score (state (step g e)) /\
  last (livesCalls (calls g e)) (lives (state g)) = lives (state (step g e)).
Proof.
  destruct e as [k|k|due r|]; cbn [calls step].
  - assert (Hl : forall s, lives (shoot s) = lives s).
    { intro s. unfold shoot. destruct (Nat.leb _ _); reflexivity. }
    unfold keydown. destruct (String.eqb k " "); cbn [state];
      [destruct (gameOver (state g))|]; rewrite ?score_shoot, ?Hl;
      split; reflexivity.
  - split; reflexivity.
  - destruct (processInputState_fields (keys g) (state g))
      as (_ & Es & El & _).
    unfold gameLoop, processInput. destruct due; cbn [state keys];
      [|split; [exact (eq_sym Es)|exact (eq_sym El)]].
    set (s := processInputState (keys g) (state g)) in *.
    rewrite <- Es, <- El.
    destruct (gameOver s) eqn:Hover.
    { unfold updateCalls. rewrite Hover, (over_update r s Hover).
      split; reflexivity. }
    rewrite (updateCalls_parts r s Hover).
    rewrite (score_update_mid r s Hover), (lives_update_mid r s Hover).
    set (s1 := tickAndMoveBullets s).
    set (mid := checkCollisions s1).
    set (P := playerBulletsVsInvaders (bullets s1) (invaders s1) (score s1)).
    assert (Hmid : score mid = snd P /\
                   lives mid = snd (fst (enemyBulletsVsShip (ship s1) (fst (fst P))
                                           (lives s1) (gameOver s1)))).
    { unfold mid. rewrite checkCollisions_eq. auto. }
    destruct Hmid as [-> ->].
    destruct (playerCalls_spec (bullets s1) (invaders s1) (score s1))
      as (A1 & A2 & A3). fold P in A1.
    pose proof (enemyCalls_spec (ship s1) (fst (fst P)) (lives s1)
                  (gameOver s1) (snd P)) as HE.
    destruct (enemyBulletsVsShip (ship s1) (fst (fst P)) (lives s1) (gameOver s1))
      as [[bs2 lv2] over2]. destruct HE as (B1 & B2 & _).
    destruct (moveInvadersCalls_spec mid) as (C1 & C2 & _).
    rewrite !scoreCalls_app, !livesCalls_app, !last_app2.
    rewrite A2, B1. cbn [fst snd].
    assert (Hm : forall c : bool,
               scoreCalls (if c then moveInvadersCalls mid else []) = [] /\
               livesCalls (if c then moveInvadersCalls mid else []) = [])
      by (intros []; auto).
    destruct (Hm (Z.rem (tick mid) 25 =? 0)%Z) as [-> ->].
    assert (Hw : forall (c : bool) v,
               scoreCalls (if c then [OnGameOver v true] else []) = [] /\
               livesCalls (if c then [OnGameOver v true] else []) = [])
      by (intros [] v; auto).
    match goal with |- context [if Nat.eqb ?n 0 then [OnGameOver ?v true] else []] =>
      destruct (Hw (Nat.eqb n 0) v) as [-> ->] end.
    cbn [last]. split; [exact A1|exact B2].
  - destruct (processInputState_fields (keys g) createInitialState)
      as (_ & Es & El & _).
    unfold start, gameLoop, processInput. cbn [state keys].
    rewrite Es, El. split; reflexivity.
Qed.

Lemma last_flag_false (l : list (Z * bool)) v :
  Forall (fun p => p = (v, false)) l -> last (map snd l) false = false.
Proof.
  induction 1 as [|p l Hp _ IH]; [reflexivity|].
  cbn [map]. rewrite last_cons. subst p. cbn [snd].
  destruct l; [reflexivity|exact IH].
Qed.

Lemma over_update_parts r s :
  gameOver s = false ->
  let mid := checkCollisions (tickAndMoveBullets s) in
  let X := fireStep r (animStep (sweepStep mid)) in
  gameOver (update r s) = gameOver (winCheck X) /\
  won (update r s) = won (winCheck X) /\
  score X = score mid /\ score (update r s) = score mid /\
  gameOver X = gameOver (sweepStep mid) /\ won X = won s.
Proof.
  intro Hover. cbv zeta. unfold update. rewrite Hover.
  rewrite over_cleanUp, won_cleanUp, score_cleanUp, score_winCheck.
  rewrite !score_fireStep, !score_animStep, !score_sweepStep.
  rewrite over_fireStep, over_animStep.
  rewrite won_fireStep, won_animStep, won_sweepStep, won_checkCollisions.
  repeat split.
Qed.

(** X14.  The game never ends silently.  On a tick of a running game that
    is not yet won, [gameOver] is set exactly when [onGameOver] is called
    at least once; every such call passes the final score of the tick;
    and [won] after the tick is the flag of the last call (false when
    there is none). *)
Theorem game_over_is_announced (r : Q) (s : GameState) :
  gameOver s = false -> won s = false ->
  let announced := overCalls (updateCalls r s) in
  (gameOver (update r s) = true <-> announced <> []) /\
  Forall (fun p => fst p = score (update r s)) announced /\
  won (update r s) = last (map snd announced) false.
Proof.
  intros Hover Hwon. cbv zeta.
  rewrite (updateCalls_parts r s Hover).
  destruct (over_update_parts r s Hover) as (Eo & Ew & EsX & Es & EoX & EwX).
  rewrite Eo, Ew, Es. clear Eo Ew Es.
  set (s1 := tickAndMoveBullets s) in *.
  set (mid := checkCollisions s1) in *.
  set (X := fireStep r (animStep (sweepStep mid))) in *.
  set (P := playerBulletsVsInvaders (bullets s1) (invaders s1) (score s1)).
  assert (Hmid : score mid = snd P /\
                 gameOver mid = snd (enemyBulletsVsShip (ship s1) (fst (fst P))
                                       (lives s1) (gameOver s1))).
  { unfold mid. rewrite checkCollisions_eq. auto. }
  destruct Hmid as [Hsm Hom].
  destruct (playerCalls_spec (bullets s1) (invaders s1) (score s1))
    as (_ & _ & A3).
  pose proof (enemyCalls_spec (ship s1) (fst (fst P)) (lives s1)
                (gameOver s1) (snd P)) as HE.
  destruct (enemyBulletsVsShip (ship s1) (fst (fst P)) (lives s1) (gameOver s1))
    as [[bs2 lv2] over2]. destruct HE as (_ & _ & B3 & B4).
  cbn [snd] in Hom. change (gameOver s1) with (gameOver s) in B4.
  rewrite Hover in B4.
  destruct (moveInvadersCalls_spec mid) as (_ & _ & C3 & C4).
  rewrite !overCalls_app, A3. cbn [app].
  set (E := overCalls (enemyCalls (ship s1) (fst (fst P)) (lives s1) (snd P))) in *.
  rewrite <- Hsm in B3.
  (* the sweep *)
  set (M := overCalls (if (Z.rem (tick mid) 25 =? 0)%Z
                       then moveInvadersCalls mid else [])).
  assert (HM : Forall (fun p => p = (score mid, false)) M /\
               (gameOver (sweepStep mid) = true <-> over2 = true \/ M <> [])).
  { unfold M, sweepStep. destruct (Z.rem (tick mid) 25 =? 0)%Z.
    - split; [exact C3|]. rewrite C4. unfold moveInvaders at 1.
      cbn [gameOver]. fold (moveInvaders mid) in *.
      change (map (moveInvader
                     (existsb (hitsWall (invaderDirection mid)) (invaders mid))
                     (invaderDirection mid)) (invaders mid))
        with (invaders (moveInvaders mid)).
      rewrite Hom.
      destruct (existsb (reachedShip (ship mid)) (invaders (moveInvaders mid)));
        intuition congruence.
    - split; [constructor|]. rewrite Hom. simpl. intuition congruence. }
  destruct HM as [HM1 HM2]. rewrite <- EoX in HM2.
  (* the win check *)
  unfold winCheck.
  destruct (Nat.eqb (length (filter Invader.active (invaders X))) 0).
  - cbn [gameOver won overCalls flat_map app]. rewrite EsX.
    split; [|split].
    + split; [intros _|reflexivity]. intro H.
      apply app_eq_nil in H as [_ H]. apply app_eq_nil in H as [_ H].
      discriminate.
    + apply Forall_app. split.
      { eapply Forall_impl; [|exact B3]. intros p ->. reflexivity. }
      apply Forall_app. split.
      { eapply Forall_impl; [|exact HM1]. intros p ->. reflexivity. }
      constructor; [reflexivity|constructor].
    + rewrite !map_app, !last_app2. reflexivity.
  - cbn [overCalls flat_map]. rewrite !app_nil_r, EwX, Hwon.
    split; [|split].
    + rewrite HM2, B4. split.
      * intros [[H|H]|H]; [discriminate| |]; intro H0;
          apply app_eq_nil in H0 as [H1 H2]; congruence.
      * intro H. destruct E; [right|left; right; discriminate].
        exact H.
    + apply Forall_app. split.
      { eapply Forall_impl; [|exact B3]. intros p ->. reflexivity. }
      { eapply Forall_impl; [|exact HM1]. intros p ->. reflexivity. }
    + symmetry. apply (last_flag_false _ (score mid)).
      apply Forall_app. split; assumption.
Qed.

Lemma game_over_is_announced_witness :
  let s := state (processInput beforeLastTick) in
  let announced := overCalls (updateCalls 0 s) in
  (gameOver (update 0 s) = true <-> announced <> []) /\
  Forall (fun p => fst p = score (update 0 s)) announced /\
  won (update 0 s) = last (map snd announced) false.
Proof.
  apply (game_over_is_announced 0 (state (processInput beforeLastTick))).
  - vm_compute. reflexivity.
  - vm_compute. reflexivity.
Defined.

(** * The ranking of the leaderboard (main.ts) *)

Section LoadLeaderboardRanking.

Variable toUpperCase : string -> string.

Abbreviation keyOf e := (toUpperCase (LeaderboardEntry.username e)).
Abbreviation shownName t := (toUpperCase (Total.username t)).
Abbreviation rowOf :=
  (fun t => (toUpperCase (Total.username t), Total.totalScore t)).

Lemma In_insertByTotal_iff a l x :
  In x (insertByTotal a l) <-> x = a \/ In x l.
Proof.
  induction l as [|b r IH]; simpl.
  - intuition.
  - destruct (_ <=? _)%Z; simpl; intuition.
Qed.

Lemma In_sortByTotal_iff l x : In x (sortByTotal l) <-> In x l.
Proof.
  induction l as [|a l IH]; simpl; [tauto|].
  rewrite In_insertByTotal_iff, IH. intuition.
Qed.

Lemma length_insertByTotal a l :
  length (insertByTotal a l) = S (length l).
Proof.
  induction l as [|b r IH]; simpl; [reflexivity|].
  destruct (_ <=? _)%Z; simpl; [reflexivity|]. rewrite IH. reflexivity.
Qed.

Lemma length_sortByTotal l : length (sortByTotal l) = length l.
Proof.
  induction l as [|a l IH]; simpl; [reflexivity|].
  rewrite length_insertByTotal, IH. reflexivity.
Qed.

Lemma ranked_insertByTotal a l :
  ranked (map rowOf l) -> ranked (map rowOf (insertByTotal a l)).
Proof.
  induction l as [|b r IH]; simpl.
  - intros _. split; [intros ? []|exact I].
  - intros [Hb Hr]. destruct (Z.leb_spec (Total.totalScore b) (Total.totalScore a)).
    + simpl. split; [|split; assumption].
      intros row [<-|Hin]; simpl; [assumption|].
      specialize (Hb row Hin). simpl in Hb. lia.
    + simpl. split; [|exact (IH Hr)].
      intros row Hin. apply in_map_iff in Hin as (x & <- & Hx).
      apply In_insertByTotal_iff in Hx as [->|Hx]; simpl; [lia|].
      apply (Hb (rowOf x)). apply in_map_iff. exists x. auto.
Qed.

Lemma ranked_sortByTotal l : ranked (map rowOf (sortByTotal l)).
Proof.
  induction l as [|a l IH]; simpl; [exact I|].
  apply ranked_insertByTotal, IH.
Qed.

Lemma ranked_firstn n rows : ranked rows -> ranked (firstn n rows).
Proof.
  revert rows. induction n as [|n IH]; intros [|row rest]; simpl; try tauto.
  intros [H1 H2]. split; [|exact (IH _ H2)].
  intros row' Hin. apply H1. exact (In_firstn _ _ _ Hin).
Qed.

Lemma ranked_app l1 l2 row1 row2 :
  ranked (l1 ++ l2) -> In row1 l1 -> In row2 l2 -> (snd row2 <= snd row1)%Z.
Proof.
  induction l1 as [|a l1 IH]; simpl; [tauto|].
  intros [Ha Hr] [<-|H1] H2.
  - apply Ha. apply in_or_app. right. exact H2.
  - exact (IH Hr H1 H2).
Qed.

Lemma NoDup_names_insertByTotal a l :
  NoDup (map (fun t => shownName t) (a :: l)) ->
  NoDup (map (fun t => shownName t) (insertByTotal a l)).
Proof.
  induction l as [|b r IH]; simpl; [tauto|].
  destruct (_ <=? _)%Z; simpl; [tauto|].
  intro H. inversion H as [|? ? Ha H']; subst.
  inversion H' as [|? ? Hb Hr]; subst.
  constructor.
  - intro Hin. apply in_map_iff in Hin as (x & Ex & Hx).
    apply In_insertByTotal_iff in Hx as [->|Hx].
    + apply Ha. left. symmetry. exact Ex.
    + apply Hb. rewrite <- Ex. apply in_map_iff. exists x. auto.
  - apply IH. constructor; [|exact Hr].
    intro Hin. apply Ha. right. exact Hin.
Qed.

Lemma names_sortByTotal_incl l x :
  In x (map (fun t => shownName t) (sortByTotal l)) ->
  In x (map (fun t => shownName t) l).
Proof.
  intro H. apply in_map_iff in H as (t & <- & Ht).
  apply (proj1 (In_sortByTotal_iff _ _)) in Ht.
  apply in_map_iff. exists t. split; [reflexivity|exact Ht].
Qed.

Lemma NoDup_names_sortByTotal l :
  NoDup (map (fun t => shownName t) l) ->
  NoDup (map (fun t => shownName t) (sortByTotal l)).
Proof.
  induction l as [|a l IH]; simpl; [tauto|].
  intro H. inversion H as [|? ? Ha Hl]; subst.
  apply NoDup_names_insertByTotal. simpl. constructor; [|exact (IH Hl)].
  intro Hin. apply Ha. apply names_sortByTotal_incl. exact Hin.
Qed.

Lemma NoDup_app_apart {A} (l1 l2 : list A) x :
  NoDup (l1 ++ l2) -> In x l1 -> In x l2 -> False.
Proof.
  induction l1 as [|a l1 IH]; simpl; [tauto|].
  intros H [<-|H1] H2; inversion H as [|? ? Ha Hl]; subst.
  - apply Ha. apply in_or_app. right. exact H2.
  - exact (IH Hl H1 H2).
Qed.

Lemma NoDup_app_left {A} (l1 l2 : list A) : NoDup (l1 ++ l2) -> NoDup l1.
Proof.
  induction l1 as [|a l1 IH]; simpl; [constructor|].
  intro H. inversion H as [|? ? Ha Hl]; subst.
  constructor; [|exact (IH Hl)].
  intro Hin. apply Ha. apply in_or_app. left. exact Hin.
Qed.

Lemma length_firstn_full {A} n (l : list A) :
  skipn n l <> [] -> length (firstn n l) = n.
Proof.
  revert l. induction n as [|n IH]; intros [|a l]; simpl; try congruence.
  intro H. rewrite (IH _ H). reflexivity.
Qed.

Lemma names_are_keys entries :
  map (fun t => shownName t) (map snd (scoreByUsername toUpperCase entries)) =
  map fst (scoreByUsername toUpperCase entries).
Proof.
  destruct (mapHolds_scoreByUsername toUpperCase entries) as (_ & Hval & _).
  rewrite map_map. apply map_ext_in. intros [k t] Hin.
  destruct (Hval _ _ Hin) as [H _]. exact H.
Qed.

Lemma keys_come_from_entries es m k :
  In k (map fst (fold_left (aggregateEntry toUpperCase) es m)) ->
  In k (map fst m) \/ exists e, In e es /\ keyOf e = k.
Proof.
  revert m. induction es as [|e es IH]; intros m; simpl; [tauto|].
  intro H. apply IH in H as [H|(e' & He' & Ek)].
  - unfold aggregateEntry in H. destruct (mapGet _ m).
    + rewrite addToExisting_keys in H. left. exact H.
    + rewrite map_app in H. apply in_app_or in H as [H|[<-|[]]].
      * left. exact H.
      * right. exists e. auto.
  - right. exists e'. auto.
Qed.

Lemma totalFor_nonneg name entries :
  (forall e, In e entries -> (0 <= LeaderboardEntry.score e)%Z) ->
  (0 <= totalFor toUpperCase name entries)%Z.
Proof.
  unfold totalFor. induction entries as [|e l IH]; intro H; simpl; [lia|].
  assert (Hl : (0 <= sumZ (map LeaderboardEntry.score
                  (filter (fun e0 => String.eqb (keyOf e0) name) l)))%Z).
  { apply IH. intros e' He'. apply H. right. exact He'. }
  destruct (String.eqb _ _); simpl; [|exact Hl].
  specialize (H e (or_introl eq_refl)). unfold sumZ in *. lia.
Qed.

Lemma sumZ_app l1 l2 : sumZ (l1 ++ l2) = (sumZ l1 + sumZ l2)%Z.
Proof.
  unfold sumZ. induction l1 as [|a l1 IH]; simpl; [reflexivity|].
  rewrite IH. lia.
Qed.

Abbreviation mapSum m :=
  (sumZ (map (fun p : string * Total.t => Total.totalScore (snd p)) m)).

Lemma mapSum_addToExisting k sc m t :
  mapGet k m = Some t ->
  mapSum (addToExisting k sc m) = (mapSum m + sc)%Z.
Proof.
  induction m as [|[k' t'] r IH]; simpl; [discriminate|].
  destruct (String.eqb k' k); simpl.
  - intros _. unfold sumZ. simpl. lia.
  - intro H. specialize (IH H). unfold sumZ in *. simpl. lia.
Qed.

Lemma mapSum_fold es m :
  mapSum (fold_left (aggregateEntry toUpperCase) es m) =
  (mapSum m + sumZ (map LeaderboardEntry.score es))%Z.
Proof.
  revert m. induction es as [|e es IH]; intro m; simpl.
  - unfold sumZ. simpl. lia.
  - rewrite IH. unfold aggregateEntry.
    destruct (mapGet (keyOf e) m) as [t|] eqn:Eg.
    + rewrite (mapSum_addToExisting _ _ _ _ Eg). unfold sumZ. simpl. lia.
    + rewrite map_app, sumZ_app. unfold sumZ. simpl. lia.
Qed.

Lemma sumZ_insertByTotal a l :
  sumZ (map Total.totalScore (insertByTotal a l)) =
  (Total.totalScore a + sumZ (map Total.totalScore l))%Z.
Proof.
  induction l as [|b r IH]; simpl; [reflexivity|].
  destruct (_ <=? _)%Z; simpl; [reflexivity|].
  unfold sumZ in *. simpl. rewrite IH. lia.
Qed.

Lemma sumZ_sortByTotal l :
  sumZ (map Total.totalScore (sortByTotal l)) =
  sumZ (map Total.totalScore l).
Proof.
  induction l as [|a l IH]; simpl; [reflexivity|].
  rewrite sumZ_insertByTotal, IH. reflexivity.
Qed.

Lemma sumZ_all_nonneg l : (forall z, In z l -> (0 <= z)%Z) -> (0 <= sumZ l)%Z.
Proof.
  unfold sumZ. induction l as [|a l IH]; intro H; simpl; [lia|].
  assert (0 <= a)%Z by (apply H; left; reflexivity).
  assert (0 <= fold_right Z.add 0 l)%Z by (apply IH; intros; apply H; right; assumption).
  lia.
Qed.

(** What [loadLeaderboard] shows, whatever was fetched. *)
Lemma rows_shape entries :
  let sorted := sortByTotal (map snd (scoreByUsername toUpperCase entries)) in
  leaderboardRows toUpperCase entries = map rowOf (firstn 10 sorted) /\
  NoDup (map (fun t => shownName t) sorted) /\
  (forall t, In t sorted ->
     Total.totalScore t = totalFor toUpperCase (shownName t) entries /\
     exists e, In e entries /\ keyOf e = shownName t) /\
  (forall e, In e entries -> exists t, In t sorted /\ shownName t = keyOf e).
Proof.
  cbv zeta. split; [reflexivity|].
  destruct (mapHolds_scoreByUsername toUpperCase entries) as (Hnd & Hval & Hcov).
  split; [|split].
  - apply NoDup_names_sortByTotal. rewrite names_are_keys. exact Hnd.
  - intros t Ht. apply In_sortByTotal_iff, in_map_iff in Ht as ([k t'] & Et & Hin).
    simpl in Et. subst t'. destruct (Hval _ _ Hin) as [Hk Htot].
    rewrite Hk. split; [exact Htot|].
    apply (in_map fst) in Hin. simpl in Hin.
    apply keys_come_from_entries in Hin as [[]|H]. exact H.
  - intros e He. specialize (Hcov e He).
    apply in_map_iff in Hcov as ([k t] & Ek & Hin). simpl in Ek. subst k.
    exists t. split; [|exact (proj1 (Hval _ _ Hin))].
    apply In_sortByTotal_iff, in_map_iff. exists (keyOf e, t). auto.
Qed.

(** The ten largest totals get a row. *)
Lemma rows_top_ten entries :
  let rows := leaderboardRows toUpperCase entries in
  (length rows <= 10)%nat /\
  forall e, In e entries ->
    let name := keyOf e in
    In (name, totalFor toUpperCase name entries) rows \/
    (length rows = 10%nat /\
     forall row, In row rows ->
       (totalFor toUpperCase name entries <= snd row)%Z).
Proof.
  cbv zeta. destruct (rows_shape entries) as (-> & _ & Hval & Hcov).
  set (sorted := sortByTotal (map snd (scoreByUsername toUpperCase entries))) in *.
  split; [rewrite length_map; apply firstn_le_length|].
  intros e He. destruct (Hcov e He) as (t & Ht & Ek).
  destruct (Hval t Ht) as [Htot _]. rewrite Ek in Htot.
  rewrite <- (firstn_skipn 10 sorted) in Ht.
  apply in_app_or in Ht as [Ht|Ht].
  - left. apply in_map_iff. exists t. split; [|exact Ht].
    rewrite Ek, Htot. reflexivity.
  - right. split.
    + rewrite length_map. apply length_firstn_full.
      intro H. rewrite H in Ht. exact Ht.
    + intros row Hrow. rewrite <- Htot.
      pose proof (ranked_sortByTotal
                    (map snd (scoreByUsername toUpperCase entries))) as Hr.
      fold sorted in Hr.
      rewrite <- (firstn_skipn 10 sorted), map_app in Hr.
      apply (ranked_app _ _ row
               (toUpperCase (Total.username t), Total.totalScore t) Hr Hrow).
      apply in_map_iff. exists t. split; [reflexivity|exact Ht].
Qed.

(** X15.  The leaderboard is a ranking.  Whatever entries were fetched and
    whatever [toUpperCase] does, at most ten rows are shown, no row has a
    larger total than a row above it, no name is shown twice, and every
    player with an entry either has a row showing the sum of that player's
    scores, or is left out below ten rows that all show at least that
    sum. *)
Theorem leaderboard_is_a_ranking (entries : list LeaderboardEntry.t) :
  let rows := leaderboardRows toUpperCase entries in
  (length rows <= 10)%nat /\ ranked rows /\ NoDup (map fst rows) /\
  (forall e, In e entries ->
     In (keyOf e, totalFor toUpperCase (keyOf e) entries) rows \/
     (length rows = 10%nat /\
      forall row, In row rows ->
        (totalFor toUpperCase (keyOf e) entries <= snd row)%Z)).
Proof.
  cbv zeta. destruct (rows_shape entries) as (-> & Hnd & Hval & Hcov).
  set (sorted := sortByTotal (map snd (scoreByUsername toUpperCase entries))) in *.
  split; [|split; [|split]].
  - rewrite length_map. apply firstn_le_length.
  - rewrite <- firstn_map. apply ranked_firstn, ranked_sortByTotal.
  - rewrite map_map. cbn [fst].
    rewrite <- (firstn_skipn 10 sorted), map_app in Hnd.
    exact (NoDup_app_left _ _ Hnd).
  - intros e He. destruct (Hcov e He) as (t & Ht & Ek).
    destruct (Hval t Ht) as [Htot _]. rewrite Ek in Htot.
    rewrite <- (firstn_skipn 10 sorted) in Ht.
    apply in_app_or in Ht as [Ht|Ht].
    + left. apply in_map_iff. exists t. split; [|exact Ht].
      rewrite Ek, Htot. reflexivity.
    + right. split.
      * rewrite length_map. apply length_firstn_full.
        intro H. rewrite H in Ht. exact Ht.
      * intros row Hrow. rewrite <- Htot.
        pose proof (ranked_sortByTotal
                      (map snd (scoreByUsername toUpperCase entries))) as Hr.
        fold sorted in Hr.
        rewrite <- (firstn_skipn 10 sorted), map_app in Hr.
        apply (ranked_app _ _ row
                 (toUpperCase (Total.username t), Total.totalScore t) Hr Hrow).
        apply in_map_iff. exists t. split; [reflexivity|exact Ht].
Qed.

(** X16.  No score is lost and none is counted twice.  When no fetched
    score is negative, the totals shown add up to at most the sum of all
    fetched scores, and to exactly that sum when every player with an
    entry has a row. *)
Theorem leaderboard_counts_each_score_once (entries : list LeaderboardEntry.t) :
  (forall e, In e entries -> (0 <= LeaderboardEntry.score e)%Z) ->
  let rows := leaderboardRows toUpperCase entries in
  (sumZ (map snd rows) <= sumZ (map LeaderboardEntry.score entries))%Z /\
  ((forall e, In e entries -> In (keyOf e) (map fst rows)) ->
   sumZ (map snd rows) = sumZ (map LeaderboardEntry.score entries)).
Proof.
  intro Hpos. cbv zeta.
  destruct (rows_shape entries) as (-> & Hnd & Hval & Hcov).
  set (sorted := sortByTotal (map snd (scoreByUsername toUpperCase entries))) in *.
  assert (Hall : sumZ (map Total.totalScore sorted) =
                 sumZ (map LeaderboardEntry.score entries)).
  { unfold sorted. rewrite sumZ_sortByTotal, map_map.
    unfold scoreByUsername. rewrite mapSum_fold. cbn [map]. unfold sumZ.
    cbn [fold_right]. reflexivity. }
  assert (Hsplit : sumZ (map Total.totalScore sorted) =
                   (sumZ (map Total.totalScore (firstn 10 sorted)) +
                    sumZ (map Total.totalScore (skipn 10 sorted)))%Z).
  { rewrite <- sumZ_app, <- map_app, firstn_skipn. reflexivity. }
  assert (Hrows : forall l,
             map snd (map (fun t => (shownName t, Total.totalScore t)) l) =
             map Total.totalScore l).
  { intro l. rewrite map_map. apply map_ext. reflexivity. }
  assert (Hnames : forall l,
             map fst (map (fun t => (shownName t, Total.totalScore t)) l) =
             map (fun t => shownName t) l).
  { intro l. rewrite map_map. apply map_ext. reflexivity. }
  rewrite Hrows, Hnames, <- Hall, Hsplit.
  split.
  - assert (0 <= sumZ (map Total.totalScore (skipn 10 sorted)))%Z; [|lia].
    apply sumZ_all_nonneg. intros z Hz. apply in_map_iff in Hz as (t & <- & Ht).
    assert (Ht' : In t sorted).
    { rewrite <- (firstn_skipn 10 sorted). apply in_or_app. right. exact Ht. }
    rewrite (proj1 (Hval t Ht')). apply totalFor_nonneg, Hpos.
  - intro Hshown. destruct (skipn 10 sorted) as [|t rest] eqn:Es.
    + unfold sumZ at 3. simpl. lia.
    + exfalso.
      assert (Ht : In t (skipn 10 sorted)) by (rewrite Es; left; reflexivity).
      assert (Ht' : In t sorted).
      { rewrite <- (firstn_skipn 10 sorted). apply in_or_app. right. exact Ht. }
      destruct (Hval t Ht') as [_ (e & He & Ek)].
      specialize (Hshown e He). rewrite Ek in Hshown.
      rewrite <- (firstn_skipn 10 sorted), map_app in Hnd.
      apply (NoDup_app_apart _ _ (shownName t) Hnd Hshown).
      apply in_map_iff. exists t. auto.
Qed.

End LoadLeaderboardRanking.

(** C8, as the code has it.  Whatever [toUpperCase] does and whatever the
    ledger holds, the total shown in a row of the leaderboard is the sum of
    the scores of all fetched entries whose username, upper-cased, is the
    name shown in that row.  The ten largest totals are shown: there are
    at most ten rows, and every player with an entry either has a row with
    that sum or is left out below ten rows that all show at least that
    sum.  Two accepted submissions of [a] then [b] by one address append
    two entries to the ledger, keep all earlier ones, and raise the sum
    for that player's name by [a + b]. *)
Theorem leaderboard_totals_are_sums (toUpperCase : string -> string) :
  (forall entries name total,
     In (name, total) (leaderboardRows toUpperCase entries) ->
     total = totalFor toUpperCase name entries) /\
  (forall entries,
     let rows := leaderboardRows toUpperCase entries in
     (length rows <= 10)%nat /\
     forall e, In e entries ->
       let name := toUpperCase (LeaderboardEntry.username e) in
       In (name, totalFor toUpperCase name entries) rows \/
       (length rows = 10%nat /\
        forall row, In row rows ->
          (totalFor toUpperCase name entries <= snd row)%Z)) /\
  (forall l address a b t1 t2 l1 l2,
     submit_score address a t1 l = Some l1 ->
     submit_score address b t2 l1 = Some l2 ->
     exists e1 e2,
       get_leaderboard l2 = get_leaderboard l ++ [e1; e2] /\
       LeaderboardEntry.score e1 = a /\ LeaderboardEntry.score e2 = b /\
       LeaderboardEntry.player e1 = address /\
       LeaderboardEntry.player e2 = address /\
       LeaderboardEntry.username e2 = LeaderboardEntry.username e1 /\
       totalFor toUpperCase
         (toUpperCase (LeaderboardEntry.username (fromRaw e1)))
         (getLeaderboard l2) =
       (totalFor toUpperCase
          (toUpperCase (LeaderboardEntry.username (fromRaw e1)))
          (getLeaderboard l) + a + b)%Z).
Proof.
  split; [apply rows_total|]. split; [apply rows_top_ten|].
  intros l address a b t1 t2 l1 l2 H1 H2. unfold submit_score in *.
  destruct (lookupPlayer address (players l)) as [name|] eqn:E;
    [|discriminate].
  injection H1 as <-. simpl in H2. rewrite E in H2. injection H2 as <-.
  exists (LeaderboardEntry.mk name address a t1),
         (LeaderboardEntry.mk name address b t2).
  unfold getLeaderboard, get_leaderboard. simpl.
  rewrite <- app_assoc. simpl.
  repeat split.
  rewrite map_app, totalFor_app. simpl map.
  change [fromRaw (LeaderboardEntry.mk name address a t1);
          fromRaw (LeaderboardEntry.mk name address b t2)]
    with ([fromRaw (LeaderboardEntry.mk name address a t1)] ++
          [fromRaw (LeaderboardEntry.mk name address b t2)]).
  rewrite totalFor_app, !totalFor_one. simpl.
  rewrite !String.eqb_refl. lia.
Qed.

(** The spec's scenario on an empty ledger: A registers, submits 100, then
    50; and, of twelve players, the one with the smallest total is left
    out below ten rows. *)
Lemma leaderboard_totals_are_sums_witness :
  (exists l1 l2,
     submit_score "GA" 100 1 (register_player "GA" "ace" (mkLedger [] []))
     = Some l1 /\
     submit_score "GA" 50 2 l1 = Some l2 /\
     length (get_leaderboard l2) = 2%nat /\
     leaderboardRows asciiUpper (getLeaderboard l2) = [("ACE", 150%Z)] /\
     150%Z = totalFor asciiUpper "ACE" (getLeaderboard l2)) /\
  In (LeaderboardEntry.mk "fay" "G" 20 0) twelvePilots /\
  (In ("FAY", 20%Z) (leaderboardRows asciiUpper twelvePilots) \/
   (length (leaderboardRows asciiUpper twelvePilots) = 10%nat /\
    forall row, In row (leaderboardRows asciiUpper twelvePilots) ->
      (20 <= snd row)%Z)).
Proof.
  split.
  - eexists. eexists. split; [reflexivity|]. split; [reflexivity|].
    split; [reflexivity|]. split; [reflexivity|].
    apply (proj1 (leaderboard_totals_are_sums asciiUpper)).
    left. reflexivity.
  - assert (Hin : In (LeaderboardEntry.mk "fay" "G" 20 0) twelvePilots)
      by (vm_compute; tauto).
    split; [exact Hin|].
    exact (proj2 (proj1 (proj2 (leaderboard_totals_are_sums asciiUpper))
                    twelvePilots) _ Hin).
Defined.

(** C8, as the spec words it, fails when usernames differ only in case:
    "bob" with 100 and "Bob" with 50 are shown as one row of 150, which is
    the total of neither username, nor of the name shown. *)
Lemma leaderboard_merges_case_variants :
  leaderboardRows asciiUpper bobThenBob = [("BOB", 150%Z)] /\
  exactTotalFor "bob" bobThenBob = 100%Z /\
  exactTotalFor "Bob" bobThenBob = 50%Z /\
  exactTotalFor "BOB" bobThenBob = 0%Z /\
  ~ (forall name total,
       In (name, total) (leaderboardRows asciiUpper bobThenBob) ->
       exists e, In e bobThenBob /\
         total = exactTotalFor (LeaderboardEntry.username e) bobThenBob).
Proof.
  repeat split; try reflexivity.
  intro H. destruct (H "BOB" 150%Z) as (e & He & Ht); [left; reflexivity|].
  destruct He as [<-|[<-|[]]]; vm_compute in Ht; discriminate.
Qed.

Lemma leaderboard_is_a_ranking_witness :
  In (LeaderboardEntry.mk "Ben" "G" 300 0) twelvePilots /\
  (In ("BEN", 310%Z) (leaderboardRows asciiUpper twelvePilots) \/
   (length (leaderboardRows asciiUpper twelvePilots) = 10%nat /\
    forall row, In row (leaderboardRows asciiUpper twelvePilots) ->
      (310 <= snd row)%Z)).
Proof.
  split; [vm_compute; tauto|].
  apply (proj2 (proj2 (proj2 (leaderboard_is_a_ranking asciiUpper twelvePilots)))
           (LeaderboardEntry.mk "Ben" "G" 300 0)).
  vm_compute. tauto.
Defined.

Lemma leaderboard_counts_each_score_once_witness :
  (forall e, In e twelvePilots -> (0 <= LeaderboardEntry.score e)%Z) /\
  (sumZ (map snd (leaderboardRows asciiUpper twelvePilots)) <=
   sumZ (map LeaderboardEntry.score twelvePilots))%Z.
Proof.
  assert (H : forall e, In e twelvePilots -> (0 <= LeaderboardEntry.score e)%Z).
  { intros e He. vm_compute in He.
    repeat (destruct He as [<-|He]; [vm_compute; discriminate|]).
    destruct He. }
  split; [exact H|].
  exact (proj1 (leaderboard_counts_each_score_once asciiUpper twelvePilots H)).
Defined.

(** * Rendering of the invaders (game.ts) *)

Lemma In_indexed {A} (l : list A) k n a :
  In (n, a) (indexed k l) -> (k <= n < k + length l)%nat /\ In a l.
Proof.
  revert k. induction l as [|b r IH]; intro k; simpl; [tauto|].
  intros [[= <- <-]|H].
  - split; [lia|left; reflexivity].
  - destruct (IH _ H) as [H1 H2]. split; [lia|right; exact H2].
Qed.

Lemma pattern_shape ty fr :
  length (getInvaderPattern ty fr) = 7%nat /\
  Forall (fun row => length row = 8%nat) (getInvaderPattern ty fr).
Proof.
  destruct ty; simpl; destruct (fr =? 0)%Z;
    (split; [reflexivity|repeat constructor]).
Qed.

Lemma ofNat_bounds n m : (n < m)%nat -> 0 <= ofNat n /\ ofNat n + 1 <= ofNat m.
Proof.
  intro H. unfold ofNat. split.
  - change 0 with (inject_Z 0). rewrite <- Zle_Qle. lia.
  - change 1 with (inject_Z 1). rewrite <- inject_Z_plus, <- Zle_Qle. lia.
Qed.

Lemma drawInvader_cells i rect :
  In rect (drawInvader i) ->
  rectW rect = 4 /\ rectH rect = 4 /\
  Invader.x i <= rectX rect /\ rectX rect + 4 <= Invader.x i + 32 /\
  Invader.y i <= rectY rect /\ rectY rect + 4 <= Invader.y i + 28.
Proof.
  unfold drawInvader. cbv zeta. intro H.
  apply in_flat_map in H as ([ry row] & Hrow & H).
  apply in_flat_map in H as ([cx cell] & Hcell & H).
  cbn [fst snd] in *.
  destruct (cell =? 0)%Z; [destruct H|]. destruct H as [<-|[]].
  destruct (pattern_shape (Invader.type i) (Invader.animFrame i)) as [Hlen Hrows].
  apply In_indexed in Hrow as [Hry Hin]. rewrite Hlen in Hry.
  rewrite Forall_forall in Hrows. specialize (Hrows row Hin).
  apply In_indexed in Hcell as [Hcx _]. rewrite Hrows in Hcx.
  destruct (ofNat_bounds cx 8) as [X1 X2]; [lia|].
  destruct (ofNat_bounds ry 7) as [Y1 Y2]; [lia|].
  change (ofNat 8) with 8 in X2. change (ofNat 7) with 7 in Y2.
  cbn [rectX rectY rectW rectH].
  split; [reflexivity|]. split; [reflexivity|].
  repeat split; lra.
Qed.

(** X17.  An invader is painted inside its hit box: every square that
    [drawInvader] fills is 4 by 4 and lies in the box of
    INVADER_WIDTH by INVADER_HEIGHT at the invader's position, and in
    fact in its left 32 by 28 part. *)
Theorem sprite_lies_in_the_hit_box (i : Invader.t) (rect : Rect) :
  In rect (drawInvader i) ->
  rectW rect = 4 /\ rectH rect = 4 /\
  Invader.x i <= rectX rect /\
  rectX rect + rectW rect <= Invader.x i + INVADER_WIDTH - 8 /\
  Invader.y i <= rectY rect /\
  rectY rect + rectH rect <= Invader.y i + INVADER_HEIGHT - 2.
Proof.
  intro H. destruct (drawInvader_cells i rect H) as (Ew & Eh & H1 & H2 & H3 & H4).
  rewrite Ew, Eh. unfold INVADER_WIDTH, INVADER_HEIGHT.
  split; [reflexivity|]. split; [reflexivity|]. repeat split; lra.
Qed.

Lemma sprite_lies_in_the_hit_box_witness :
  let i := Invader.mk 100 60 squid true 0 in
  let rect := fillRect (100 + ofNat 3 * 4) (60 + ofNat 0 * 4) 4 4 in
  In rect (drawInvader i) /\
  rectW rect = 4 /\ rectH rect = 4 /\
  Invader.x i <= rectX rect /\
  rectX rect + rectW rect <= Invader.x i + INVADER_WIDTH - 8 /\
  Invader.y i <= rectY rect /\
  rectY rect + rectH rect <= Invader.y i + INVADER_HEIGHT - 2.
Proof.
  cbv zeta.
  assert (H : In (fillRect (100 + ofNat 3 * 4) (60 + ofNat 0 * 4) 4 4)
                 (drawInvader (Invader.mk 100 60 squid true 0))).
  { left. reflexivity. }
  split; [exact H|].
  exact (sprite_lies_in_the_hit_box _ _ H).
Defined.

(** X18.  The hit box is wider than the sprite.  A bullet whose left edge
    is in the last 8 pixels of an invader's box, and that overlaps the box
    vertically, hits the invader although it overlaps none of the squares
    painted for it. *)
Theorem hit_without_touching_the_sprite (b : Bullet.t) (i : Invader.t) :
  Invader.x i + 32 <= Bullet.x b -> Bullet.x b < Invader.x i + INVADER_WIDTH ->
  Invader.y i - BULLET_HEIGHT < Bullet.y b ->
  Bullet.y b < Invader.y i + INVADER_HEIGHT ->
  hitsInvader b i = true /\
  forall rect, In rect (drawInvader i) ->
    checkHit (Bullet.x b) (Bullet.y b) BULLET_WIDTH BULLET_HEIGHT
             (rectX rect) (rectY rect) (rectW rect) (rectH rect) = false.
Proof.
  unfold hitsInvader, checkHit, INVADER_WIDTH, INVADER_HEIGHT, BULLET_WIDTH,
    BULLET_HEIGHT. intros H1 H2 H3 H4. split.
  - rewrite !andb_true_iff, !Qgtb_gt, !Qltb_lt. repeat split; lra.
  - intros rect Hin.
    destruct (drawInvader_cells i rect Hin) as (Ew & _ & _ & Hx & _).
    rewrite Ew.
    assert (E : Qltb (Bullet.x b) (rectX rect + 4) = false).
    { apply Qltb_nlt. lra. }
    rewrite E. reflexivity.
Qed.

Lemma hit_without_touching_the_sprite_witness :
  let b := Bullet.mk 134 70 true true in
  let i := Invader.mk 100 60 squid true 0 in
  hitsInvader b i = true /\
  forall rect, In rect (drawInvader i) ->
    checkHit (Bullet.x b) (Bullet.y b) BULLET_WIDTH BULLET_HEIGHT
             (rectX rect) (rectY rect) (rectW rect) (rectH rect) = false.
Proof.
  apply (hit_without_touching_the_sprite (Bullet.mk 134 70 true true)
           (Invader.mk 100 60 squid true 0));
    vm_compute; first [reflexivity|discriminate].
Defined.

(** X19.  The invaders are painted on the canvas: in every reachable
    state, each square that [render] fills for an invader lies within the
    canvas of CANVAS_WIDTH by CANVAS_HEIGHT. *)
Theorem invaders_are_painted_on_the_canvas (g : Game) (rect : Rect) :
  reachable g -> In rect (renderInvaders (state g)) ->
  0 <= rectX rect /\ rectX rect + rectW rect <= CANVAS_WIDTH /\
  0 <= rectY rect /\ rectY rect + rectH rect <= CANVAS_HEIGHT.
Proof.
  intros Hr Hin. destruct (reachable_inBounds g Hr) as (_ & _ & Hi & _ & _).
  unfold renderInvaders in Hin.
  apply in_flat_map in Hin as (i & Hi' & Hrect).
  apply filter_In in Hi' as [Hi' Hact].
  rewrite Forall_forall in Hi. destruct (Hi i Hi' Hact) as (X1 & X2 & Y1 & Y2).
  destruct (drawInvader_cells i rect Hrect) as (Ew & Eh & H1 & H2 & H3 & H4).
  rewrite Ew, Eh. unfold CANVAS_WIDTH, CANVAS_HEIGHT, INVADER_WIDTH in *.
  repeat split; lra.
Qed.

Lemma invaders_are_painted_on_the_canvas_witness :
  let rect := hd (fillRect 0 0 0 0) (renderInvaders (state newGame)) in
  0 <= rectX rect /\ rectX rect + rectW rect <= CANVAS_WIDTH /\
  0 <= rectY rect /\ rectY rect + rectH rect <= CANVAS_HEIGHT.
Proof.
  apply (invaders_are_painted_on_the_canvas newGame).
  - apply reach_new.
  - vm_compute. left. reflexivity.
Defined.

(** * The values passed to the callbacks (game.ts) *)

Lemma hitInvadersCalls_range b invs sc :
  (sc <= snd (hitInvaders b invs sc))%Z /\
  Forall (fun v => (sc <= v <= snd (hitInvaders b invs sc))%Z)
         (scoreCalls (hitInvadersCalls b invs sc)).
Proof.
  revert b sc. induction invs as [|i rest IH]; intros b sc; simpl.
  - split; [lia|constructor].
  - destruct (Invader.active i); simpl.
    + destruct (hitsInvader b i).
      * destruct (IH (deactivate b) (sc + points (Invader.type i))%Z) as [H1 H2].
        destruct (hitInvaders (deactivate b) rest _) as [[b' rest'] sc'].
        cbn [snd] in *.
        pose proof (points_tier (Invader.type i)) as Hp.
        split; [lia|].
        cbn [scoreCalls flat_map app].
        fold (scoreCalls (hitInvadersCalls (deactivate b) rest
                            (sc + points (Invader.type i))%Z)).
        constructor; [lia|].
        eapply Forall_impl; [|exact H2]. cbv beta. intros v Hv. lia.
      * destruct (IH b sc) as [H1 H2].
        destruct (hitInvaders b rest sc) as [[b' rest'] sc']. auto.
    + destruct (IH b sc) as [H1 H2].
      destruct (hitInvaders b rest sc) as [[b' rest'] sc']. auto.
Qed.

Lemma playerCalls_range bs invs sc :
  (sc <= snd (playerBulletsVsInvaders bs invs sc))%Z /\
  Forall (fun v => (sc <= v <= snd (playerBulletsVsInvaders bs invs sc))%Z)
         (scoreCalls (playerCalls bs invs sc)).
Proof.
  revert invs sc. induction bs as [|b rest IH]; intros invs sc; simpl.
  - split; [lia|constructor].
  - destruct (negb (Bullet.active b) || negb (Bullet.isPlayer b)).
    + destruct (IH invs sc) as [H1 H2].
      destruct (playerBulletsVsInvaders rest invs sc) as [[rest' invs'] sc'].
      auto.
    + destruct (hitInvadersCalls_range b invs sc) as [A1 A2].
      destruct (hitInvaders b invs sc) as [[b1 invs1] sc1].
      destruct (IH invs1 sc1) as [H1 H2].
      destruct (playerBulletsVsInvaders rest invs1 sc1) as [[rest' invs'] sc'].
      cbn [snd] in *. split; [lia|].
      rewrite scoreCalls_app. apply Forall_app. split.
      * eapply Forall_impl; [|exact A2]. cbv beta. intros v Hv. lia.
      * eapply Forall_impl; [|exact H2]. cbv beta. intros v Hv. lia.
Qed.

Lemma enemyCalls_range sh bs lv over sc :
  (snd (fst (enemyBulletsVsShip sh bs lv over)) <= lv)%Z /\
  Forall (fun v => (snd (fst (enemyBulletsVsShip sh bs lv over)) <= v <= lv - 1)%Z)
         (livesCalls (enemyCalls sh bs lv sc)).
Proof.
  revert lv over. induction bs as [|b rest IH]; intros lv over; simpl.
  - split; [lia|constructor].
  - destruct (negb (Bullet.active b) || Bullet.isPlayer b).
    + specialize (IH lv over).
      destruct (enemyBulletsVsShip sh rest lv over) as [[rest' lv'] over'].
      exact IH.
    + destruct (hitsShip b sh).
      * specialize (IH (lv - 1)%Z (if (lv - 1 <=? 0)%Z then true else over)).
        destruct (enemyBulletsVsShip sh rest _ _) as [[rest' lv'] over'].
        cbn [fst snd] in *. destruct IH as [H1 H2].
        split; [lia|].
        set (T := enemyCalls sh rest (lv - 1) sc) in *.
        set (G := if (lv - 1 <=? 0)%Z then [OnGameOver sc false] else []).
        change (OnLivesChange (lv - 1) :: G ++ T)
          with ([OnLivesChange (lv - 1)%Z] ++ G ++ T).
        rewrite !livesCalls_app.
        assert (EG : livesCalls G = []) by (unfold G; destruct (_ <=? _)%Z; reflexivity).
        rewrite EG. cbn [livesCalls flat_map app].
        constructor; [lia|].
        eapply Forall_impl; [|exact H2]. cbv beta. intros v Hv. lia.
      * specialize (IH lv over).
        destruct (enemyBulletsVsShip sh rest lv over) as [[rest' lv'] over'].
        exact IH.
Qed.

(** The calls of one tick of a running game, between the state before and
    the state after. *)
Lemma updateCalls_range r s :
  gameOver s = false ->
  (score s <= score (update r s))%Z /\ (lives (update r s) <= lives s)%Z /\
  Forall (fun v => (score s <= v <= score (update r s))%Z)
         (scoreCalls (updateCalls r s)) /\
  Forall (fun v => (lives (update r s) <= v <= lives s - 1)%Z)
         (livesCalls (updateCalls r s)) /\
  Forall (fun p => fst p = score (update r s) /\
                   (snd p = true -> won (update r s) = true))
         (overCalls (updateCalls r s)).
Proof.
  intro Hover. rewrite (updateCalls_parts r s Hover).
  destruct (over_update_parts r s Hover) as (_ & Ew & EsX & Es & _ & _).
  rewrite Ew, Es, (lives_update_mid r s Hover). clear Ew Es.
  set (s1 := tickAndMoveBullets s) in *.
  set (mid := checkCollisions s1) in *.
  set (X := fireStep r (animStep (sweepStep mid))) in *.
  set (P := playerBulletsVsInvaders (bullets s1) (invaders s1) (score s1)).
  assert (Hmid : score mid = snd P /\
                 lives mid = snd (fst (enemyBulletsVsShip (ship s1) (fst (fst P))
                                         (lives s1) (gameOver s1)))).
  { unfold mid. rewrite checkCollisions_eq. auto. }
  destruct Hmid as [Hsm Hlm].
  destruct (playerCalls_range (bullets s1) (invaders s1) (score s1)) as [A1 A2].
  destruct (playerCalls_spec (bullets s1) (invaders s1) (score s1))
    as (_ & A3 & A4).
  fold P in A1, A2. rewrite <- Hsm in A1, A2.
  destruct (enemyCalls_range (ship s1) (fst (fst P)) (lives s1) (gameOver s1)
              (snd P)) as [B1 B2].
  rewrite <- Hlm in B1, B2.
  pose proof (enemyCalls_spec (ship s1) (fst (fst P)) (lives s1)
                (gameOver s1) (snd P)) as HE.
  destruct (enemyBulletsVsShip (ship s1) (fst (fst P)) (lives s1) (gameOver s1))
    as [[bs2 lv2] over2]. destruct HE as (B3 & _ & B4 & _).
  destruct (moveInvadersCalls_spec mid) as (C1 & C2 & C3 & _).
  change (score s1) with (score s) in *. change (lives s1) with (lives s) in *.
  assert (Hm : forall c : bool,
             scoreCalls (if c then moveInvadersCalls mid else []) = [] /\
             livesCalls (if c then moveInvadersCalls mid else []) = [] /\
             Forall (fun p => p = (score mid, false))
                    (overCalls (if c then moveInvadersCalls mid else [])))
    by (intros []; auto).
  destruct (Hm (Z.rem (tick mid) 25 =? 0)%Z) as (M1 & M2 & M3).
  rewrite !scoreCalls_app, !livesCalls_app, !overCalls_app.
  rewrite A3, A4, B3, M1, M2. cbn [app].
  split; [exact A1|]. split; [exact B1|].
  unfold winCheck.
  destruct (Nat.eqb (length (filter Invader.active (invaders X))) 0);
    cbn [scoreCalls livesCalls overCalls flat_map app won];
    rewrite ?app_nil_r.
  - split; [exact A2|]. split; [exact B2|].
    apply Forall_app. split.
    { eapply Forall_impl; [|exact B4]. cbv beta. intros p ->.
      cbn [fst snd]. split; [symmetry; exact Hsm|discriminate]. }
    apply Forall_app. split.
    { eapply Forall_impl; [|exact M3]. cbv beta. intros p ->.
      cbn [fst snd]. split; [reflexivity|discriminate]. }
    constructor; [|constructor]. cbn [fst snd]. split; [exact EsX|reflexivity].
  - split; [exact A2|]. split; [exact B2|].
    apply Forall_app. split.
    { eapply Forall_impl; [|exact B4]. cbv beta. intros p ->.
      cbn [fst snd]. split; [symmetry; exact Hsm|discriminate]. }
    { eapply Forall_impl; [|exact M3]. cbv beta. intros p ->.
      cbn [fst snd]. split; [reflexivity|discriminate]. }
Qed.

Lemma reachable_score_lives g :
  reachable g -> (0 <= score (state g))%Z /\ (lives (state g) <= 3)%Z.
Proof.
  revert g.
  apply (reachable_state_ind
           (fun s => (0 <= score s)%Z /\ (lives s <= 3)%Z)).
  - vm_compute. split; discriminate.
  - intros ks s H. destruct (processInputState_fields ks s) as (_ & Es & El & _).
    rewrite Es, El. exact H.
  - intros s H _. rewrite score_shoot.
    unfold shoot. destruct (Nat.leb _ _); exact H.
  - intros r s [H1 H2] Hover.
    destruct (updateCalls_range r s Hover) as (A & B & _). lia.
Qed.

(** X20.  The callbacks only ever see values in range.  From a state the
    game can reach, every score passed to [onScoreChange] lies between 0
    and 990, every number of lives passed to [onLivesChange] between 0 and
    3, and every score passed to [onGameOver] between 0 and 990, being 990
    when the game is reported as won. *)
Theorem callbacks_stay_in_range (g : Game) (e : Event) :
  reachable g -> validEvent e ->
  Forall (fun v => (0 <= v <= 990)%Z) (scoreCalls (calls g e)) /\
  Forall (fun v => (0 <= v <= 3)%Z) (livesCalls (calls g e)) /\
  Forall (fun p => (0 <= fst p <= 990)%Z /\ (snd p = true -> fst p = 990%Z))
         (overCalls (calls g e)).
Proof.
  intros Hr He.
  assert (Hnil : Forall (fun v => (0 <= v <= 990)%Z) (scoreCalls []) /\
                 Forall (fun v => (0 <= v <= 3)%Z) (livesCalls []) /\
                 Forall (fun p => (0 <= fst p <= 990)%Z /\
                                  (snd p = true -> fst p = 990%Z))
                        (overCalls [])).
  { repeat split; constructor. }
  destruct e as [k|k|due r|]; cbn [calls]; try exact Hnil.
  - destruct due; [|exact Hnil].
    pose proof (reach_step g (Frame true r) Hr He) as Hr'.
    cbn [step] in Hr'. unfold gameLoop in Hr'. cbv zeta in Hr'.
    set (s := state (processInput g)) in *.
    assert (Hs : state (mkGame (update r s) (keys (processInput g))) = update r s)
      by reflexivity.
    destruct (gameOver s) eqn:Hover.
    { unfold updateCalls. rewrite Hover. exact Hnil. }
    destruct (reachable_score_lives g Hr) as [S0 L0].
    destruct (processInputState_fields (keys g) (state g))
      as (_ & Es & El & _).
    change (processInputState (keys g) (state g)) with s in Es, El.
    rewrite <- Es, <- El in *.
    pose proof (reachable_ledgerBalanced _ Hr') as HB.
    pose proof (reachable_sound _ Hr') as [_ (HL & _ & HW)].
    rewrite Hs in HB, HL, HW. unfold ledgerBalanced in HB.
    pose proof (activePoints_nonneg (invaders (update r s))) as HA.
    destruct (updateCalls_range r s Hover) as (A & B & C & D & E).
    split; [|split].
    + eapply Forall_impl; [|exact C]. cbv beta. intros v Hv. lia.
    + eapply Forall_impl; [|exact D]. cbv beta. intros v Hv. lia.
    + eapply Forall_impl; [|exact E]. cbv beta. intros p [E1 E2].
      rewrite E1. split; [lia|]. intro Hw.
      specialize (HW (E2 Hw)).
      assert (H0 : activePoints (invaders (update r s)) = 0%Z)
        by (unfold activePoints; rewrite HW; reflexivity).
      lia.
  - vm_compute. repeat split; try discriminate; repeat constructor;
      discriminate.
Qed.

Lemma callbacks_stay_in_range_witness :
  Forall (fun v => (0 <= v <= 990)%Z)
         (scoreCalls (calls beforeLastTick (Frame true 0))) /\
  Forall (fun v => (0 <= v <= 3)%Z)
         (livesCalls (calls beforeLastTick (Frame true 0))) /\
  Forall (fun p => (0 <= fst p <= 990)%Z /\ (snd p = true -> fst p = 990%Z))
         (overCalls (calls beforeLastTick (Frame true 0))).
Proof.
  apply (callbacks_stay_in_range beforeLastTick (Frame true 0)).
  - exact reachable_beforeLastTick.
  - split; [discriminate|reflexivity].
Defined.

(** * The names on the leaderboard (contract.ts, main.ts) *)

Lemma asciiUpper_empty s : asciiUpper s = "" -> s = "".
Proof. destruct s; [reflexivity|discriminate]. Qed.

(** X21.  No row of the leaderboard is without a name.  Whatever raw
    entries the contract returns, the name shown in a row is
    [toUpperCase] of the username of one of them, with Unknown standing
    in for an empty username ([getLeaderboard]'s fallback).  As
    [String.prototype.toUpperCase] turns no character into nothing (the
    hypothesis on [toUpperCase]), the name shown is never empty. *)
Theorem leaderboard_names_are_not_empty
  (toUpperCase : string -> string)
  (raw : list LeaderboardEntry.t) (name : string) (total : Z) :
  (forall s, toUpperCase s = "" -> s = "") ->
  In (name, total) (leaderboardRows toUpperCase (map fromRaw raw)) ->
  name <> "" /\
  exists e, In e raw /\
    name = toUpperCase (if String.eqb (LeaderboardEntry.username e) ""
                        then "Unknown" else LeaderboardEntry.username e).
Proof.
  intros Hup Hin.
  destruct (rows_shape toUpperCase (map fromRaw raw)) as (E & _ & Hval & _).
  rewrite E in Hin. apply in_map_iff in Hin as (t & [= <- _] & Ht).
  apply In_firstn, Hval in Ht as [_ (e & He & Ek)].
  apply in_map_iff in He as (e0 & <- & He0).
  rewrite <- Ek. unfold fromRaw. cbn [LeaderboardEntry.username].
  split.
  - intro H. apply Hup in H.
    destruct (String.eqb_spec (LeaderboardEntry.username e0) "") as [Hu|Hu];
      [discriminate|contradiction].
  - exists e0. split; [exact He0|reflexivity].
Qed.

Lemma leaderboard_names_are_not_empty_witness :
  let raw := [LeaderboardEntry.mk "" "GA" 70 1; LeaderboardEntry.mk "ace" "GB" 50 2] in
  (forall s, asciiUpper s = "" -> s = "") /\
  "UNKNOWN" <> "" /\
  exists e, In e raw /\
    "UNKNOWN" = asciiUpper (if String.eqb (LeaderboardEntry.username e) ""
                            then "Unknown" else LeaderboardEntry.username e).
Proof.
  split; [exact asciiUpper_empty|].
  apply (leaderboard_names_are_not_empty asciiUpper
           [LeaderboardEntry.mk "" "GA" 70 1; LeaderboardEntry.mk "ace" "GB" 50 2]
           "UNKNOWN" 70%Z asciiUpper_empty).
  left. reflexivity.
Defined.

(** * The march of the invaders (game.ts) *)

Lemma ofNat_S k : ofNat (S k) == ofNat k + 1.
Proof.
  unfold ofNat. rewrite Nat2Z.inj_succ. unfold Z.succ.
  rewrite inject_Z_plus. reflexivity.
Qed.

Lemma Forall2_after_fade (R R' : Invader.t -> Invader.t -> Prop)
  (f : Invader.t -> Invader.t) l0 l l1 :
  (forall i0 i i1, R i0 i -> invaderFade i i1 -> R' i0 (f i1)) ->
  Forall2 R l0 l -> Forall2 invaderFade l l1 -> Forall2 R' l0 (map f l1).
Proof.
  intros H H1. revert l1. induction H1 as [|a b l0 l Hab _ IH];
    intros l1 H2; inversion H2; subst; simpl; constructor; eauto.
Qed.

Lemma shiftedBy_tick t (d : bool) dir md (m : Z) (k : nat) i0 i i1 :
  dir == inject_Z md ->
  shiftedBy m k i0 i -> invaderFade i i1 ->
  shiftedBy (if (Z.rem t 25 =? 0)%Z then if d then m else (m + md)%Z else m)
            (if (Z.rem t 25 =? 0)%Z then if d then S k else k else k)
            i0 (animOrNot t (sweepOrNot t d dir i1)).
Proof.
  intros Hd Hs (Ex & Ey & _ & _ & Ha).
  unfold shiftedBy, animOrNot, sweepOrNot, animate, moveInvader in *.
  destruct (Invader.active i1) eqn:E1.
  - destruct (Hs (Ha eq_refl)) as [Hx Hy]. rewrite <- Ex, <- Ey in *.
    destruct (Z.rem t 15 =? 0)%Z; destruct (Z.rem t 25 =? 0)%Z;
      destruct d; cbn [negb]; rewrite ?E1; cbn; intros _;
      rewrite ?ofNat_S, ?inject_Z_plus; split; lra.
  - destruct (Z.rem t 15 =? 0)%Z; destruct (Z.rem t 25 =? 0)%Z;
      destruct d; cbn [negb]; rewrite ?E1; cbn;
      rewrite ?E1; intro H; discriminate.
Qed.

Lemma marching_update r s :
  formation s -> marching s -> gameOver s = false -> marching (update r s).
Proof.
  intros (_ & _ & Hdir) (m & k & H) Hover.
  assert (Hmd : exists md, invaderDirection s == inject_Z md).
  { destruct Hdir as [Hd|Hd]; [exists 1%Z|exists (-1)%Z]; exact Hd. }
  destruct Hmd as [md Hmd].
  unfold marching. rewrite (invaders_update r s Hover). cbv zeta.
  set (d := existsb _ _).
  exists (if (Z.rem (tick s + 1) 25 =? 0)%Z
          then if d then m else (m + md)%Z else m),
         (if (Z.rem (tick s + 1) 25 =? 0)%Z
          then if d then S k else k else k).
  apply (Forall2_after_fade (shiftedBy m k) _ _ _ (invaders s)).
  - intros i0 i i1. apply shiftedBy_tick. exact Hmd.
  - exact H.
  - apply (invaders_checkCollisions (tickAndMoveBullets s)).
Qed.

Lemma reachable_marching g : reachable g -> formation (state g) /\ marching (state g).
Proof.
  revert g. apply (reachable_state_ind (fun s => formation s /\ marching s)).
  - split; [exact formation_initial|]. exists 0%Z, 0%nat.
    apply Forall2_refl. intros i _. change (ofNat 0) with 0.
    change (inject_Z 0) with 0. split; lra.
  - intros ks s [HF HM].
    destruct (processInputState_fields ks s) as (Ei & _ & _ & _ & _ & Ed & _).
    split.
    + exact (formation_same s _ Ei Ed HF).
    + unfold marching. rewrite Ei. exact HM.
  - intros s [HF HM] _. split.
    + apply (formation_same s); [apply invaders_shoot| |exact HF].
      unfold shoot. destruct (Nat.leb _ _); reflexivity.
    + unfold marching. rewrite invaders_shoot. exact HM.
  - intros r s [HF HM] Hover. split.
    + apply formation_update, HF.
    + apply marching_update; assumption.
Qed.

(** X22.  The invaders march as one block.  In every state the game can
    reach there are a number of sideways steps (of 15, counted to the
    right) and a number of descents (of 25) such that every active invader
    stands at its starting cell shifted by exactly these. *)
Theorem invaders_march_as_one_block (g : Game) :
  reachable g ->
  exists (m : Z) (k : nat),
    Forall2 (fun i0 i =>
               Invader.active i = true ->
               Invader.x i == Invader.x i0 + 15 * inject_Z m /\
               Invader.y i == Invader.y i0 + 25 * ofNat k)
            (invaders createInitialState) (invaders (state g)).
Proof.
  intro Hr. destruct (reachable_marching g Hr) as [_ (m & k & H)].
  exists m, k. exact H.
Qed.

Lemma invaders_march_as_one_block_witness :
  exists (m : Z) (k : nat),
    Forall2 (fun i0 i =>
               Invader.active i = true ->
               Invader.x i == Invader.x i0 + 15 * inject_Z m /\
               Invader.y i == Invader.y i0 + 25 * ofNat k)
            (invaders createInitialState) (invaders (state beforeFirstSweep)).
Proof.
  apply (invaders_march_as_one_block beforeFirstSweep).
  exact reachable_beforeFirstSweep.
Defined.

(** * Every game ends (game.ts) *)

Lemma tick_update r s :
  gameOver s = false -> tick (update r s) = (tick s + 1)%Z.
Proof.
  intro Hover. unfold update. rewrite Hover.
  rewrite tick_cleanUp, tick_winCheck, tick_fireStep, tick_animStep,
    tick_sweepStep, tick_checkCollisions. reflexivity.
Qed.

Lemma dir_update r s :
  gameOver s = false ->
  invaderDirection (update r s) =
  if (Z.rem (tick s + 1) 25 =? 0)%Z
  then if existsb (hitsWall (invaderDirection s))
            (invaders (checkCollisions (tickAndMoveBullets s)))
       then invaderDirection s * -1 else invaderDirection s
  else invaderDirection s.
Proof.
  intro Hover. unfold update. rewrite Hover.
  rewrite dir_cleanUp, dir_winCheck, dir_fireStep, dir_animStep.
  unfold sweepStep. rewrite tick_checkCollisions.
  change (tick (tickAndMoveBullets s)) with (tick s + 1)%Z.
  destruct (Z.rem (tick s + 1) 25 =? 0)%Z.
  - unfold moveInvaders. cbn [invaderDirection].
    rewrite dir_checkCollisions. reflexivity.
  - rewrite dir_checkCollisions. reflexivity.
Qed.

Lemma Forall2_In_r {A B} (R : A -> B -> Prop) l l' b :
  Forall2 R l l' -> In b l' -> exists a, In a l /\ R a b.
Proof.
  induction 1 as [|a0 b0 l l' Hab _ IH]; simpl; [tauto|].
  intros [<-|Hin].
  - exists a0. auto.
  - destruct (IH Hin) as (a & Ha & HR). exists a. auto.
Qed.

Lemma starting_cells :
  Forall (fun i => 97 <= Invader.x i /\ Invader.x i <= 648 /\ 60 <= Invader.y i)
         (invaders createInitialState).
Proof.
  apply Forall_forall. intros i Hi.
  assert (H : startingCellb i = true).
  { revert i Hi. apply forallb_forall. vm_compute. reflexivity. }
  unfold startingCellb in H. rewrite !andb_true_iff, !Qleb_le in H. tauto.
Qed.

(** Where an active invader stands bounds the steps of the march. *)
Lemma march_is_bounded (m : Z) (k : nat) i0 i :
  In i0 (invaders createInitialState) -> shiftedBy m k i0 i ->
  invaderInField i -> Invader.active i = true ->
  (-43 <= m <= 44)%Z /\
  (Invader.y i < 520 -> (Z.of_nat k <= 18)%Z).
Proof.
  intros Hin Hs Hf Ha.
  pose proof starting_cells as Hc. rewrite Forall_forall in Hc.
  destruct (Hc i0 Hin) as (C1 & C2 & C3).
  destruct (Hs Ha) as [Hx Hy]. destruct (Hf Ha) as (F1 & F2 & _).
  unfold CANVAS_WIDTH, INVADER_WIDTH in F2.
  split; [split|].
  - assert (H : inject_Z (-44) < inject_Z m).
    { change (inject_Z (-44)) with (-44). lra. }
    rewrite <- Zlt_Qlt in H. lia.
  - assert (H : inject_Z m < inject_Z 45).
    { change (inject_Z 45) with 45. lra. }
    rewrite <- Zlt_Qlt in H. lia.
  - intro Hlow. unfold ofNat in Hy.
    assert (H : inject_Z (Z.of_nat k) < inject_Z 19).
    { change (inject_Z 19) with 19. lra. }
    rewrite <- Zlt_Qlt in H. lia.
Qed.

Lemma onSchedule_same s s' :
  invaders s' = invaders s -> invaderDirection s' = invaderDirection s ->
  tick s' = tick s -> onSchedule s -> onSchedule s'.
Proof. unfold onSchedule. intros -> -> ->. auto. Qed.

Lemma onSchedule_initial : onSchedule createInitialState.
Proof.
  exists 0%Z, 0%nat, 1%Z. split; [left; reflexivity|].
  split; [reflexivity|]. split; [|vm_compute; discriminate].
  apply Forall2_refl. intros i _. change (ofNat 0) with 0.
  change (inject_Z 0) with 0. split; lra.
Qed.

Lemma next_tick_fits (t B : Z) :
  (0 <= t)%Z -> (t <= 25 * B + 24)%Z -> (Z.rem (t + 1) 25 =? 0)%Z = false ->
  (t + 1 <= 25 * B + 24)%Z.
Proof.
  intros H0 Ht Hr. apply Z.eqb_neq in Hr.
  rewrite Z.rem_mod_nonneg in Hr by lia.
  destruct (Z.eq_dec t (25 * B + 24)) as [E|E]; [|lia].
  exfalso. apply Hr. subst t.
  replace (25 * B + 24 + 1)%Z with ((B + 1) * 25)%Z by lia.
  apply Z_mod_mult.
Qed.

Lemma onSchedule_update r s :
  (0 <= tick s)%Z -> inBounds s -> onSchedule s -> gameOver s = false ->
  onSchedule (update r s).
Proof.
  intros Ht0 (_ & _ & Hfield & _ & _) (m & k & md & Hmd & Hdir & H & Ht) Hover.
  pose proof (invaders_checkCollisions (tickAndMoveBullets s)) as [Hfade _].
  change (invaders (tickAndMoveBullets s)) with (invaders s) in Hfade.
  set (mid := checkCollisions (tickAndMoveBullets s)) in *.
  set (d := existsb (hitsWall (invaderDirection s)) (invaders mid)).
  assert (HF : Forall2
                 (shiftedBy
                    (if (Z.rem (tick s + 1) 25 =? 0)%Z
                     then if d then m else (m + md)%Z else m)
                    (if (Z.rem (tick s + 1) 25 =? 0)%Z
                     then if d then S k else k else k))
                 (invaders createInitialState) (invaders (update r s))).
  { rewrite (invaders_update r s Hover). cbv zeta. fold mid. fold d.
    apply (Forall2_after_fade (shiftedBy m k) _ _ _ (invaders s));
      [|exact H|exact Hfade].
    intros i0 i i1. apply shiftedBy_tick. exact Hdir. }
  assert (Hbound : d = true -> (-43 <= m <= 44)%Z).
  { intro Hd. unfold d in Hd. apply existsb_exists in Hd as (i1 & Hin1 & Hw).
    unfold hitsWall in Hw. apply andb_true_iff in Hw as [Hact _].
    destruct (Forall2_In_r _ _ _ _ Hfade Hin1) as (i & Hin & Hf).
    destruct (Forall2_In_r _ _ _ _ H Hin) as (i0 & Hin0 & Hs).
    destruct Hf as (_ & _ & _ & _ & Ha). specialize (Ha Hact).
    rewrite Forall_forall in Hfield.
    exact (proj1 (march_is_bounded m k i0 i Hin0 Hs (Hfield i Hin) Ha)). }
  unfold onSchedule. rewrite (tick_update r s Hover), (dir_update r s Hover).
  fold mid. fold d.
  destruct (Z.rem (tick s + 1) 25 =? 0)%Z eqn:Et.
  - destruct d eqn:Ed.
    + specialize (Hbound eq_refl).
      exists m, (S k), (- md)%Z. split; [lia|]. split.
      { rewrite Hdir, inject_Z_opp. lra. }
      split; [exact HF|].
      unfold sweepBudget in *. rewrite Nat2Z.inj_succ.
      destruct Hmd as [-> | ->]; cbn [Z.eqb Z.opp Pos.eqb] in *; lia.
    + exists (m + md)%Z, k, md. split; [exact Hmd|]. split; [exact Hdir|].
      split; [exact HF|].
      unfold sweepBudget in *.
      destruct Hmd as [-> | ->]; cbn [Z.eqb Pos.eqb] in *; lia.
  - exists m, k, md. split; [exact Hmd|]. split; [exact Hdir|].
    split; [exact HF|]. apply next_tick_fits; assumption.
Qed.

Lemma reachable_onSchedule g : reachable g -> onSchedule (state g).
Proof.
  induction 1 as [|g e Hr IH He]; [exact onSchedule_initial|].
  assert (Hin : forall s, onSchedule s ->
                  onSchedule (processInputState (keys g) s)).
  { intros s Hs.
    destruct (processInputState_fields (keys g) s)
      as (Ei & _ & _ & _ & _ & Ed & Et & _).
    exact (onSchedule_same s _ Ei Ed Et Hs). }
  destruct e as [k|k|due r|]; cbn [step].
  - unfold keydown. destruct (String.eqb k " "); cbn [state]; [|exact IH].
    destruct (gameOver (state g)); [exact IH|].
    apply (onSchedule_same (state g)); [apply invaders_shoot| | |exact IH];
      unfold shoot; destruct (Nat.leb _ _); reflexivity.
  - exact IH.
  - unfold gameLoop. cbv zeta. destruct due; [|apply Hin, IH].
    cbn [state].
    assert (Hr' : reachable (processInput g)).
    { apply (reach_step g (Frame false 0) Hr). split; [discriminate|reflexivity]. }
    set (s := state (processInput g)) in *.
    destruct (gameOver s) eqn:Hover.
    + rewrite (over_update r s Hover). apply Hin, IH.
    + apply onSchedule_update; [| |apply Hin, IH|exact Hover].
      * apply (reachable_sound _ Hr').
      * apply (reachable_inBounds _ Hr').
  - unfold start, gameLoop. cbv zeta. cbn [state keys processInput].
    destruct (processInputState_fields (keys g) createInitialState)
      as (Ei & _ & _ & _ & _ & Ed & Et & _).
    exact (onSchedule_same _ _ Ei Ed Et onSchedule_initial).
Qed.

(** X23.  Every game ends.  The invaders come down whatever the player
    does: a game the code can reach and that is not over has seen at most
    42274 ticks since it was started, and each due frame of a game that is
    not over adds one tick. *)
Theorem every_game_ends (g : Game) :
  reachable g -> gameOver (state g) = false ->
  (tick (state g) <= 42274)%Z /\
  (forall r, tick (state (step g (Frame true r))) = (tick (state g) + 1)%Z).
Proof.
  intros Hr Hover. split.
  - destruct (reachable_onSchedule g Hr) as (m & k & md & Hmd & _ & H & Ht).
    destruct (reachable_inBounds g Hr) as (_ & _ & Hfield & Habove & _).
    specialize (Habove Hover).
    destruct (reachable_endingsAgree g Hr) as [Hc Hw].
    assert (Hact : exists i, In i (invaders (state g)) /\ Invader.active i = true).
    { destruct (filter Invader.active (invaders (state g))) as [|i l] eqn:E.
      - rewrite (Hw (Hc E)) in Hover. discriminate.
      - exists i. apply filter_In. rewrite E. left. reflexivity. }
    destruct Hact as (i & Hin & Hact).
    destruct (Forall2_In_r _ _ _ _ H Hin) as (i0 & Hin0 & Hs).
    rewrite Forall_forall in Hfield, Habove.
    destruct (march_is_bounded m k i0 i Hin0 Hs (Hfield i Hin) Hact) as [Hm Hk].
    specialize (Hk (Habove i Hin Hact)).
    unfold sweepBudget in Ht. destruct Hmd as [-> | ->]; cbn [Z.eqb Pos.eqb] in Ht; lia.
  - intro r. cbn [step]. unfold gameLoop. cbv zeta. cbn [state].
    destruct (processInputState_fields (keys g) (state g))
      as (_ & _ & _ & Eo & _ & _ & Et & _).
    unfold processInput. cbn [state].
    rewrite tick_update; [rewrite Et; reflexivity|].
    rewrite Eo. exact Hover.
Qed.

Lemma every_game_ends_witness :
  (tick (state beforeFirstSweep) <= 42274)%Z /\
  (forall r, tick (state (step beforeFirstSweep (Frame true r))) =
             (tick (state beforeFirstSweep) + 1)%Z).
Proof.
  apply (every_game_ends beforeFirstSweep).
  - exact reachable_beforeFirstSweep.
  - vm_compute. reflexivity.
Defined.
